(** * Signalling layer of colour-match: a shallow embedding of
      [webrtc-connection.js] and the properties of its session codec,
      session-id generator, relay client, connection coordinator, session
      store and links.

    Conventions of the embedding.
    - A JavaScript string is the list of its UTF-16 code units ([N]).
    - A JSON-like datum is a [json] tree; Numbers are the integers ([Z]):
      time stamps and m-line indices are the only numbers of the protocol.
      Properties of an object are kept in enumeration order.
    - A JavaScript completion is [Normal v] or [Throw e]; [try]/[catch]
      is [catch_with].
    - The browser built-ins the source calls ([JSON.stringify], [JSON.parse],
      [btoa], [atob], [URLSearchParams], property access, [&&], [||]) are
      written out after ECMAScript, the WHATWG forgiving-base64 algorithm and
      the URL and Encoding Standards.  Calls to [console] change nothing a
      caller can observe and are left out. *)

From Stdlib Require Import Decimal DecimalFacts DecimalN.
From Stdlib Require Import String Ascii.
From Stdlib Require Import List NArith ZArith Lia Bool Arith.
Import ListNotations.

Set Implicit Arguments.

(** ** Strings *)

Definition code_unit := N.
Definition jsstring := list code_unit.

(** The code units of an ASCII literal. *)
Definition lit (s : string) : jsstring :=
  map N_of_ascii (list_ascii_of_string s).

Fixpoint jsstring_eqb (a b : jsstring) : bool :=
  match a, b with
  | [], [] => true
  | x :: a', y :: b' => N.eqb x y && jsstring_eqb a' b'
  | _, _ => false
  end.

Fixpoint starts_with (prefix s : jsstring) : bool :=
  match prefix, s with
  | [], _ => true
  | p :: prefix', c :: s' => N.eqb p c && starts_with prefix' s'
  | _ :: _, [] => false
  end.

(** [String.prototype.substring(a, b)] for [a <= b]. *)
Definition substring (a b : nat) (s : jsstring) : jsstring :=
  firstn (b - a) (skipn a s).

(** [String.prototype.toUpperCase] on the ASCII range (the only letters a
    radix-36 rendering contains). *)
Definition upper_unit (c : code_unit) : code_unit :=
  if ((97 <=? c) && (c <=? 122))%N then (c - 32)%N else c.

Definition toUpperCase (s : jsstring) : jsstring := map upper_unit s.

(** [s.replace(/x/g, y)] for single code units [x] and [y]. *)
Definition replace_all (x y : code_unit) (s : jsstring) : jsstring :=
  map (fun c => if N.eqb c x then y else c) s.

(** [c.repeat(n)]. *)
Definition repeat_unit (c : code_unit) (n : nat) : jsstring := repeat c n.

(** ** Completions *)

Inductive error : Type :=
| TypeError
| SyntaxError
| InvalidCharacterError
| NetworkError
| EngineError
| StoreError.

Inductive completion (A : Type) : Type :=
| Normal (a : A)
| Throw (e : error).

Arguments Normal {A} a.
Arguments Throw {A} e.

Definition cbind {A B} (c : completion A) (k : A -> completion B)
  : completion B :=
  match c with
  | Normal a => k a
  | Throw e => Throw e
  end.

(** [try { c } catch (e) { h e }]. *)
Definition catch_with {A} (c : completion A) (h : error -> completion A)
  : completion A :=
  match c with
  | Normal a => Normal a
  | Throw e => h e
  end.

Definition is_normal {A} (c : completion A) : bool :=
  match c with Normal _ => true | Throw _ => false end.

(** ** Code units the source and the built-ins name *)

Definition ch_tab : code_unit := 9%N.
Definition ch_lf : code_unit := 10%N.
Definition ch_ff : code_unit := 12%N.
Definition ch_cr : code_unit := 13%N.
Definition ch_space : code_unit := 32%N.
Definition ch_quote : code_unit := 34%N.      (* double quote *)
Definition ch_plus : code_unit := 43%N.
Definition ch_comma : code_unit := 44%N.
Definition ch_minus : code_unit := 45%N.
Definition ch_dot : code_unit := 46%N.
Definition ch_slash : code_unit := 47%N.
Definition ch_zero : code_unit := 48%N.
Definition ch_colon : code_unit := 58%N.
Definition ch_equals : code_unit := 61%N.
Definition ch_lbracket : code_unit := 91%N.
Definition ch_backslash : code_unit := 92%N.
Definition ch_rbracket : code_unit := 93%N.
Definition ch_underscore : code_unit := 95%N.
Definition ch_lbrace : code_unit := 123%N.
Definition ch_rbrace : code_unit := 125%N.

(** ** JSON data *)

Unset Elimination Schemes.

Inductive json : Type :=
| JNull
| JBool (b : bool)
| JNum (n : Z)
| JStr (s : jsstring)
| JArr (items : list json)
| JObj (props : list (jsstring * json)).

Set Elimination Schemes.

(** Induction over a datum, its items and the values of its properties. *)
Fixpoint json_ind (P : json -> Prop)
  (Hnull : P JNull)
  (Hbool : forall b, P (JBool b))
  (Hnum : forall n, P (JNum n))
  (Hstr : forall s, P (JStr s))
  (Harr : forall items, Forall P items -> P (JArr items))
  (Hobj : forall props, Forall (fun kv => P (snd kv)) props -> P (JObj props))
  (v : json) {struct v} : P v :=
  let rec := json_ind Hnull Hbool Hnum Hstr Harr Hobj in
  match v with
  | JNull => Hnull
  | JBool b => Hbool b
  | JNum n => Hnum n
  | JStr s => Hstr s
  | JArr items =>
      Harr items
        ((fix all (l : list json) : Forall P l :=
            match l with
            | [] => Forall_nil P
            | x :: l' => Forall_cons x (rec x) (all l')
            end) items)
  | JObj props =>
      Hobj props
        ((fix all (l : list (jsstring * json))
            : Forall (fun kv => P (snd kv)) l :=
            match l with
            | [] => Forall_nil _
            | kv :: l' => Forall_cons kv (rec (snd kv)) (all l')
            end) props)
  end.

(** *** Numbers: decimal rendering of an integer ([Number::toString]) *)

Fixpoint print_uint (d : uint) : jsstring :=
  match d with
  | Nil => []
  | D0 d' => 48%N :: print_uint d'
  | D1 d' => 49%N :: print_uint d'
  | D2 d' => 50%N :: print_uint d'
  | D3 d' => 51%N :: print_uint d'
  | D4 d' => 52%N :: print_uint d'
  | D5 d' => 53%N :: print_uint d'
  | D6 d' => 54%N :: print_uint d'
  | D7 d' => 55%N :: print_uint d'
  | D8 d' => 56%N :: print_uint d'
  | D9 d' => 57%N :: print_uint d'
  end.

Definition print_N (n : N) : jsstring := print_uint (N.to_uint n).

Definition print_number (n : Z) : jsstring :=
  match n with
  | Zneg _ => ch_minus :: print_N (Z.abs_N n)
  | _ => print_N (Z.abs_N n)
  end.

Definition is_digit (c : code_unit) : bool := ((48 <=? c) && (c <=? 57))%N.

Definition digit_of (c : code_unit) : option (uint -> uint) :=
  if (c =? 48)%N then Some D0 else
  if (c =? 49)%N then Some D1 else
  if (c =? 50)%N then Some D2 else
  if (c =? 51)%N then Some D3 else
  if (c =? 52)%N then Some D4 else
  if (c =? 53)%N then Some D5 else
  if (c =? 54)%N then Some D6 else
  if (c =? 55)%N then Some D7 else
  if (c =? 56)%N then Some D8 else
  if (c =? 57)%N then Some D9 else None.

(** The longest run of decimal digits at the head of [s]. *)
Fixpoint scan_uint (s : jsstring) : uint * jsstring :=
  match s with
  | [] => (Nil, [])
  | c :: r =>
      match digit_of c with
      | Some D => let (d, rest) := scan_uint r in (D d, rest)
      | None => (Nil, s)
      end
  end.

(** Does a fraction or an exponent follow the integer part? *)
Definition continues_number (s : jsstring) : bool :=
  match s with
  | c :: _ => (c =? ch_dot)%N || (c =? 101)%N || (c =? 69)%N
  | [] => false
  end.

(** A JSON number token: an optional minus sign, then either a single zero
    or a digit run that does not start with zero, then an optional fraction
    and exponent.  A token with a fraction or an exponent denotes a Number
    outside the integers and is refused by this model. *)
Definition parse_natural (body : jsstring) : option (N * jsstring) :=
  let '(d, rest) := scan_uint body in
  match d with
  | Nil => None
  | D0 (D0 _ | D1 _ | D2 _ | D3 _ | D4 _ | D5 _ | D6 _ | D7 _ | D8 _ | D9 _) =>
      None
  | _ => if continues_number rest then None else Some (N.of_uint d, rest)
  end.

Definition parse_number (s : jsstring) : option (Z * jsstring) :=
  match s with
  | c :: r =>
      if (c =? ch_minus)%N then
        match parse_natural r with
        | Some (n, rest) => Some (Z.opp (Z.of_N n), rest)
        | None => None
        end
      else
        match parse_natural s with
        | Some (n, rest) => Some (Z.of_N n, rest)
        | None => None
        end
  | [] => None
  end.

(** *** Strings: [QuoteJSONString] *)

Definition is_high_surrogate (c : code_unit) : bool :=
  ((55296 <=? c) && (c <=? 56319))%N.

Definition is_low_surrogate (c : code_unit) : bool :=
  ((56320 <=? c) && (c <=? 57343))%N.

Definition hex_digit (d : N) : code_unit :=
  if (d <? 10)%N then (48 + d)%N else (87 + d)%N.

Definition hex_val (c : code_unit) : option N :=
  if ((48 <=? c) && (c <=? 57))%N then Some (c - 48)%N else
  if ((97 <=? c) && (c <=? 102))%N then Some (c - 87)%N else
  if ((65 <=? c) && (c <=? 70))%N then Some (c - 55)%N else None.

(** The escape [\uXXXX] of a code unit, lower-case hexadecimal. *)
Definition unicode_escape (c : code_unit) : jsstring :=
  [ch_backslash; 117%N;
   hex_digit (c / 4096); hex_digit ((c / 256) mod 16);
   hex_digit ((c / 16) mod 16); hex_digit (c mod 16)]%N.

Definition hex4 (h1 h2 h3 h4 : code_unit) : option code_unit :=
  match hex_val h1, hex_val h2, hex_val h3, hex_val h4 with
  | Some a, Some b, Some c, Some d => Some (((a * 16 + b) * 16 + c) * 16 + d)%N
  | _, _, _, _ => None
  end.

(** One code unit that is not the head of a surrogate pair. *)
Definition quote_unit (c : code_unit) : jsstring :=
  if (c =? 8)%N then [ch_backslash; 98%N] else
  if (c =? 9)%N then [ch_backslash; 116%N] else
  if (c =? 10)%N then [ch_backslash; 110%N] else
  if (c =? 12)%N then [ch_backslash; 102%N] else
  if (c =? 13)%N then [ch_backslash; 114%N] else
  if (c =? ch_quote)%N then [ch_backslash; ch_quote] else
  if (c =? ch_backslash)%N then [ch_backslash; ch_backslash] else
  if (c <? 32)%N then unicode_escape c else
  if is_low_surrogate c then unicode_escape c else
  [c].

(** The string is read by code points: a well-formed surrogate pair is copied,
    a lone surrogate is escaped. *)
Fixpoint quote_chars (s : jsstring) : jsstring :=
  match s with
  | [] => []
  | c :: r =>
      if is_high_surrogate c then
        match r with
        | d :: r' =>
            if is_low_surrogate d then c :: d :: quote_chars r'
            else unicode_escape c ++ quote_chars r
        | [] => unicode_escape c
        end
      else quote_unit c ++ quote_chars r
  end.

Definition JSON_quote (s : jsstring) : jsstring :=
  ch_quote :: quote_chars s ++ [ch_quote].

(** *** [JSON.stringify] *)

Fixpoint JSON_stringify (v : json) : jsstring :=
  match v with
  | JNull => lit "null"
  | JBool true => lit "true"
  | JBool false => lit "false"
  | JNum n => print_number n
  | JStr s => JSON_quote s
  | JArr [] => [ch_lbracket; ch_rbracket]
  | JArr (x :: rest) =>
      ch_lbracket :: JSON_stringify x ++
      (fix more (l : list json) : jsstring :=
         match l with
         | [] => [ch_rbracket]
         | y :: l' => ch_comma :: JSON_stringify y ++ more l'
         end) rest
  | JObj [] => [ch_lbrace; ch_rbrace]
  | JObj ((k, x) :: rest) =>
      ch_lbrace :: JSON_quote k ++ ch_colon :: JSON_stringify x ++
      (fix more (l : list (jsstring * json)) : jsstring :=
         match l with
         | [] => [ch_rbrace]
         | (k', y) :: l' =>
             ch_comma :: JSON_quote k' ++ ch_colon :: JSON_stringify y ++ more l'
         end) rest
  end.

(** The two inner loops of [JSON_stringify], named. *)
Fixpoint stringify_more_items (l : list json) : jsstring :=
  match l with
  | [] => [ch_rbracket]
  | y :: l' => ch_comma :: JSON_stringify y ++ stringify_more_items l'
  end.

Fixpoint stringify_more_props (l : list (jsstring * json)) : jsstring :=
  match l with
  | [] => [ch_rbrace]
  | (k, y) :: l' =>
      ch_comma :: JSON_quote k ++ ch_colon :: JSON_stringify y ++
      stringify_more_props l'
  end.

(** *** Property order of an object

    An object enumerates its array-index keys first, in ascending numeric
    order, then its other keys in the order they were created.  Defining a
    key that exists replaces its value in place. *)

Definition array_index (k : jsstring) : option N :=
  let '(d, rest) := scan_uint k in
  match rest with
  | [] =>
      let n := N.of_uint d in
      if jsstring_eqb (print_N n) k && (n <? 4294967295)%N then Some n else None
  | _ :: _ => None
  end.

Fixpoint has_key (k : jsstring) (props : list (jsstring * json)) : bool :=
  match props with
  | [] => false
  | (k', _) :: rest => jsstring_eqb k k' || has_key k rest
  end.

Fixpoint replace_prop (k : jsstring) (v : json) (props : list (jsstring * json))
  : list (jsstring * json) :=
  match props with
  | [] => []
  | (k', v') :: rest =>
      if jsstring_eqb k k' then (k', v) :: rest
      else (k', v') :: replace_prop k v rest
  end.

(** Insert the new array-index key [k] (of index [i]) in its place. *)
Fixpoint insert_index (i : N) (k : jsstring) (v : json)
  (props : list (jsstring * json)) : list (jsstring * json) :=
  match props with
  | [] => [(k, v)]
  | (k', v') :: rest =>
      match array_index k' with
      | Some j =>
          if (j <? i)%N then (k', v') :: insert_index i k v rest
          else (k, v) :: props
      | None => (k, v) :: props
      end
  end.

Definition define_prop (k : jsstring) (v : json) (props : list (jsstring * json))
  : list (jsstring * json) :=
  if has_key k props then replace_prop k v props
  else
    match array_index k with
    | Some i => insert_index i k v props
    | None => props ++ [(k, v)]
    end.

Definition object_of_members (members : list (jsstring * json))
  : list (jsstring * json) :=
  fold_left (fun props m => define_prop (fst m) (snd m) props) members [].

(** *** [JSON.parse] *)

Inductive parsed (A : Type) : Type :=
| Parsed (a : A) (rest : jsstring)
| Invalid
| OutOfFuel.

Arguments Parsed {A} a rest.
Arguments Invalid {A}.
Arguments OutOfFuel {A}.

Definition is_ws (c : code_unit) : bool :=
  (c =? ch_space)%N || (c =? ch_tab)%N || (c =? ch_lf)%N || (c =? ch_cr)%N.

Fixpoint skip_ws (s : jsstring) : jsstring :=
  match s with
  | c :: r => if is_ws c then skip_ws r else s
  | [] => []
  end.

(** The characters of a string literal after its opening quote, up to and
    including the closing quote. *)
Fixpoint parse_chars (s : jsstring) : option (jsstring * jsstring) :=
  match s with
  | [] => None
  | c :: r =>
      if (c =? ch_quote)%N then Some ([], r)
      else if (c =? ch_backslash)%N then
        match r with
        | [] => None
        | e :: r1 =>
            if (e =? 117)%N then
              match r1 with
              | h1 :: h2 :: h3 :: h4 :: r2 =>
                  match hex4 h1 h2 h3 h4, parse_chars r2 with
                  | Some u, Some (t, rest) => Some (u :: t, rest)
                  | _, _ => None
                  end
              | _ => None
              end
            else
              let simple (u : code_unit) :=
                match parse_chars r1 with
                | Some (t, rest) => Some (u :: t, rest)
                | None => None
                end in
              if (e =? ch_quote)%N then simple ch_quote else
              if (e =? ch_backslash)%N then simple ch_backslash else
              if (e =? ch_slash)%N then simple ch_slash else
              if (e =? 98)%N then simple 8%N else
              if (e =? 102)%N then simple 12%N else
              if (e =? 110)%N then simple 10%N else
              if (e =? 114)%N then simple 13%N else
              if (e =? 116)%N then simple 9%N else None
        end
      else if (c <? 32)%N then None
      else
        match parse_chars r with
        | Some (t, rest) => Some (c :: t, rest)
        | None => None
        end
  end.

Definition expect_literal (word : jsstring) (v : json) (s : jsstring)
  : parsed json :=
  if starts_with word s then Parsed v (skipn (length word) s) else Invalid.

Fixpoint parse_value (fuel : nat) (s : jsstring) : parsed json :=
  match fuel with
  | O => OutOfFuel
  | S fuel' =>
      match skip_ws s with
      | [] => Invalid
      | c :: r =>
          if (c =? 110)%N then expect_literal (lit "null") JNull (c :: r) else
          if (c =? 116)%N then expect_literal (lit "true") (JBool true) (c :: r) else
          if (c =? 102)%N then expect_literal (lit "false") (JBool false) (c :: r) else
          if (c =? ch_quote)%N then
            match parse_chars r with
            | Some (t, rest) => Parsed (JStr t) rest
            | None => Invalid
            end
          else if (c =? ch_lbracket)%N then
            match skip_ws r with
            | [] => Invalid
            | c1 :: r1 =>
                if (c1 =? ch_rbracket)%N then Parsed (JArr []) r1
                else
                  match parse_value fuel' (c1 :: r1) with
                  | Parsed x rest =>
                      match parse_more_items fuel' rest with
                      | Parsed xs rest' => Parsed (JArr (x :: xs)) rest'
                      | Invalid => Invalid
                      | OutOfFuel => OutOfFuel
                      end
                  | Invalid => Invalid
                  | OutOfFuel => OutOfFuel
                  end
            end
          else if (c =? ch_lbrace)%N then
            match skip_ws r with
            | [] => Invalid
            | c1 :: r1 =>
                if (c1 =? ch_rbrace)%N then Parsed (JObj []) r1
                else
                  match parse_member fuel' (c1 :: r1) with
                  | Parsed m rest =>
                      match parse_more_members fuel' rest with
                      | Parsed ms rest' =>
                          Parsed (JObj (object_of_members (m :: ms))) rest'
                      | Invalid => Invalid
                      | OutOfFuel => OutOfFuel
                      end
                  | Invalid => Invalid
                  | OutOfFuel => OutOfFuel
                  end
            end
          else if (c =? ch_minus)%N || is_digit c then
            match parse_number (c :: r) with
            | Some (n, rest) => Parsed (JNum n) rest
            | None => Invalid
            end
          else Invalid
      end
  end

with parse_more_items (fuel : nat) (s : jsstring) : parsed (list json) :=
  match fuel with
  | O => OutOfFuel
  | S fuel' =>
      match skip_ws s with
      | [] => Invalid
      | c :: r =>
          if (c =? ch_rbracket)%N then Parsed [] r
          else if (c =? ch_comma)%N then
            match parse_value fuel' r with
            | Parsed x rest =>
                match parse_more_items fuel' rest with
                | Parsed xs rest' => Parsed (x :: xs) rest'
                | Invalid => Invalid
                | OutOfFuel => OutOfFuel
                end
            | Invalid => Invalid
            | OutOfFuel => OutOfFuel
            end
          else Invalid
      end
  end

with parse_member (fuel : nat) (s : jsstring) : parsed (jsstring * json) :=
  match fuel with
  | O => OutOfFuel
  | S fuel' =>
      match skip_ws s with
      | [] => Invalid
      | c :: r =>
          if (c =? ch_quote)%N then
            match parse_chars r with
            | Some (k, rest) =>
                match skip_ws rest with
                | c1 :: r1 =>
                    if (c1 =? ch_colon)%N then
                      match parse_value fuel' r1 with
                      | Parsed x rest' => Parsed (k, x) rest'
                      | Invalid => Invalid
                      | OutOfFuel => OutOfFuel
                      end
                    else Invalid
                | [] => Invalid
                end
            | None => Invalid
            end
          else Invalid
      end
  end

with parse_more_members (fuel : nat) (s : jsstring)
  : parsed (list (jsstring * json)) :=
  match fuel with
  | O => OutOfFuel
  | S fuel' =>
      match skip_ws s with
      | [] => Invalid
      | c :: r =>
          if (c =? ch_rbrace)%N then Parsed [] r
          else if (c =? ch_comma)%N then
            match parse_member fuel' r with
            | Parsed m rest =>
                match parse_more_members fuel' rest with
                | Parsed ms rest' => Parsed (m :: ms) rest'
                | Invalid => Invalid
                | OutOfFuel => OutOfFuel
                end
            | Invalid => Invalid
            | OutOfFuel => OutOfFuel
            end
          else Invalid
      end
  end.

(** [JSON.parse text]: one value, white space around it, nothing else.  Every
    recursive call of the parser follows a consumed code unit, so a fuel above
    the length of the text is never used up (see [parse_value_fuel]). *)
Definition parse_fuel (s : jsstring) : nat := S (length s).

Definition JSON_parse (s : jsstring) : completion json :=
  match parse_value (parse_fuel s) s with
  | Parsed v rest =>
      match skip_ws rest with
      | [] => Normal v
      | _ :: _ => Throw SyntaxError
      end
  | Invalid => Throw SyntaxError
  | OutOfFuel => Throw SyntaxError
  end.

(** ** Base64: [btoa] and [atob] *)

Definition b64_char (n : N) : code_unit :=
  if (n <? 26)%N then (65 + n)%N else
  if (n <? 52)%N then (71 + n)%N else
  if (n <? 62)%N then (n - 4)%N else
  if (n =? 62)%N then ch_plus else ch_slash.

Definition b64_val (c : code_unit) : option N :=
  if ((65 <=? c) && (c <=? 90))%N then Some (c - 65)%N else
  if ((97 <=? c) && (c <=? 122))%N then Some (c - 71)%N else
  if ((48 <=? c) && (c <=? 57))%N then Some (c + 4)%N else
  if (c =? ch_plus)%N then Some 62%N else
  if (c =? ch_slash)%N then Some 63%N else None.

Fixpoint b64_encode (bytes : list N) : jsstring :=
  match bytes with
  | [] => []
  | [a] =>
      [b64_char (a / 4); b64_char ((a mod 4) * 16); ch_equals; ch_equals]%N
  | [a; b] =>
      [b64_char (a / 4); b64_char ((a mod 4) * 16 + b / 16);
       b64_char ((b mod 16) * 4); ch_equals]%N
  | a :: b :: c :: rest =>
      [b64_char (a / 4); b64_char ((a mod 4) * 16 + b / 16);
       b64_char ((b mod 16) * 4 + c / 64); b64_char (c mod 64)]%N
      ++ b64_encode rest
  end.

(** [btoa] refuses a string with a code unit above U+00FF. *)
Definition is_latin1 (s : jsstring) : bool := forallb (fun c => (c <=? 255)%N) s.

Definition btoa (s : jsstring) : completion jsstring :=
  if is_latin1 s then Normal (b64_encode s) else Throw InvalidCharacterError.

Definition is_ascii_ws (c : code_unit) : bool :=
  (c =? ch_tab)%N || (c =? ch_lf)%N || (c =? ch_ff)%N || (c =? ch_cr)%N ||
  (c =? ch_space)%N.

(** Remove one or two trailing [=]. *)
Definition remove_padding (data : jsstring) : jsstring :=
  match rev data with
  | c1 :: c2 :: r =>
      if (c1 =? ch_equals)%N then
        if (c2 =? ch_equals)%N then rev r else rev (c2 :: r)
      else data
  | [c1] => if (c1 =? ch_equals)%N then [] else data
  | [] => data
  end.

Fixpoint sextets (data : jsstring) : option (list N) :=
  match data with
  | [] => Some []
  | c :: r =>
      match b64_val c, sextets r with
      | Some v, Some vs => Some (v :: vs)
      | _, _ => None
      end
  end.

Fixpoint b64_decode (vals : list N) : list N :=
  match vals with
  | a :: b :: c :: d :: rest =>
      [a * 4 + b / 16; (b mod 16) * 16 + c / 4; (c mod 4) * 64 + d]%N
      ++ b64_decode rest
  | [a; b; c] => [a * 4 + b / 16; (b mod 16) * 16 + c / 4]%N
  | [a; b] => [a * 4 + b / 16]%N
  | _ => []
  end.

(** [atob]: the forgiving-base64 decode. *)
Definition atob (data : jsstring) : completion jsstring :=
  let data1 := filter (fun c => negb (is_ascii_ws c)) data in
  let data2 :=
    if (length data1 mod 4 =? 0)%nat then remove_padding data1 else data1 in
  if (length data2 mod 4 =? 1)%nat then Throw InvalidCharacterError
  else
    match sextets data2 with
    | Some vals => Normal (b64_decode vals)
    | None => Throw InvalidCharacterError
    end.

(** ** SessionCodec *)

(** [encodeSdp(sdp)]: [btoa(JSON.stringify(sdp))]. *)
Definition encodeSdp (sdp : json) : completion jsstring :=
  btoa (JSON_stringify sdp).

(** The local [padded] of [decodeSdp]: [-] and [_] translated back, then
    [=] appended up to a multiple of four. *)
Definition decodeSdp_padded (encoded : jsstring) : jsstring :=
  let base64 := replace_all ch_underscore ch_slash
                  (replace_all ch_minus ch_plus encoded) in
  base64 ++ repeat_unit ch_equals ((4 - length base64 mod 4) mod 4).

(** The body of the [try] block of [decodeSdp].  [encoded.replace] exists on
    strings only; on any other datum the call raises a TypeError. *)
Definition decodeSdp_try (encoded : json) : completion json :=
  match encoded with
  | JStr s => cbind (atob (decodeSdp_padded s)) JSON_parse
  | _ => Throw TypeError
  end.

(** [decodeSdp(encoded)]: the [catch] clause returns [null]. *)
Definition decodeSdp (encoded : json) : completion json :=
  catch_with (decodeSdp_try encoded) (fun _ => Normal JNull).

(** The URL-safe spelling of a base64 string: [+] and [/] replaced, the
    trailing padding removed. *)
Fixpoint drop_equals (s : jsstring) : jsstring :=
  match s with
  | c :: r => if (c =? ch_equals)%N then drop_equals r else s
  | [] => []
  end.

Definition strip_padding (s : jsstring) : jsstring := rev (drop_equals (rev s)).

Definition to_base64url (s : jsstring) : jsstring :=
  strip_padding (replace_all ch_slash ch_underscore
                   (replace_all ch_plus ch_minus s)).



(** ** Data that JavaScript can hold

    A [json] tree stands for a JavaScript value when its strings are made of
    16-bit code units, its numbers are integers a Number holds exactly, and the
    properties of each object are distinct and in enumeration order. *)

Definition safe_integer (n : Z) : bool :=
  ((-9007199254740991 <=? n) && (n <=? 9007199254740991))%Z.

Definition string_ok (s : jsstring) : bool :=
  forallb (fun c => (c <? 65536)%N) s.

Definition no_index (k : jsstring) : bool :=
  match array_index k with
  | Some _ => false
  | None => true
  end.

(** Array-index keys come first, ascending from [bound]; no other key is
    followed by an array-index key. *)
Fixpoint keys_ordered (bound : N) (ks : list jsstring) : bool :=
  match ks with
  | [] => true
  | k :: rest =>
      match array_index k with
      | Some i => (bound <=? i)%N && keys_ordered (i + 1) rest
      | None => forallb no_index rest
      end
  end.

Fixpoint keys_distinct (ks : list jsstring) : bool :=
  match ks with
  | [] => true
  | k :: rest =>
      negb (existsb (jsstring_eqb k) rest) && keys_distinct rest
  end.

Fixpoint json_wf (v : json) : bool :=
  match v with
  | JNull => true
  | JBool _ => true
  | JNum n => safe_integer n
  | JStr s => string_ok s
  | JArr items =>
      (fix all (l : list json) : bool :=
         match l with
         | [] => true
         | x :: l' => json_wf x && all l'
         end) items
  | JObj props =>
      keys_ordered 0 (map fst props) && keys_distinct (map fst props) &&
      (fix all (l : list (jsstring * json)) : bool :=
         match l with
         | [] => true
         | (k, x) :: l' => string_ok k && json_wf x && all l'
         end) props
  end.

(** The end of a number token: no digit, fraction or exponent follows. *)
Definition ends_number (rest : jsstring) : bool :=
  match rest with
  | [] => true
  | c :: _ => negb (is_digit c) && negb (continues_number rest)
  end.

(** ** SessionIdGenerator *)

(** [Math.random()] yields a Number in the interval from 0 (included) to 1
    (excluded).  Rendered in radix 36, zero is [0] and any other such Number
    is [0.] followed by its fraction digits, at least one of them.  How many
    digits a Number needs is its own affair (one half is [0.i]; ECMAScript
    leaves the digit generation of a radix other than 10 to the
    implementation); the random source is modelled by the fraction digits it
    renders to, each below 36. *)
Definition random_source := list N.

Definition radix36_digit (d : N) : code_unit :=
  if (d <? 10)%N then (48 + d)%N else (87 + d)%N.

(** [x.toString(36)] for the Number whose fraction digits are [digits]. *)
Definition toString36 (digits : random_source) : jsstring :=
  match digits with
  | [] => [ch_zero]
  | _ :: _ => ch_zero :: ch_dot :: map radix36_digit digits
  end.

(** [generateSessionId()]:
    [Math.random().toString(36).substring(2, 8).toUpperCase()]. *)
Definition generateSessionId (random : random_source) : jsstring :=
  toUpperCase (substring 2 8 (toString36 random)).

(** An upper-case radix-36 character: a digit or a letter from [A] to [Z]. *)
Definition is_upper36 (c : code_unit) : bool :=
  ((48 <=? c) && (c <=? 57))%N || ((65 <=? c) && (c <=? 90))%N.

(** ** JavaScript values over JSON data

    What a property access on parsed JSON can yield: nothing, a datum, or a
    built-in function reached through a prototype (of which only [length]
    is ever read). *)

Inductive jsval : Type :=
| VUndefined
| VData (j : json)
| VFunction (arity : Z).

(** [ToBoolean]. *)
Definition truthy (v : jsval) : bool :=
  match v with
  | VUndefined => false
  | VFunction _ => true
  | VData JNull => false
  | VData (JBool b) => b
  | VData (JNum n) => negb (n =? 0)%Z
  | VData (JStr s) => match s with [] => false | _ :: _ => true end
  | VData (JArr _) => true
  | VData (JObj _) => true
  end.

(** [a || b] and [a && b] on values already computed. *)
Definition js_or (a b : jsval) : jsval := if truthy a then a else b.
Definition js_and (a b : jsval) : jsval := if truthy a then b else a.

Fixpoint lookup_prop (k : jsstring) (props : list (jsstring * json)) : jsval :=
  match props with
  | [] => VUndefined
  | (k', v) :: rest => if jsstring_eqb k k' then VData v else lookup_prop k rest
  end.

(** The element of an array whose index renders to the key [k]; [i] is the
    index of the head of [items]. *)
Fixpoint array_get (items : list json) (i : N) (k : jsstring) : jsval :=
  match items with
  | [] => VUndefined
  | x :: rest =>
      if jsstring_eqb k (print_N i) then VData x
      else array_get rest (N.succ i) k
  end.

Fixpoint string_get (s : jsstring) (i : N) (k : jsstring) : jsval :=
  match s with
  | [] => VUndefined
  | c :: rest =>
      if jsstring_eqb k (print_N i) then VData (JStr [c])
      else string_get rest (N.succ i) k
  end.

Definition key_length : jsstring := lit "length".
Definition key_with : jsstring := lit "with".

(** [v.k] and [v[k]].  Reading a property of [undefined] or [null] raises a
    TypeError.  Own properties, [length], indices and [Array.prototype.with]
    are modelled: the access is exact for the keys the source reads ([with],
    [0], [length], [content], [sdp], [offer], [candidate], [timestamp],
    [created], [sdpMLineIndex], [sdpMid]). *)
Definition get (v : jsval) (k : jsstring) : completion jsval :=
  match v with
  | VUndefined => Throw TypeError
  | VData JNull => Throw TypeError
  | VData (JObj props) => Normal (lookup_prop k props)
  | VData (JArr items) =>
      Normal (if jsstring_eqb k key_length
              then VData (JNum (Z.of_nat (length items)))
              else if jsstring_eqb k key_with then VFunction 2
              else array_get items 0 k)
  | VData (JStr s) =>
      Normal (if jsstring_eqb k key_length
              then VData (JNum (Z.of_nat (length s)))
              else string_get s 0 k)
  | VData (JNum _) => Normal VUndefined
  | VData (JBool _) => Normal VUndefined
  | VFunction arity =>
      Normal (if jsstring_eqb k key_length then VData (JNum arity)
              else VUndefined)
  end.

(** [ToString] of a datum, as [Array.prototype.join] uses it on the elements
    of an array: [null] joins as the empty string. *)
Fixpoint to_string (v : json) : jsstring :=
  match v with
  | JNull => lit "null"
  | JBool true => lit "true"
  | JBool false => lit "false"
  | JNum n => print_number n
  | JStr s => s
  | JArr items =>
      (fix join (l : list json) : jsstring :=
         match l with
         | [] => []
         | [x] => match x with JNull => [] | _ => to_string x end
         | x :: l' =>
             match x with JNull => [] | _ => to_string x end ++
             ch_comma :: join l'
         end) items
  | JObj _ => lit "[object Object]"
  end.

(** The data a [JSON.stringify] call sees of an object literal: a property
    whose value is [undefined] or a function is left out. *)
Fixpoint literal (fields : list (jsstring * jsval)) : list (jsstring * json) :=
  match fields with
  | [] => []
  | (k, VData v) :: rest => (k, v) :: literal rest
  | (_, _) :: rest => literal rest
  end.

(** ** The relay and the world around the RelayClient

    [fetch] either rejects (a failure on the network level) or resolves with
    a response, whose status is [ok] or not and whose body [response.json()]
    reads or fails to read.  The relay host answers the requests it is sent
    in the order it gets them; the CORS proxy is only ever asked as the
    fallback of a request the relay host did not answer, and its answers are
    indexed by that request. *)

Inductive http_method : Type := GET | POST.

Record request : Type := {
  req_method : http_method;
  req_url : jsstring;
  req_body : option jsstring
}.

Record response : Type := {
  ok : bool;
  json_body : completion json
}.

Inductive fetch_outcome : Type :=
| Unreachable
| Responded (r : response).

Inductive event : Type :=
| Fetched (req : request)
| Slept (ms : nat).

Record world : Type := {
  direct : nat -> request -> fetch_outcome;
  proxied : nat -> request -> fetch_outcome;
  served : nat;             (* requests the relay host was sent so far *)
  clock : Z;                (* [Date.now()] *)
  trace : list event        (* what happened, oldest first *)
}.

(** *** Asynchronous code: state and completion *)

Definition M (A : Type) : Type := world -> completion A * world.

Definition ret {A} (a : A) : M A := fun w => (Normal a, w).

Definition throw {A} (e : error) : M A := fun w => (Throw e, w).

Definition bind {A B} (m : M A) (k : A -> M B) : M B :=
  fun w =>
    match m w with
    | (Normal a, w') => k a w'
    | (Throw e, w') => (Throw e, w')
    end.

Definition lift {A} (c : completion A) : M A := fun w => (c, w).

(** [try { m } catch (e) { h e }]. *)
Definition try_catch {A} (m : M A) (h : error -> M A) : M A :=
  fun w =>
    match m w with
    | (Normal a, w') => (Normal a, w')
    | (Throw e, w') => h e w'
    end.

Declare Scope relay_scope.
Delimit Scope relay_scope with relay.
Notation "x <- m ;; k" := (bind m (fun x => k))
  (at level 61, m at next level, right associativity) : relay_scope.
Notation "m ;;; k" := (bind m (fun _ => k))
  (at level 61, right associativity) : relay_scope.
Open Scope relay_scope.

Definition record (e : event) (w : world) : world :=
  {| direct := direct w; proxied := proxied w; served := served w;
     clock := clock w; trace := trace w ++ [e] |}.

Definition proxy_prefix : jsstring := lit "https://corsproxy.org/?".

Definition count_served (w : world) : world :=
  {| direct := direct w; proxied := proxied w; served := S (served w);
     clock := clock w; trace := trace w |}.

(** A rejected [fetch] throws at the [await]. *)
Definition settle (o : fetch_outcome) : completion response :=
  match o with
  | Unreachable => Throw NetworkError
  | Responded r => Normal r
  end.

(** [await fetch(url, opts)]. *)
Definition fetch (req : request) : M response :=
  fun w =>
    if starts_with proxy_prefix (req_url req)
    then (settle (proxied w (Nat.pred (served w)) req),
          record (Fetched req) w)
    else (settle (direct w (served w) req),
          count_served (record (Fetched req) w)).

(** [Date.now()]. *)
Definition Date_now : M Z := fun w => (Normal (clock w), w).

(** [await new Promise(r => setTimeout(r, ms))]. *)
Definition sleep (ms : nat) : M unit :=
  fun w =>
    (Normal tt,
     {| direct := direct w; proxied := proxied w; served := served w;
        clock := (clock w + Z.of_nat ms)%Z; trace := trace w ++ [Slept ms] |}).

Definition get_request (url : jsstring) : request :=
  {| req_method := GET; req_url := url; req_body := None |}.

(** [{ method: 'POST', headers: ..., body: body }]. *)
Definition post_request (url body : jsstring) : request :=
  {| req_method := POST; req_url := url; req_body := Some body |}.

(** What one turn of a loop body comes to: a [return], or the next turn. *)
Inductive turn (A : Type) : Type :=
| Return (a : A)
| Next.

Arguments Return {A} a.
Arguments Next {A}.

(** ** RelayClient *)

Section RelayClient.

(** [encodeURIComponent], total on the well-formed strings that session ids
    and URLs are. *)
Variable encodeURIComponent : jsstring -> jsstring.

(** [ToNumber(s) > 0] for a string [s]. *)
Variable string_gt_zero : jsstring -> bool.

(** [dweetProxyUrl(url)]. *)
Definition dweetProxyUrl (url : jsstring) : jsstring :=
  proxy_prefix ++ encodeURIComponent url.

(** The inner [try]/[catch] of the four relay functions: the request goes to
    the relay, and through the proxy when that [fetch] rejects. *)
Definition direct_then_proxy (mk : jsstring -> request) (url : jsstring)
  : M response :=
  try_catch (fetch (mk url)) (fun _ => fetch (mk (dweetProxyUrl url))).

Definition sdp_topic_url (sessionId type : jsstring) : jsstring :=
  lit "https://dweet.cc/dweet/for/" ++
  (lit "colormatch-" ++ sessionId ++ lit "-" ++ type).

(** The body [storeSdpOnDweet] posts. *)
Definition sdp_body (type enc : jsstring) (timestamp : Z) : jsstring :=
  JSON_stringify
    (JObj [(lit "type", JStr type); (lit "sdp", JStr enc);
           (lit "timestamp", JNum timestamp)]).

(** [storeSdpOnDweet(sessionId, sdp, type)].  The body is built before the
    [try] block is entered. *)
Definition storeSdpOnDweet (sessionId : jsstring) (sdp : json)
  (type : jsstring) : M bool :=
  let dweetUrl := sdp_topic_url sessionId type in
  enc <- lift (encodeSdp sdp) ;;
  timestamp <- Date_now ;;
  let body := sdp_body type enc timestamp in
  try_catch
    (response <- direct_then_proxy (fun u => post_request u body) dweetUrl ;;
     if negb (ok response) then throw StoreError else ret true)
    (fun _ => ret false).

Definition ice_topic_url (sessionId : jsstring) (offerer : bool) : jsstring :=
  lit "https://dweet.cc/dweet/for/" ++
  (lit "colormatch-" ++ sessionId ++ lit "-ice-" ++
   (if offerer then lit "offerer" else lit "answerer")).

(** The object literal [candidateObj]. *)
Definition candidateObj (candidate : json) : completion json :=
  cbind (get (VData candidate) (lit "candidate")) (fun c =>
  cbind (get (VData candidate) (lit "sdpMLineIndex")) (fun i =>
  cbind (get (VData candidate) (lit "sdpMid")) (fun m =>
  Normal
    (JObj (literal
       [(lit "candidate", js_or c (VData candidate));
        (lit "sdpMLineIndex",
         match i with VUndefined => VData JNull | _ => i end);
        (lit "sdpMid", js_or m (VData JNull))]))))).

Definition ice_body (candidate_obj : json) (timestamp : Z) : jsstring :=
  JSON_stringify
    (JObj [(lit "candidate", candidate_obj); (lit "timestamp", JNum timestamp)]).

(** [storeIceCandidateOnDweet(sessionId, candidate, isOfferer)]. *)
Definition storeIceCandidateOnDweet (sessionId : jsstring) (candidate : json)
  (isOfferer : bool) : M bool :=
  let dweetUrl := ice_topic_url sessionId isOfferer in
  try_catch
    (obj <- lift (candidateObj candidate) ;;
     timestamp <- Date_now ;;
     let body := ice_body obj timestamp in
     response <- direct_then_proxy (fun u => post_request u body) dweetUrl ;;
     ret (ok response))
    (fun _ => ret false).

(** The three lines of [retrieveSdpFromDweet] that find the encoded
    description in the answer of the relay, whichever shape it has. *)
Definition sdp_of_answer (data : json) : completion jsval :=
  cbind (get (VData data) key_with) (fun w =>
  cbind (if truthy w then
           cbind (get w (lit "0")) (fun w0 =>
           Normal (if truthy w0 then w0 else VData data))
         else Normal (VData data)) (fun dweet =>
  cbind (if truthy dweet then
           cbind (get dweet (lit "content")) (fun c =>
           Normal (if truthy c then c else dweet))
         else Normal dweet) (fun content =>
  if truthy content then
    cbind (get content (lit "sdp")) (fun s =>
    if truthy s then Normal s else get content (lit "offer"))
  else Normal content))).

(** [decodeSdp] on whatever was found: a function has no [replace] either. *)
Definition decodeSdp_value (v : jsval) : completion json :=
  match v with
  | VData j => decodeSdp j
  | _ => Normal JNull
  end.

(** One turn of the loop of [retrieveSdpFromDweet]. *)
Definition retrieve_attempt (url : jsstring) (attempt maxRetries : nat)
  : M (turn json) :=
  try_catch
    (response <- direct_then_proxy get_request url ;;
     if negb (ok response) then
       if attempt <? maxRetries then sleep 1500 ;;; ret Next
       else ret (Return JNull)
     else
       data <- lift (json_body response) ;;
       sdpEncoded <- lift (sdp_of_answer data) ;;
       if truthy sdpEncoded then
         v <- lift (decodeSdp_value sdpEncoded) ;; ret (Return v)
       else ret Next)
    (fun _ =>
       if attempt <? maxRetries then sleep 1500 ;;; ret Next
       else ret (Return JNull)).

(** [for (let attempt = 1; attempt <= maxRetries; attempt++)], over the
    attempts still to make. *)
Fixpoint retrieve_loop (url : jsstring) (maxRetries : nat)
  (attempts : list nat) : M json :=
  match attempts with
  | [] => ret JNull
  | attempt :: rest =>
      t <- retrieve_attempt url attempt maxRetries ;;
      match t with
      | Return v => ret v
      | Next => retrieve_loop url maxRetries rest
      end
  end.

Definition sdp_fetch_url (sessionId type : jsstring) : jsstring :=
  lit "https://dweet.cc/get/latest/dweet/for/" ++
  (lit "colormatch-" ++ encodeURIComponent sessionId ++ lit "-" ++ type).

(** [retrieveSdpFromDweet(sessionId, type, maxRetries = 5)]. *)
Definition retrieveSdpFromDweet (sessionId type : jsstring) (maxRetries : nat)
  : M json :=
  retrieve_loop (sdp_fetch_url sessionId type) maxRetries (seq 1 maxRetries).

(** [v > 0]. *)
Definition gt_zero (v : jsval) : completion bool :=
  match v with
  | VUndefined => Normal false
  | VFunction _ => Normal false
  | VData JNull => Normal false
  | VData (JBool b) => Normal b
  | VData (JNum n) => Normal (0 <? n)%Z
  | VData (JStr s) => Normal (string_gt_zero s)
  | VData (JArr items) => Normal (string_gt_zero (to_string (JArr items)))
  | VData (JObj props) =>
      if has_key (lit "toString") props then Throw TypeError
      else Normal false
  end.

(** What [retrieveIceCandidatesFromDweet] returns when it finds a candidate. *)
Record ice_answer : Type := {
  ice_candidate : jsval;
  ice_timestamp : jsval
}.

(** The lines of [retrieveIceCandidatesFromDweet] after [response.json()]. *)
Definition ice_of_answer (data : json) : completion (option ice_answer) :=
  cbind (get (VData data) key_with) (fun w =>
  cbind (if truthy w then cbind (get w key_length) gt_zero
         else Normal false) (fun nonempty =>
  if nonempty then
    cbind (get w (lit "0")) (fun dweet =>
    cbind (get dweet (lit "content")) (fun content =>
    cbind (if truthy content then get content (lit "candidate")
           else Normal content) (fun found =>
    if truthy found then
      cbind (get content (lit "candidate")) (fun candidate =>
      cbind (get content (lit "timestamp")) (fun t =>
      cbind (if truthy t then Normal t else get dweet (lit "created"))
        (fun timestamp =>
      Normal (Some {| ice_candidate := candidate;
                      ice_timestamp := timestamp |}))))
    else Normal None)))
  else Normal None)).

Definition ice_fetch_url (sessionId : jsstring) (offerer : bool) : jsstring :=
  lit "https://dweet.cc/get/latest/dweet/for/" ++
  (lit "colormatch-" ++ sessionId ++ lit "-ice-" ++
   (if offerer then lit "answerer" else lit "offerer")).

(** [retrieveIceCandidatesFromDweet(sessionId, isOfferer)]; [None] is
    [null]. *)
Definition retrieveIceCandidatesFromDweet (sessionId : jsstring)
  (isOfferer : bool) : M (option ice_answer) :=
  try_catch
    (response <- direct_then_proxy get_request
                   (ice_fetch_url sessionId isOfferer) ;;
     if negb (ok response) then ret None
     else
       data <- lift (json_body response) ;;
       lift (ice_of_answer data))
    (fun _ => ret None).

End RelayClient.

(** ** ConnectionCoordinator: the class [WebRTCConnection]

    The WebRTC engine is a collaborator.  It is modelled by a script of what
    it will do ([engine]) and by the state the coordinator can observe on it
    ([RTCPeerConnection], [RTCDataChannel]), which also keeps a record of
    what the coordinator asked of it.  Time is logical, in milliseconds: a
    task of the event loop runs at the time it is due.  The callback slots of
    the class are left out: they hold what the page registered and no
    function below reads them back. *)

Inductive gathering_state : Type :=
| GatheringNew
| Gathering
| GatheringComplete.

Definition is_complete (s : gathering_state) : bool :=
  match s with
  | GatheringComplete => true
  | _ => false
  end.

Inductive channel_state : Type :=
| ChannelConnecting
| ChannelOpen
| ChannelClosing
| ChannelClosed.

Definition is_open (s : channel_state) : bool :=
  match s with
  | ChannelOpen => true
  | _ => false
  end.

Record engine : Type := {
  createOffer_result : completion json;
  createAnswer_result : completion json;
  engine_latency : nat;                 (* how long an engine call takes *)
  accepts_local : json -> bool;
  accepts_remote : json -> bool;
  accepts_candidate : json -> bool;
  (* the changes of the gathering state once a local description is set:
     each comes so many milliseconds after the one before, the first one
     after the description is set *)
  gathering : list (nat * gathering_state);
  (* the local description as it reads at a time: the description that was
     set, with the candidates gathered until then *)
  described : json -> nat -> json
}.

Record RTCDataChannel : Type := {
  readyState : channel_state;
  sent : list jsstring                  (* what [send] was called with *)
}.

Record RTCPeerConnection : Type := {
  script : engine;
  local : option json;                  (* the description set, if any *)
  remoteDescription : option json;
  iceGatheringState : gathering_state;
  upcoming : list (nat * gathering_state);
  candidates : list json                (* what [addIceCandidate] was called with *)
}.

Record WebRTCConnection : Type := {
  pc : option RTCPeerConnection;
  dataChannel : option RTCDataChannel;
  isInitiator : bool
}.

(** [new WebRTCConnection()]. *)
Definition constructor : WebRTCConnection :=
  {| pc := None; dataChannel := None; isInitiator := false |}.

(** *** The engine side *)

Definition new_RTCPeerConnection (e : engine) : RTCPeerConnection :=
  {| script := e; local := None; remoteDescription := None;
     iceGatheringState := GatheringNew; upcoming := []; candidates := [] |}.

(** [pc.createDataChannel('colors', { ordered: true })]. *)
Definition createDataChannel : RTCDataChannel :=
  {| readyState := ChannelConnecting; sent := [] |}.

(** [pc.localDescription], read at time [t]. *)
Definition localDescription (p : RTCPeerConnection) (t : nat) : option json :=
  match local p with
  | Some d => Some (described (script p) d t)
  | None => None
  end.

(** [await pc.setLocalDescription(d)]: gathering starts. *)
Definition pc_setLocalDescription (d : json) (p : RTCPeerConnection)
  : completion RTCPeerConnection :=
  if accepts_local (script p) d then
    Normal {| script := script p; local := Some d;
              remoteDescription := remoteDescription p;
              iceGatheringState := iceGatheringState p;
              upcoming := gathering (script p);
              candidates := candidates p |}
  else Throw EngineError.

(** [await pc.setRemoteDescription(new RTCSessionDescription(d))]. *)
Definition pc_setRemoteDescription (d : json) (p : RTCPeerConnection)
  : completion RTCPeerConnection :=
  if accepts_remote (script p) d then
    Normal {| script := script p; local := local p;
              remoteDescription := Some d;
              iceGatheringState := iceGatheringState p;
              upcoming := upcoming p; candidates := candidates p |}
  else Throw EngineError.

(** [await pc.addIceCandidate(c)]: the engine is handed the candidate, and
    may refuse it. *)
Definition pc_addIceCandidate (c : json) (p : RTCPeerConnection)
  : completion unit * RTCPeerConnection :=
  (if accepts_candidate (script p) c then Normal tt else Throw EngineError,
   {| script := script p; local := local p;
      remoteDescription := remoteDescription p;
      iceGatheringState := iceGatheringState p;
      upcoming := upcoming p; candidates := candidates p ++ [c] |}).

(** [channel.send(text)] on an open channel. *)
Definition channel_send (text : jsstring) (ch : RTCDataChannel)
  : RTCDataChannel :=
  {| readyState := readyState ch; sent := sent ch ++ [text] |}.

(** *** The bounded wait for ICE gathering

    The state of the event loop while the promise of [waitForIceGathering]
    is pending: the engine, the clock, the timer set by [setTimeout], and
    the time at which [resolve] was first called. *)
Record waiting : Type := {
  wait_pc : RTCPeerConnection;
  wait_now : nat;
  wait_timer : option nat;
  wait_settled : option nat
}.

(** [resolve()]: only the first call settles the promise. *)
Definition resolve (st : waiting) : waiting :=
  match wait_settled st with
  | Some _ => st
  | None =>
      {| wait_pc := wait_pc st; wait_now := wait_now st;
         wait_timer := wait_timer st; wait_settled := Some (wait_now st) |}
  end.

(** The handler set on [pc.onicegatheringstatechange]. *)
Definition on_gathering_change (st : waiting) : waiting :=
  if is_complete (iceGatheringState (wait_pc st)) then resolve st else st.

(** The engine changes its gathering state at time [t] and fires the event. *)
Definition gathering_changes (t : nat) (s : gathering_state)
  (rest : list (nat * gathering_state)) (st : waiting) : waiting :=
  let p := wait_pc st in
  on_gathering_change
    {| wait_pc := {| script := script p; local := local p;
                     remoteDescription := remoteDescription p;
                     iceGatheringState := s; upcoming := rest;
                     candidates := candidates p |};
       wait_now := t; wait_timer := wait_timer st;
       wait_settled := wait_settled st |}.

(** The timer is due at [due]: its callback calls [resolve].  The next
    change of the engine, if any, is [gap] milliseconds closer. *)
Definition timer_fires (due : nat) (st : waiting) : waiting :=
  let p := wait_pc st in
  resolve
    {| wait_pc := {| script := script p; local := local p;
                     remoteDescription := remoteDescription p;
                     iceGatheringState := iceGatheringState p;
                     upcoming :=
                       match upcoming p with
                       | (gap, s) :: rest =>
                           (wait_now st + gap - due, s) :: rest
                       | [] => []
                       end;
                     candidates := candidates p |};
       wait_now := due; wait_timer := None;
       wait_settled := wait_settled st |}.

(** One task of the event loop: whichever is due first, the next change of
    the engine or the timer. *)
Definition next_task (st : waiting) : waiting :=
  match upcoming (wait_pc st), wait_timer st with
  | (gap, s) :: rest, Some due =>
      if wait_now st + gap <? due
      then gathering_changes (wait_now st + gap) s rest st
      else timer_fires due st
  | (gap, s) :: rest, None =>
      gathering_changes (wait_now st + gap) s rest st
  | [], Some due => timer_fires due st
  | [], None => st
  end.

(** The loop runs tasks until the promise is settled. *)
Fixpoint run_until_settled (fuel : nat) (st : waiting) : waiting :=
  match wait_settled st with
  | Some _ => st
  | None =>
      match fuel with
      | O => st
      | S fuel' => run_until_settled fuel' (next_task st)
      end
  end.

(** [waitForIceGathering()], entered at time [now].  The local function
    [checkState] of the source is never called and sets no timer. *)
Definition waitForIceGathering (p : RTCPeerConnection) (now : nat) : waiting :=
  let st := {| wait_pc := p; wait_now := now; wait_timer := None;
               wait_settled := None |} in
  if is_complete (iceGatheringState p) then resolve st
  else
    run_until_settled (S (length (upcoming p)))
      {| wait_pc := p; wait_now := now; wait_timer := Some (now + 5000);
         wait_settled := None |}.

(** *** The methods of the class *)

(** What an asynchronous method comes to when it settles: its completion,
    the coordinator and the time. *)
Record settled (A : Type) : Type := {
  completion_of : completion A;
  coordinator : WebRTCConnection;
  settled_at : nat
}.

Arguments completion_of {A} s.
Arguments coordinator {A} s.
Arguments settled_at {A} s.

Definition with_pc (c : WebRTCConnection) (p : RTCPeerConnection)
  : WebRTCConnection :=
  {| pc := Some p; dataChannel := dataChannel c;
     isInitiator := isInitiator c |}.

(** The tail shared by [initAsOfferer] and [initAsAnswerer]: set the local
    description, wait for gathering, return [this.pc.localDescription].
    [None] stands for a promise that is never settled. *)
Definition commit_and_wait (c : WebRTCConnection) (p : RTCPeerConnection)
  (description : json) (now : nat) : option (settled (option json)) :=
  match pc_setLocalDescription description p with
  | Throw e =>
      Some {| completion_of := Throw e; coordinator := with_pc c p;
              settled_at := now + engine_latency (script p) |}
  | Normal p1 =>
      let st := waitForIceGathering p1 (now + engine_latency (script p)) in
      match wait_settled st with
      | Some t =>
          Some {| completion_of := Normal (localDescription (wait_pc st) t);
                  coordinator := with_pc c (wait_pc st);
                  settled_at := t |}
      | None => None
      end
  end.

(** [initAsOfferer()], called at time [now] with the engine [e]. *)
Definition initAsOfferer (e : engine) (c : WebRTCConnection) (now : nat)
  : option (settled (option json)) :=
  let p := new_RTCPeerConnection e in
  let c1 := {| pc := Some p; dataChannel := Some createDataChannel;
               isInitiator := true |} in
  match createOffer_result e with
  | Throw err =>
      Some {| completion_of := Throw err; coordinator := c1;
              settled_at := now + engine_latency e |}
  | Normal offer => commit_and_wait c1 p offer (now + engine_latency e)
  end.

(** [initAsAnswerer(offerSdp)]. *)
Definition initAsAnswerer (e : engine) (c : WebRTCConnection)
  (offerSdp : json) (now : nat) : option (settled (option json)) :=
  let p := new_RTCPeerConnection e in
  let c1 := {| pc := Some p; dataChannel := dataChannel c;
               isInitiator := false |} in
  match pc_setRemoteDescription offerSdp p with
  | Throw err =>
      Some {| completion_of := Throw err; coordinator := c1;
              settled_at := now + engine_latency e |}
  | Normal p1 =>
      match createAnswer_result e with
      | Throw err =>
          Some {| completion_of := Throw err; coordinator := with_pc c1 p1;
                  settled_at := now + 2 * engine_latency e |}
      | Normal answer =>
          commit_and_wait c1 p1 answer (now + 2 * engine_latency e)
      end
  end.

(** [addIceCandidate(candidate)]. *)
Definition addIceCandidate (c : WebRTCConnection) (candidate : json)
  : completion unit * WebRTCConnection :=
  match pc c with
  | Some p =>
      match remoteDescription p with
      | Some _ =>
          let '(r, p') := pc_addIceCandidate candidate p in (r, with_pc c p')
      | None => (Normal tt, c)
      end
  | None => (Normal tt, c)
  end.

(** [setRemoteDescription(sdp)]. *)
Definition setRemoteDescription (c : WebRTCConnection) (sdp : json)
  : completion unit * WebRTCConnection :=
  match pc c with
  | Some p =>
      match pc_setRemoteDescription sdp p with
      | Normal p' => (Normal tt, with_pc c p')
      | Throw e => (Throw e, c)
      end
  | None => (Normal tt, c)
  end.

(** [sendMessage(data)]. *)
Definition sendMessage (c : WebRTCConnection) (data : json)
  : bool * WebRTCConnection :=
  match dataChannel c with
  | Some ch =>
      if is_open (readyState ch) then
        (true,
         {| pc := pc c;
            dataChannel := Some (channel_send (JSON_stringify data) ch);
            isInitiator := isInitiator c |})
      else (false, c)
  | None => (false, c)
  end.

(** The candidates the engine was handed, and the writes to the channel. *)
Definition engine_candidates (c : WebRTCConnection) : list json :=
  match pc c with
  | Some p => candidates p
  | None => []
  end.

Definition channel_writes (c : WebRTCConnection) : list jsstring :=
  match dataChannel c with
  | Some ch => sent ch
  | None => []
  end.

(** *** The data channel seen from the class

    What the handlers that [setupDataChannel] and [initAsAnswerer] install
    do when the engine calls them, and the last method of the class.  The
    callback slot a handler reads is an argument of its model. *)

(** [isReady()]: [this.dataChannel && this.dataChannel.readyState === 'open'].
    Without a channel the value of the [&&] is its left operand, [null]. *)
Definition isReady (c : WebRTCConnection) : jsval :=
  match dataChannel c with
  | Some ch => VData (JBool (is_open (readyState ch)))
  | None => VData JNull
  end.

(** The handler [pc.ondatachannel] of the answerer: the channel the engine
    delivers becomes the channel of the coordinator. *)
Definition ondatachannel (c : WebRTCConnection) (channel : RTCDataChannel)
  : WebRTCConnection :=
  {| pc := pc c; dataChannel := Some channel; isInitiator := isInitiator c |}.



(** ** The session store of the page

    [sessionStorage] maps keys to strings.  It is modelled with room left:
    [setItem] does not run into the quota of the browser. *)

Definition Storage := list (jsstring * jsstring).

(** [sessionStorage.getItem(key)]; [None] is [null]. *)
Fixpoint getItem (key : jsstring) (store : Storage) : option jsstring :=
  match store with
  | [] => None
  | (k, v) :: rest => if jsstring_eqb key k then Some v else getItem key rest
  end.

(** [sessionStorage.setItem(key, value)]. *)
Fixpoint setItem (key value : jsstring) (store : Storage) : Storage :=
  match store with
  | [] => [(key, value)]
  | (k, v) :: rest =>
      if jsstring_eqb key k then (k, value) :: rest
      else (k, v) :: setItem key value rest
  end.

(** The template [sdp_${sessionId}_${type}]. *)
Definition sdp_key (sessionId type : jsstring) : jsstring :=
  lit "sdp_" ++ sessionId ++ lit "_" ++ type.

(** The template [${key}_time]. *)
Definition time_key (key : jsstring) : jsstring := key ++ lit "_time".

(** [storeSdp(sessionId, sdp, type)], called when [Date.now()] is [now].
    The argument of the first [setItem] is evaluated before the call. *)
Definition storeSdp (sessionId : jsstring) (sdp : json) (type : jsstring)
  (now : Z) (store : Storage) : completion unit * Storage :=
  let key := sdp_key sessionId type in
  match encodeSdp sdp with
  | Normal enc =>
      (Normal tt,
       setItem (time_key key) (print_number now) (setItem key enc store))
  | Throw e => (Throw e, store)
  end.

(** [retrieveSdp(sessionId, type)]. *)
Definition retrieveSdp (sessionId type : jsstring) (store : Storage)
  : completion json :=
  let key := sdp_key sessionId type in
  match getItem key store with
  | Some encoded =>
      if truthy (VData (JStr encoded)) then decodeSdp (JStr encoded)
      else Normal JNull
  | None => Normal JNull
  end.

(** ** Links: the address of the page and the session it names *)

(** What the source reads of [window.location]. *)
Record Location : Type := {
  origin : jsstring;
  pathname : jsstring;
  search : jsstring
}.

(** [s.endsWith(c)] for a single code unit [c]. *)
Definition endsWith (c : code_unit) (s : jsstring) : bool :=
  match rev s with
  | x :: _ => (x =? c)%N
  | [] => false
  end.

(** [s.lastIndexOf(c)] for a single code unit [c], reading [s] from index
    [i] on; [found] is the last index met so far, -1 when there is none. *)
Fixpoint lastIndexOf_from (c : code_unit) (s : jsstring) (i found : Z) : Z :=
  match s with
  | [] => found
  | x :: rest =>
      lastIndexOf_from c rest (i + 1) (if (x =? c)%N then i else found)
  end.

Definition lastIndexOf (c : code_unit) (s : jsstring) : Z :=
  lastIndexOf_from c s 0 (-1).

(** The local [directory] of the three link functions. *)
Definition page_directory (loc : Location) : jsstring :=
  if endsWith ch_slash (pathname loc) then pathname loc
  else substring 0 (Z.to_nat (lastIndexOf ch_slash (pathname loc) + 1))
         (pathname loc).

(** [baseUrl] after the [if (!baseUrl)] block; [None] is [null], the
    default of the parameter. *)
Definition base_or_page (loc : Location) (baseUrl : option jsstring)
  : jsstring :=
  match baseUrl with
  | Some (c :: rest) => c :: rest
  | _ => origin loc ++ page_directory loc
  end.

(** The local [cleanBase]. *)
Definition cleanBase (baseUrl : jsstring) : jsstring :=
  if endsWith ch_slash baseUrl then baseUrl else baseUrl ++ [ch_slash].

(** The template [${cleanBase}index.html?s=${sessionId}]. *)
Definition page_link (clean sessionId : jsstring) : jsstring :=
  clean ++ lit "index.html?s=" ++ sessionId.

(** The object [{ url, sessionId }]. *)
Record link : Type := {
  link_url : jsstring;
  link_sessionId : jsstring
}.

(** [generateShareableUrl(sdp, baseUrl = null)]; [random] is what
    [Math.random()] yields. *)
Definition generateShareableUrl (random : random_source) (loc : Location)
  (sdp : json) (baseUrl : option jsstring) : link :=
  let sessionId := generateSessionId random in
  let baseUrl := base_or_page loc baseUrl in
  {| link_url := page_link (cleanBase baseUrl) sessionId;
     link_sessionId := sessionId |}.

(** [generateShareableUrlWithSession(sessionId, baseUrl = null)]. *)
Definition generateShareableUrlWithSession (loc : Location)
  (sessionId : jsstring) (baseUrl : option jsstring) : jsstring :=
  let baseUrl := base_or_page loc baseUrl in
  page_link (cleanBase baseUrl) sessionId.


(** *** The query of the page: [URLSearchParams]

    [new URLSearchParams(init)] for a string, after the URL Standard: a
    leading [?] is dropped, the string is encoded to UTF-8 and split on [&];
    each piece that is not empty is split at its first [=], has its [+]
    replaced by a space and is percent-decoded and decoded from UTF-8. *)

(** A string as scalar values: a surrogate pair is one code point, a
    surrogate on its own reads as U+FFFD. *)
Fixpoint scalar_values (s : jsstring) : list N :=
  match s with
  | [] => []
  | c :: rest =>
      if is_high_surrogate c then
        match rest with
        | d :: rest' =>
            if is_low_surrogate d
            then (65536 + (c - 55296) * 1024 + (d - 56320))%N
                 :: scalar_values rest'
            else 65533%N :: scalar_values rest
        | [] => [65533%N]
        end
      else if is_low_surrogate c then 65533%N :: scalar_values rest
      else c :: scalar_values rest
  end.

Definition utf8_bytes (cp : N) : list N :=
  if (cp <? 128)%N then [cp]
  else if (cp <? 2048)%N then [192 + cp / 64; 128 + cp mod 64]%N
  else if (cp <? 65536)%N then
    [224 + cp / 4096; 128 + (cp / 64) mod 64; 128 + cp mod 64]%N
  else
    [240 + cp / 262144; 128 + (cp / 4096) mod 64; 128 + (cp / 64) mod 64;
     128 + cp mod 64]%N.

Definition utf8_encode (s : jsstring) : list N :=
  flat_map utf8_bytes (scalar_values s).

(** The state of the UTF-8 decoder inside a sequence: the code point so
    far, the bytes still needed, and the bounds of the next byte. *)
Record utf8_pending : Type := {
  code_point : N;
  bytes_needed : nat;
  lower_boundary : N;
  upper_boundary : N
}.

(** A byte read when no sequence is pending: what is emitted, and the
    sequence it starts. *)
Definition utf8_lead (b : N) : list N * option utf8_pending :=
  if (b <=? 127)%N then ([b], None)
  else if ((194 <=? b) && (b <=? 223))%N then
    ([], Some {| code_point := N.land b 31; bytes_needed := 1;
                 lower_boundary := 128; upper_boundary := 191 |})
  else if ((224 <=? b) && (b <=? 239))%N then
    ([], Some {| code_point := N.land b 15; bytes_needed := 2;
                 lower_boundary := if (b =? 224)%N then 160%N else 128%N;
                 upper_boundary := if (b =? 237)%N then 159%N else 191%N |})
  else if ((240 <=? b) && (b <=? 244))%N then
    ([], Some {| code_point := N.land b 7; bytes_needed := 3;
                 lower_boundary := if (b =? 240)%N then 144%N else 128%N;
                 upper_boundary := if (b =? 244)%N then 143%N else 191%N |})
  else ([65533%N], None).

(** The decoder, errors replaced by U+FFFD.  A byte out of bounds ends the
    pending sequence with an error and is read again as a lead byte; so does
    the end of the input. *)
Fixpoint utf8_decode_from (pending : option utf8_pending) (bytes : list N)
  : list N :=
  match bytes with
  | [] =>
      match pending with
      | Some _ => [65533%N]
      | None => []
      end
  | b :: rest =>
      match pending with
      | None =>
          let '(out, next) := utf8_lead b in out ++ utf8_decode_from next rest
      | Some p =>
          if ((lower_boundary p <=? b) && (b <=? upper_boundary p))%N then
            let cp := N.lor (N.shiftl (code_point p) 6) (N.land b 63) in
            match bytes_needed p with
            | S (S n) =>
                utf8_decode_from
                  (Some {| code_point := cp; bytes_needed := S n;
                           lower_boundary := 128; upper_boundary := 191 |})
                  rest
            | _ => cp :: utf8_decode_from None rest
            end
          else
            let '(out, next) := utf8_lead b in
            65533%N :: out ++ utf8_decode_from next rest
      end
  end.

(** A code point as code units. *)
Definition code_units (cp : N) : jsstring :=
  if (cp <? 65536)%N then [cp]
  else [55296 + (cp - 65536) / 1024; 56320 + (cp - 65536) mod 1024]%N.

Definition utf8_decode (bytes : list N) : jsstring :=
  flat_map code_units (utf8_decode_from None bytes).

Definition ch_percent : code_unit := 37%N.
Definition ch_ampersand : code_unit := 38%N.
Definition ch_question : code_unit := 63%N.

(** Percent-decoding: [%] and two hexadecimal digits are one byte. *)
Fixpoint percent_decode (bytes : list N) : list N :=
  match bytes with
  | [] => []
  | b :: rest =>
      if (b =? ch_percent)%N then
        match rest with
        | h1 :: h2 :: rest' =>
            match hex_val h1, hex_val h2 with
            | Some x, Some y => (x * 16 + y)%N :: percent_decode rest'
            | _, _ => b :: percent_decode rest
            end
        | _ => b :: percent_decode rest
        end
      else b :: percent_decode rest
  end.

(** The pieces of [bytes] between the separators. *)
Fixpoint split_on (sep : N) (bytes : list N) : list (list N) :=
  match bytes with
  | [] => [[]]
  | b :: rest =>
      if (b =? sep)%N then [] :: split_on sep rest
      else
        match split_on sep rest with
        | piece :: pieces => (b :: piece) :: pieces
        | [] => [[b]]
        end
  end.

(** The bytes before and after the first [sep], if there is one. *)
Fixpoint split_first (sep : N) (bytes : list N) : option (list N * list N) :=
  match bytes with
  | [] => None
  | b :: rest =>
      if (b =? sep)%N then Some ([], rest)
      else
        match split_first sep rest with
        | Some (before, after) => Some (b :: before, after)
        | None => None
        end
  end.

Definition urlencoded_string (bytes : list N) : jsstring :=
  utf8_decode (percent_decode (replace_all ch_plus ch_space bytes)).

Definition urlencoded_pair (bytes : list N) : jsstring * jsstring :=
  match split_first ch_equals bytes with
  | Some (name, value) => (urlencoded_string name, urlencoded_string value)
  | None => (urlencoded_string bytes, urlencoded_string [])
  end.

Definition not_empty (bytes : list N) : bool :=
  match bytes with
  | [] => false
  | _ :: _ => true
  end.

Definition urlencoded_parse (input : list N) : list (jsstring * jsstring) :=
  map urlencoded_pair (filter not_empty (split_on ch_ampersand input)).

(** [new URLSearchParams(init)]: the list of its name-value pairs. *)
Definition URLSearchParams (init : jsstring) : list (jsstring * jsstring) :=
  urlencoded_parse
    (utf8_encode
       match init with
       | c :: rest => if (c =? ch_question)%N then rest else init
       | [] => []
       end).

(** [params.get(name)]: the value of the first pair of that name, or
    [null]. *)
Fixpoint params_get (name : jsstring) (params : list (jsstring * jsstring))
  : jsval :=
  match params with
  | [] => VData JNull
  | (k, v) :: rest =>
      if jsstring_eqb name k then VData (JStr v) else params_get name rest
  end.

(** The object [{ sessionId, type }]. *)
Record session_info : Type := {
  info_sessionId : jsval;
  info_type : jsval
}.

(** [extractSessionFromUrl()]; [None] is [null]. *)
Definition extractSessionFromUrl (loc : Location) : option session_info :=
  let params := URLSearchParams (search loc) in
  let sessionId :=
    js_or (params_get (lit "s") params) (params_get (lit "session") params) in
  let type := js_or (params_get (lit "type") params)
                    (VData (JStr (lit "offer"))) in
  if truthy sessionId
  then Some {| info_sessionId := sessionId; info_type := type |}
  else None.

(** The object [{ type, sdp }]. *)
Record described_sdp : Type := {
  sdp_type : jsstring;
  sdp_value : json
}.

(** [extractSdpFromUrl()]; [None] is [null]. *)
Definition extractSdpFromUrl (loc : Location)
  : completion (option described_sdp) :=
  let params := URLSearchParams (search loc) in
  let offer := params_get (lit "offer") params in
  let answer := params_get (lit "answer") params in
  if truthy offer then
    cbind (decodeSdp_value offer) (fun sdp =>
    Normal (Some {| sdp_type := lit "offer"; sdp_value := sdp |}))
  else if truthy answer then
    cbind (decodeSdp_value answer) (fun sdp =>
    Normal (Some {| sdp_type := lit "answer"; sdp_value := sdp |}))
  else Normal None.

(** ** Auxiliary definitions of the proofs *)

(** [f] holds of every number below [k]: a check that runs. *)
Definition check_step (f : N -> bool) (st : bool * N) : bool * N :=
  (fst st && f (snd st), N.succ (snd st)).

Definition check_below (k : N) (f : N -> bool) : bool :=
  fst (N.iter k (check_step f) (true, 0%N)).

(** Reading the four digits of [unicode_escape c] gives [c] back. *)
Definition hex4_round_trips (c : N) : bool :=
  match unicode_escape c with
  | [_; _; h1; h2; h3; h4] =>
      match hex4 h1 h2 h3 h4 with
      | Some c' => (c' =? c)%N
      | None => false
      end
  | _ => false
  end.

(** One more character in front of a string literal that was read. *)
Definition prepend (c : code_unit) (r : option (jsstring * jsstring))
  : option (jsstring * jsstring) :=
  match r with
  | Some (t, rest) => Some (c :: t, rest)
  | None => None
  end.

(** The code units a rendered datum can start with. *)
Definition starts_value (c : code_unit) : bool :=
  (c =? 110)%N || (c =? 116)%N || (c =? 102)%N || (c =? ch_quote)%N ||
  (c =? ch_lbracket)%N || (c =? ch_lbrace)%N || (c =? ch_minus)%N || is_digit c.

(** The keys and values of an object are well formed. *)
Definition props_wf (props : list (jsstring * json)) : Prop :=
  Forall (fun kv => string_ok (fst kv) = true /\ json_wf (snd kv) = true) props.

(** Lengths of concatenations, in a hypothesis and in the goal. *)
Ltac push_length H :=
  repeat first [rewrite length_app in H | progress cbn [length app] in H].

Ltac solve_length := rewrite ?length_app; cbn [length]; lia.

(** A key and its value, as [JSON.stringify] writes them. *)
Definition stringify_member (k : jsstring) (x : json) : jsstring :=
  JSON_quote k ++ ch_colon :: JSON_stringify x.

(** What the induction gives for one datum. *)
Definition parses_back (v : json) : Prop :=
  json_wf v = true ->
  forall fuel rest,
    length (JSON_stringify v ++ rest) < fuel ->
    ends_number rest = true ->
    parse_value fuel (JSON_stringify v ++ rest) = Parsed v rest.

(** The sextets [b64_encode] writes, before they are mapped to characters,
    and its padding. *)
Fixpoint b64_vals (bytes : list N) : list N :=
  match bytes with
  | [] => []
  | [a] => [a / 4; (a mod 4) * 16]%N
  | [a; b] => [a / 4; (a mod 4) * 16 + b / 16; (b mod 16) * 4]%N
  | a :: b :: c :: rest =>
      [a / 4; (a mod 4) * 16 + b / 16; (b mod 16) * 4 + c / 64; c mod 64]%N
      ++ b64_vals rest
  end.

Fixpoint b64_pad (bytes : list N) : jsstring :=
  match bytes with
  | [] => []
  | [_] => [ch_equals; ch_equals]
  | [_; _] => [ch_equals]
  | _ :: _ :: _ :: rest => b64_pad rest
  end.

(** [f] holds of every pair of bytes; the pair [(a, b)] is numbered
    [a * 256 + b]. *)
Definition on_pair (f : N -> N -> bool) (p : N) : bool :=
  f (p / 256)%N (p mod 256)%N.


(** The arithmetic of one group, on two neighbouring bytes. *)
Definition group_head_ok (a b : N) : bool :=
  let s0 := (a / 4)%N in
  let s1 := ((a mod 4) * 16 + b / 16)%N in
  (s0 <? 64)%N && (s1 <? 64)%N && (s0 * 4 + s1 / 16 =? a)%N &&
  (s1 mod 16 =? b / 16)%N &&
  ((a mod 4) * 16 <? 64)%N && (s0 * 4 + ((a mod 4) * 16) / 16 =? a)%N.

Definition group_tail_ok (b c : N) : bool :=
  let s2 := ((b mod 16) * 4 + c / 64)%N in
  let s3 := (c mod 64)%N in
  (s2 <? 64)%N && (s3 <? 64)%N && ((b / 16) * 16 + s2 / 4 =? b)%N &&
  ((s2 mod 4) * 64 + s3 =? c)%N &&
  ((b mod 16) * 4 <? 64)%N && ((b / 16) * 16 + ((b mod 16) * 4) / 4 =? b)%N.

(** A character of the base64 alphabet survives the URL-safe substitution
    and its inverse, and is neither padding nor white space. *)
Definition url_forward (c : code_unit) : code_unit :=
  let c1 := if (c =? ch_plus)%N then ch_minus else c in
  if (c1 =? ch_slash)%N then ch_underscore else c1.

Definition url_backward (c : code_unit) : code_unit :=
  let c1 := if (c =? ch_minus)%N then ch_plus else c in
  if (c1 =? ch_underscore)%N then ch_slash else c1.

Definition alphabet_char_ok (n : N) : bool :=
  let c := b64_char n in
  match b64_val c with
  | Some m => (m =? n)%N
  | None => false
  end &&
  negb (is_ascii_ws c) && negb (c =? ch_equals)%N &&
  (url_backward c =? c)%N && (url_backward (url_forward c) =? c)%N &&
  negb (url_forward c =? ch_equals)%N.

(** *** The attempts of the retry loop, told from the answers of the relay *)

(** What one attempt comes to. *)
Inductive attempt_result : Type :=
| Payload (enc : jsval)   (* an answer that carries an encoded description *)
| Empty                   (* a readable answer that carries none *)
| Failure.                (* no answer, a status that is not a success, or
                             an answer that cannot be read *)

Definition classify (o : fetch_outcome) : attempt_result :=
  match o with
  | Unreachable => Failure
  | Responded r =>
      if ok r then
        match json_body r with
        | Normal data =>
            match sdp_of_answer data with
            | Normal v => if truthy v then Payload v else Empty
            | Throw _ => Failure
            end
        | Throw _ => Failure
        end
      else Failure
  end.

(** The answer an attempt works with: the relay's, or the proxy's when the
    relay is unreachable. *)
Definition effective (w : world) (n : nat) (req preq : request)
  : fetch_outcome :=
  match direct w n req with
  | Unreachable => proxied w n preq
  | Responded r => Responded r
  end.

Definition fetches (w : world) (n : nat) (req preq : request) : list event :=
  match direct w n req with
  | Unreachable => [Fetched req; Fetched preq]
  | Responded _ => [Fetched req]
  end.

(** The value [decodeSdp] returns. *)
Definition decoded (v : jsval) : json :=
  match decodeSdp_value v with
  | Normal x => x
  | Throw _ => JNull
  end.

(** The first attempt among [count] attempts from the [n]-th on that finds a
    payload. *)
Fixpoint first_payload (result : nat -> attempt_result) (n count : nat)
  : option (nat * jsval) :=
  match count with
  | O => None
  | S count' =>
      match result n with
      | Payload enc => Some (n, enc)
      | _ => first_payload result (S n) count'
      end
  end.

(** The events and the outcome of one attempt, by its result. *)
Definition attempt_pause (result : attempt_result) (attempt maxRetries : nat)
  : list event :=
  match result with
  | Failure => if attempt <? maxRetries then [Slept 1500] else []
  | _ => []
  end.

Definition attempt_turn (result : attempt_result) (attempt maxRetries : nat)
  : turn json :=
  match result with
  | Payload enc => Return (decoded enc)
  | Empty => Next
  | Failure => if attempt <? maxRetries then Next else Return JNull
  end.


(** The events of [count] attempts in a row: the attempt numbered [attempt]
    is the [n]-th request the relay gets. *)
Fixpoint loop_events (w : world) (req preq : request)
  (maxRetries attempt n count : nat) : list event :=
  match count with
  | O => []
  | S count' =>
      fetches w n req preq ++
      attempt_pause (classify (effective w n req preq)) attempt maxRetries ++
      loop_events w req preq maxRetries (S attempt) (S n) count'
  end.

(** The three fields of [candidateObj], from the properties of the input. *)
Definition field_candidate (candidate : json) : json :=
  match get (VData candidate) (lit "candidate") with
  | Normal (VData x) => if truthy (VData x) then x else candidate
  | _ => candidate
  end.

Definition field_sdpMLineIndex (candidate : json) : json :=
  match get (VData candidate) (lit "sdpMLineIndex") with
  | Normal (VData x) => x
  | _ => JNull
  end.

Definition field_sdpMid (candidate : json) : json :=
  match get (VData candidate) (lit "sdpMid") with
  | Normal (VData x) => if truthy (VData x) then x else JNull
  | _ => JNull
  end.

Definition is_function (v : jsval) : bool :=
  match v with
  | VFunction _ => true
  | _ => false
  end.

(** What [retrieveIceCandidatesFromDweet] makes of the answer it works
    with. *)
Definition ice_result (string_gt_zero : jsstring -> bool) (o : fetch_outcome)
  : option ice_answer :=
  match o with
  | Unreachable => None
  | Responded r =>
      if ok r then
        match json_body r with
        | Normal data =>
            match ice_of_answer string_gt_zero data with
            | Normal a => a
            | Throw _ => None
            end
        | Throw _ => None
        end
      else None
  end.


(** *** The bounded wait, told from the script of the engine *)

(** The time of the first change to [complete] that comes before [due],
    among changes that start [now]. *)
Fixpoint first_complete (now due : nat) (changes : list (nat * gathering_state))
  : option nat :=
  match changes with
  | [] => None
  | (gap, s) :: rest =>
      if now + gap <? due then
        if is_complete s then Some (now + gap)
        else first_complete (now + gap) due rest
      else None
  end.

(** When the wait entered at [now] ends. *)
Definition wait_end (p : RTCPeerConnection) (now : nat) : nat :=
  if is_complete (iceGatheringState p) then now
  else
    match first_complete now (now + 5000) (upcoming p) with
    | Some t => t
    | None => now + 5000
    end.

(** Splitting the checked facts about a group and about a character. *)
Ltac split_group H :=
  unfold group_head_ok, group_tail_ok in H; cbv zeta in H;
  repeat (apply andb_true_iff in H; destruct H as [H ?]);
  repeat match goal with
         | H' : (_ <? _)%N = true |- _ => apply N.ltb_lt in H'
         | H' : (_ =? _)%N = true |- _ => apply N.eqb_eq in H'
         end.

Ltac split_alphabet H :=
  unfold alphabet_char_ok in H; cbv zeta in H;
  repeat (apply andb_true_iff in H; destruct H as [H ?]);
  repeat match goal with
         | H' : negb _ = true |- _ => apply negb_true_iff in H'
         | H' : (_ =? _)%N = true |- _ => apply N.eqb_eq in H'
         end.

(** A parse that used up its input and did not run out of fuel. *)
Definition consumes {A : Type} (s : jsstring) (r : parsed A) : Prop :=
  match r with
  | Parsed _ rest => length rest < length s
  | Invalid => True
  | OutOfFuel => False
  end.

(** ** Sample data of the examples *)

(** A session description as the engine hands it over. *)
Definition sample_offer : json :=
  JObj [(lit "type", JStr (lit "offer"));
        (lit "sdp", JStr (lit "v=0 o=- 46117317 2 IN IP4 127.0.0.1 s=- t=0 0"))].

(** A string [btoa] refuses: the euro sign, U+20AC. *)
Definition euro : json := JStr [8364%N].


(** [encodeURIComponent] on a string of unreserved characters. *)
Definition unreserved (s : jsstring) : jsstring := s.

(** No string is a positive number: the coercion of the samples. *)
Definition never_positive (s : jsstring) : bool := false.

Definition ok_json (data : json) : fetch_outcome :=
  Responded {| ok := true; json_body := Normal data |}.

(** A world whose relay and proxy give the same answer to every request. *)
Definition answering (o : fetch_outcome) : world :=
  {| direct := fun _ _ => o; proxied := fun _ _ => o;
     served := 0; clock := 1700000000000%Z; trace := [] |}.

(** The base64 of [sample_offer]. *)
Definition sample_enc : jsstring :=
  Eval vm_compute in
    match encodeSdp sample_offer with
    | Normal e => e
    | Throw _ => []
    end.

(** An answer whose [sdp] is not base64. *)
Definition corrupt_answer : json := JObj [(lit "sdp", JStr (lit "!!!"))].

(** The envelope of the relay around a published body. *)
Definition envelope (content created : json) (older : list json) : json :=
  JObj [(lit "with",
         JArr (JObj [(lit "content", content); (lit "created", created)]
               :: older))].

Definition sample_candidate : json :=
  JObj [(lit "candidate", JStr (lit "candidate:1 1 udp 2122260223 192.0.2.1 54321 typ host"));
        (lit "sdpMLineIndex", JNum 0);
        (lit "sdpMid", JStr (lit "0"))].


(** An engine whose gathering never completes. *)
Definition stalling_engine : engine :=
  {| createOffer_result := Normal sample_offer;
     createAnswer_result := Normal sample_offer;
     engine_latency := 20;
     accepts_local := fun _ => true;
     accepts_remote := fun _ => true;
     accepts_candidate := fun _ => true;
     gathering := [(100, Gathering)];
     described := fun d _ => d |}.

(** An engine whose gathering completes after 350 ms. *)
Definition quick_engine : engine :=
  {| createOffer_result := Normal sample_offer;
     createAnswer_result := Normal sample_offer;
     engine_latency := 20;
     accepts_local := fun _ => true;
     accepts_remote := fun _ => true;
     accepts_candidate := fun _ => true;
     gathering := [(100, Gathering); (250, GatheringComplete)];
     described := fun d _ => d |}.


(** ** Auxiliary definitions of the further properties *)





(** The requests among some events, and the time slept in them. *)
Fixpoint count_fetches (events : list event) : nat :=
  match events with
  | [] => 0
  | Fetched _ :: rest => S (count_fetches rest)
  | Slept _ :: rest => count_fetches rest
  end.

Fixpoint total_sleep (events : list event) : nat :=
  match events with
  | [] => 0
  | Fetched _ :: rest => total_sleep rest
  | Slept ms :: rest => ms + total_sleep rest
  end.

(** The record [storeIceCandidateOnDweet] publishes for a candidate. *)
Definition candidate_record (candidate : json) : json :=
  JObj [(lit "candidate", field_candidate candidate);
        (lit "sdpMLineIndex", field_sdpMLineIndex candidate);
        (lit "sdpMid", field_sdpMid candidate)].

(** A character that stands for itself in a query: ASCII, and none of [&],
    [+] and [%]; in a name, not [=] either. *)
Definition plain_value_unit (c : code_unit) : bool :=
  (c <? 128)%N && negb (c =? ch_ampersand)%N && negb (c =? ch_plus)%N &&
  negb (c =? ch_percent)%N.

Definition plain_name_unit (c : code_unit) : bool :=
  plain_value_unit c && negb (c =? ch_equals)%N.

(** The query that spells some pairs: [name=value] joined by [&]. *)
Fixpoint query_of (pairs : list (jsstring * jsstring)) : jsstring :=
  match pairs with
  | [] => []
  | [(name, value)] => name ++ ch_equals :: value
  | (name, value) :: rest =>
      name ++ ch_equals :: value ++ ch_ampersand :: query_of rest
  end.

Definition plain_pair (pair : jsstring * jsstring) : bool :=
  forallb plain_name_unit (fst pair) && forallb plain_value_unit (snd pair).

(** A character of the URL-safe spelling of base64, and an upper-case
    radix-36 character, are plain. *)
Definition url_safe_char_ok (n : N) : bool :=
  plain_value_unit (url_forward (b64_char n)).

Definition upper36_plain (c : N) : bool :=
  implb (is_upper36 c) (plain_name_unit c).

(** A page whose query is [query]. *)
Definition page_at (query : jsstring) : Location :=
  {| origin := lit "https://example.org"; pathname := lit "/colour-match/";
     search := query |}.

Definition ascii_unit (c : code_unit) : bool := (c <? 128)%N.

(** [c] does not occur in a string. *)
Definition absent (c : code_unit) (s : jsstring) : bool :=
  forallb (fun x => negb (x =? c)%N) s.

(** * Facts about the built-ins *)

Unset Implicit Arguments.

(** ** Strings *)

Lemma jsstring_eqb_eq (a b : jsstring) : jsstring_eqb a b = true <-> a = b.
Proof.
  revert b; induction a as [|x a IH]; intros [|y b]; simpl; split;
    try congruence; try reflexivity.
  - rewrite andb_true_iff, N.eqb_eq, IH. intros [-> ->]; reflexivity.
  - intros [= -> ->]. rewrite N.eqb_refl. simpl. now apply IH.
Qed.

Lemma jsstring_eqb_refl (a : jsstring) : jsstring_eqb a a = true.
Proof. now apply jsstring_eqb_eq. Qed.

Lemma jsstring_eqb_neq (a b : jsstring) : jsstring_eqb a b = false <-> a <> b.
Proof.
  split.
  - intros H E. apply jsstring_eqb_eq in E. congruence.
  - intros H. destruct (jsstring_eqb a b) eqn:E; [|reflexivity].
    apply jsstring_eqb_eq in E. contradiction.
Qed.

(** ** Decimal numbers *)

Lemma digit_of_None_iff (c : code_unit) : digit_of c = None <-> is_digit c = false.
Proof.
  unfold digit_of, is_digit.
  repeat match goal with
         | |- context [(c =? ?k)%N] => destruct (N.eqb_spec c k); [subst; simpl; split; discriminate|]
         end.
  split; [intros _|reflexivity].
  destruct (N.leb_spec 48 c), (N.leb_spec c 57); simpl; try reflexivity. lia.
Qed.

Lemma scan_print_uint (d : uint) (rest : jsstring) :
  match rest with [] => True | c :: _ => is_digit c = false end ->
  scan_uint (print_uint d ++ rest) = (d, rest).
Proof.
  intros Hrest. induction d; simpl; try (rewrite IHd; reflexivity).
  destruct rest as [|c r]; [reflexivity|]. simpl.
  apply digit_of_None_iff in Hrest. now rewrite Hrest.
Qed.

Lemma to_uint_canonical (n : N) :
  match N.to_uint n with
  | Nil => False
  | D0 Nil => True
  | D0 _ => False
  | _ => True
  end.
Proof.
  pose proof (Unsigned.to_of (N.to_uint n)) as H.
  rewrite Unsigned.of_to in H. rewrite H. unfold unorm.
  destruct (nzhead (N.to_uint n)) eqn:E; try exact I.
  exfalso. exact (nzhead_nonzero _ _ E).
Qed.

Lemma print_N_head (n : N) :
  exists c r, print_N n = c :: r /\ is_digit c = true.
Proof.
  unfold print_N. pose proof (to_uint_canonical n) as H.
  destruct (N.to_uint n); try contradiction; simpl; eexists _, _; split;
    reflexivity.
Qed.

Lemma parse_print_natural (m : N) (rest : jsstring) :
  ends_number rest = true ->
  parse_natural (print_N m ++ rest) = Some (m, rest).
Proof.
  intros Hrest.
  assert (Hd : match rest with [] => True | c :: _ => is_digit c = false end).
  { destruct rest; [exact I|]. simpl in Hrest.
    apply andb_true_iff in Hrest as [H _]. now apply negb_true_iff in H. }
  assert (Hc : continues_number rest = false).
  { destruct rest; [reflexivity|]. simpl in Hrest.
    apply andb_true_iff in Hrest as [_ H]. now apply negb_true_iff in H. }
  unfold parse_natural, print_N. rewrite scan_print_uint by exact Hd.
  pose proof (to_uint_canonical m) as Hcan.
  pose proof (Unsigned.of_to m) as Hof.
  destruct (N.to_uint m) as [|u|u|u|u|u|u|u|u|u|u]; try contradiction;
    try (rewrite Hc, Hof; reflexivity).
  destruct u; try contradiction. rewrite Hc, Hof. reflexivity.
Qed.

Lemma digit_not_minus (c : code_unit) :
  is_digit c = true -> (c =? ch_minus)%N = false.
Proof.
  intros H. apply N.eqb_neq. intros ->. discriminate.
Qed.

Lemma parse_print_number (n : Z) (rest : jsstring) :
  ends_number rest = true ->
  parse_number (print_number n ++ rest) = Some (n, rest).
Proof.
  intros Hrest. unfold print_number.
  destruct n as [|p|p].
  - pose proof (parse_print_natural (Z.abs_N 0) rest Hrest) as H.
    destruct (print_N_head (Z.abs_N 0)) as (c & r & E & Hdig).
    rewrite E in *. simpl. rewrite (digit_not_minus _ Hdig).
    simpl in H. rewrite H. reflexivity.
  - pose proof (parse_print_natural (Z.abs_N (Z.pos p)) rest Hrest) as H.
    destruct (print_N_head (Z.abs_N (Z.pos p))) as (c & r & E & Hdig).
    rewrite E in *. simpl app. cbv beta iota delta [parse_number].
    rewrite (digit_not_minus _ Hdig).
    simpl app in H. rewrite H. reflexivity.
  - simpl app. cbv beta iota delta [parse_number]. rewrite N.eqb_refl.
    rewrite (parse_print_natural _ _ Hrest). reflexivity.
Qed.

(** ** Checking a property of every number below a bound *)


Lemma check_below_iter (k : N) (f : N -> bool) :
  snd (N.iter k (check_step f) (true, 0%N)) = k /\
  (fst (N.iter k (check_step f) (true, 0%N)) = true ->
   forall n, (n < k)%N -> f n = true).
Proof.
  induction k as [|k [IH1 IH2]] using N.peano_ind.
  - split; [reflexivity|]. intros _ n Hn. lia.
  - rewrite N.iter_succ. unfold check_step at 1. unfold check_step at 2.
    cbn [fst snd]. rewrite IH1. split; [reflexivity|].
    intros H n Hn. apply andb_true_iff in H as [Hk Hf].
    destruct (N.eq_dec n k) as [->|Hne]; [now rewrite IH1 in Hf|].
    apply IH2; [exact Hk|lia].
Qed.

Lemma check_below_sound (k : N) (f : N -> bool) :
  check_below k f = true -> forall n, (n < k)%N -> f n = true.
Proof. apply check_below_iter. Qed.

(** ** String literals *)


Lemma hex4_escape (c : code_unit) :
  (c < 65536)%N ->
  hex4 (hex_digit (c / 4096)) (hex_digit ((c / 256) mod 16))
       (hex_digit ((c / 16) mod 16)) (hex_digit (c mod 16)) = Some c.
Proof.
  intros Hc.
  assert (H : check_below 65536 hex4_round_trips = true)
    by (vm_compute; reflexivity).
  pose proof (check_below_sound _ _ H c Hc) as Hr.
  unfold hex4_round_trips, unicode_escape in Hr.
  destruct (hex4 _ _ _ _) as [c'|]; [|discriminate].
  apply N.eqb_eq in Hr. now subst.
Qed.


Lemma parse_chars_escape (c : code_unit) (t : jsstring) :
  (c < 65536)%N ->
  parse_chars (unicode_escape c ++ t) = prepend c (parse_chars t).
Proof.
  intros Hc. unfold unicode_escape. simpl app.
  cbn [parse_chars]. change (ch_backslash =? ch_quote)%N with false.
  change (ch_backslash =? ch_backslash)%N with true.
  change (117 =? 117)%N with true. cbv iota.
  rewrite (hex4_escape c Hc). unfold prepend.
  destruct (parse_chars t) as [[u rest]|]; reflexivity.
Qed.

Lemma parse_chars_plain (c : code_unit) (t : jsstring) :
  c <> ch_quote -> c <> ch_backslash -> (32 <= c)%N ->
  parse_chars (c :: t) = prepend c (parse_chars t).
Proof.
  intros Hq Hb Hc. cbn [parse_chars].
  apply N.eqb_neq in Hq, Hb. rewrite Hq, Hb.
  replace (c <? 32)%N with false by (symmetry; apply N.ltb_ge; exact Hc).
  reflexivity.
Qed.

Lemma parse_quote_unit (c : code_unit) (t : jsstring) :
  (c < 65536)%N -> is_high_surrogate c = false ->
  parse_chars (quote_unit c ++ t) = prepend c (parse_chars t).
Proof.
  intros Hc Hhigh. unfold quote_unit.
  repeat match goal with
         | |- context [if (c =? ?k)%N then _ else _] =>
             destruct (N.eqb_spec c k) as [->|?];
             [unfold prepend; cbn; destruct (parse_chars t) as [[? ?]|]; reflexivity|]
         end.
  destruct (N.ltb_spec c 32).
  - now apply parse_chars_escape.
  - destruct (is_low_surrogate c).
    + now apply parse_chars_escape.
    + simpl app. now apply parse_chars_plain.
Qed.

Lemma surrogate_is_plain (c : code_unit) :
  is_high_surrogate c = true \/ is_low_surrogate c = true ->
  c <> ch_quote /\ c <> ch_backslash /\ (32 <= c)%N.
Proof.
  unfold is_high_surrogate, is_low_surrogate, ch_quote, ch_backslash.
  intros [H|H]; apply andb_true_iff in H as [H1 H2];
    apply N.leb_le in H1, H2; repeat split; lia.
Qed.

Lemma parse_quote_chars_len (n : nat) :
  forall (s rest : jsstring),
    length s <= n -> string_ok s = true ->
    parse_chars (quote_chars s ++ ch_quote :: rest) = Some (s, rest).
Proof.
  induction n as [|n IH]; intros s rest Hlen Hok.
  - destruct s; [|simpl in Hlen; lia]. reflexivity.
  - destruct s as [|c r]; [reflexivity|].
    simpl in Hlen. simpl in Hok. apply andb_true_iff in Hok as [Hc Hr].
    apply N.ltb_lt in Hc. cbn [quote_chars].
    destruct (is_high_surrogate c) eqn:Hhigh.
    + destruct r as [|d r'].
      * rewrite parse_chars_escape by exact Hc. reflexivity.
      * destruct (is_low_surrogate d) eqn:Hlow.
        -- simpl in Hr. apply andb_true_iff in Hr as [Hd Hr'].
           destruct (surrogate_is_plain c (or_introl Hhigh)) as (A1 & A2 & A3).
           destruct (surrogate_is_plain d (or_intror Hlow)) as (B1 & B2 & B3).
           simpl app. rewrite parse_chars_plain by assumption.
           rewrite parse_chars_plain by assumption.
           rewrite IH; [reflexivity| simpl in Hlen; lia | exact Hr'].
        -- rewrite <- app_assoc. rewrite parse_chars_escape by exact Hc.
           rewrite IH; [reflexivity| lia | exact Hr].
    + rewrite <- app_assoc. rewrite parse_quote_unit by assumption.
      rewrite IH; [reflexivity| lia | exact Hr].
Qed.

Lemma parse_quote_chars (s rest : jsstring) :
  string_ok s = true ->
  parse_chars (quote_chars s ++ ch_quote :: rest) = Some (s, rest).
Proof. apply (parse_quote_chars_len (length s)). lia. Qed.

(** ** The property order of an object *)

Lemma has_key_existsb (k : jsstring) (props : list (jsstring * json)) :
  has_key k props = existsb (jsstring_eqb k) (map fst props).
Proof.
  induction props as [|[k' v'] props IH]; simpl; [reflexivity|].
  now rewrite IH.
Qed.

Lemma keys_ordered_app_l (ks ks' : list jsstring) :
  forall bound,
    keys_ordered bound (ks ++ ks') = true -> keys_ordered bound ks = true.
Proof.
  induction ks as [|k ks IH]; intros bound H; [reflexivity|].
  simpl in *. destruct (array_index k) as [i|].
  - apply andb_true_iff in H as [H1 H2]. rewrite H1. simpl. now apply IH.
  - rewrite forallb_app in H. now apply andb_true_iff in H as [H _].
Qed.

Lemma keys_ordered_last (ks : list jsstring) (k : jsstring) (i : N) :
  forall bound,
    array_index k = Some i ->
    keys_ordered bound (ks ++ [k]) = true ->
    (bound <= i)%N /\ Forall (fun k' => exists j, array_index k' = Some j /\ (j < i)%N) ks.
Proof.
  induction ks as [|k0 ks IH]; intros bound Hk H; simpl in H.
  - rewrite Hk in H. apply andb_true_iff in H as [H _].
    apply N.leb_le in H. split; [exact H|constructor].
  - destruct (array_index k0) as [j|] eqn:Hj.
    + apply andb_true_iff in H as [H1 H2]. apply N.leb_le in H1.
      destruct (IH _ Hk H2) as [Hb Hall]. split; [lia|].
      constructor; [|exact Hall]. exists j. split; [exact Hj|lia].
    + rewrite forallb_app in H. apply andb_true_iff in H as [_ H].
      simpl in H. unfold no_index in H. rewrite Hk in H. discriminate.
Qed.

Lemma insert_index_last (i : N) (k : jsstring) (v : json)
  (props : list (jsstring * json)) :
  Forall (fun k' => exists j, array_index k' = Some j /\ (j < i)%N)
         (map fst props) ->
  insert_index i k v props = props ++ [(k, v)].
Proof.
  induction props as [|[k' v'] props IH]; intros H; [reflexivity|].
  simpl in *. inversion H as [|? ? (j & Hj & Hlt) Hrest]; subst.
  rewrite Hj. replace (j <? i)%N with true by (symmetry; now apply N.ltb_lt).
  now rewrite IH.
Qed.

Lemma define_prop_fresh (k : jsstring) (v : json)
  (props : list (jsstring * json)) (bound : N) :
  has_key k props = false ->
  keys_ordered bound (map fst props ++ [k]) = true ->
  define_prop k v props = props ++ [(k, v)].
Proof.
  intros Hfresh Hord. unfold define_prop. rewrite Hfresh.
  destruct (array_index k) as [i|] eqn:Hk; [|reflexivity].
  apply insert_index_last.
  now destruct (keys_ordered_last _ _ _ _ Hk Hord).
Qed.

Lemma keys_distinct_fresh (ks ks' : list jsstring) (k : jsstring) :
  keys_distinct (ks ++ k :: ks') = true -> existsb (jsstring_eqb k) ks = false.
Proof.
  induction ks as [|k0 ks IH]; intros H; [reflexivity|].
  simpl in *. apply andb_true_iff in H as [H1 H2].
  rewrite (IH H2), orb_false_r.
  apply negb_true_iff in H1. rewrite existsb_app in H1.
  apply orb_false_iff in H1 as [_ H1]. simpl in H1.
  apply orb_false_iff in H1 as [H1 _].
  apply jsstring_eqb_neq in H1. apply jsstring_eqb_neq. congruence.
Qed.

Lemma object_of_members_from (suffix : list (jsstring * json)) :
  forall prefix,
    keys_ordered 0 (map fst (prefix ++ suffix)) = true ->
    keys_distinct (map fst (prefix ++ suffix)) = true ->
    fold_left (fun props m => define_prop (fst m) (snd m) props) suffix prefix
    = prefix ++ suffix.
Proof.
  induction suffix as [|[k v] suffix IH]; intros prefix Hord Hdis; simpl.
  - now rewrite app_nil_r.
  - rewrite map_app in Hord, Hdis. simpl in Hord, Hdis.
    rewrite (define_prop_fresh k v prefix 0%N).
    + rewrite IH; rewrite <- app_assoc; simpl; rewrite ?map_app; simpl;
        auto.
    + rewrite has_key_existsb. exact (keys_distinct_fresh _ _ _ Hdis).
    + apply keys_ordered_app_l with (ks' := map fst suffix).
      rewrite <- app_assoc. exact Hord.
Qed.

Lemma object_of_members_ordered (props : list (jsstring * json)) :
  keys_ordered 0 (map fst props) = true ->
  keys_distinct (map fst props) = true ->
  object_of_members props = props.
Proof.
  intros Hord Hdis. unfold object_of_members.
  now rewrite (object_of_members_from props []).
Qed.

(** ** [JSON.parse] after [JSON.stringify] *)

Lemma stringify_items (x : json) (rest : list json) :
  JSON_stringify (JArr (x :: rest)) =
  ch_lbracket :: JSON_stringify x ++ stringify_more_items rest.
Proof. reflexivity. Qed.

Lemma stringify_props (k : jsstring) (x : json) (rest : list (jsstring * json)) :
  JSON_stringify (JObj ((k, x) :: rest)) =
  ch_lbrace :: JSON_quote k ++ ch_colon :: JSON_stringify x ++
  stringify_more_props rest.
Proof. reflexivity. Qed.


Lemma starts_value_below (c : code_unit) : starts_value c = true -> (c < 128)%N.
Proof.
  unfold starts_value, is_digit. rewrite !orb_true_iff, andb_true_iff.
  rewrite !N.eqb_eq, !N.leb_le. unfold ch_quote, ch_lbracket, ch_lbrace, ch_minus.
  lia.
Qed.

Lemma starts_value_facts (c : code_unit) :
  starts_value c = true ->
  is_ws c = false /\ (c =? ch_rbracket)%N = false /\ (c =? ch_rbrace)%N = false.
Proof.
  intros H.
  assert (Hall : check_below 128 (fun c =>
            implb (starts_value c)
              (negb (is_ws c) && negb (c =? ch_rbracket)%N &&
               negb (c =? ch_rbrace)%N)) = true) by (vm_compute; reflexivity).
  pose proof (check_below_sound _ _ Hall c (starts_value_below c H)) as Hc.
  clear Hall. cbv beta in Hc. rewrite H in Hc. simpl in Hc.
  apply andb_true_iff in Hc as [Hc H3]. apply andb_true_iff in Hc as [H1 H2].
  now rewrite negb_true_iff in *.
Qed.

Lemma number_head_facts (c : code_unit) :
  ((c =? ch_minus)%N || is_digit c) = true ->
  is_ws c = false /\ (c =? 110)%N = false /\ (c =? 116)%N = false /\
  (c =? 102)%N = false /\ (c =? ch_quote)%N = false /\
  (c =? ch_lbracket)%N = false /\ (c =? ch_lbrace)%N = false.
Proof.
  intros H.
  assert (Hlt : (c < 128)%N).
  { apply starts_value_below. unfold starts_value.
    apply orb_true_iff in H as [H|H]; rewrite H; now rewrite ?orb_true_r. }
  assert (Hall : check_below 128 (fun c =>
            implb ((c =? ch_minus)%N || is_digit c)
              (negb (is_ws c) && negb (c =? 110)%N && negb (c =? 116)%N &&
               negb (c =? 102)%N && negb (c =? ch_quote)%N &&
               negb (c =? ch_lbracket)%N && negb (c =? ch_lbrace)%N)) = true)
    by (vm_compute; reflexivity).
  pose proof (check_below_sound _ _ Hall c Hlt) as Hc.
  clear Hall. cbv beta in Hc. rewrite H in Hc. simpl in Hc.
  repeat (apply andb_true_iff in Hc as [Hc ?]).
  rewrite negb_true_iff in *. auto 10.
Qed.

Lemma print_number_head (n : Z) :
  exists c r, print_number n = c :: r /\
              ((c =? ch_minus)%N || is_digit c) = true.
Proof.
  unfold print_number. destruct n as [|p|p].
  - destruct (print_N_head (Z.abs_N 0)) as (c & r & E & H).
    exists c, r. now rewrite E, H, orb_true_r.
  - destruct (print_N_head (Z.abs_N (Z.pos p))) as (c & r & E & H).
    exists c, r. now rewrite E, H, orb_true_r.
  - eexists _, _. split; reflexivity.
Qed.

Lemma stringify_head (v : json) :
  exists c r, JSON_stringify v = c :: r /\ starts_value c = true.
Proof.
  destruct v as [|[|]|n|s|[|x l]|[|[k x] l]];
    try (eexists _, _; split; reflexivity).
  destruct (print_number_head n) as (c & r & E & H).
  exists c, r. split; [exact E|]. unfold starts_value.
  apply orb_true_iff in H as [H|H]; rewrite H; now rewrite ?orb_true_r.
Qed.

Lemma parse_value_number (fuel : nat) (c : code_unit) (r : jsstring) :
  ((c =? ch_minus)%N || is_digit c) = true ->
  parse_value (S fuel) (c :: r) =
  match parse_number (c :: r) with
  | Some (n, rest) => Parsed (JNum n) rest
  | None => Invalid
  end.
Proof.
  intros H.
  destruct (number_head_facts c H) as (H0 & H1 & H2 & H3 & H4 & H5 & H6).
  cbn [parse_value skip_ws]. rewrite H0, H1, H2, H3, H4, H5, H6, H.
  reflexivity.
Qed.

Lemma skip_ws_value (v : json) (rest : jsstring) :
  skip_ws (JSON_stringify v ++ rest) = JSON_stringify v ++ rest.
Proof.
  destruct (stringify_head v) as (c & r & E & H). rewrite E. simpl.
  now destruct (starts_value_facts c H) as (-> & _).
Qed.

Lemma json_wf_items (items : list json) :
  json_wf (JArr items) = true <-> Forall (fun x => json_wf x = true) items.
Proof.
  induction items as [|x items IH]; simpl.
  - split; [constructor|reflexivity].
  - rewrite andb_true_iff. split.
    + intros [H1 H2]. constructor; [exact H1|]. apply IH. exact H2.
    + intros H. inversion H; subst. split; [assumption|]. now apply IH.
Qed.


Lemma json_wf_props (props : list (jsstring * json)) :
  json_wf (JObj props) = true <->
  keys_ordered 0 (map fst props) = true /\
  keys_distinct (map fst props) = true /\ props_wf props.
Proof.
  cbn [json_wf]. rewrite !andb_true_iff.
  assert (H : (fix all (l : list (jsstring * json)) : bool :=
                 match l with
                 | [] => true
                 | (k, x) :: l' => string_ok k && json_wf x && all l'
                 end) props = true <-> props_wf props).
  { unfold props_wf. induction props as [|[k x] props IH].
    - split; [constructor|reflexivity].
    - rewrite !andb_true_iff. split.
      + intros [[H1 H2] H3]. constructor; [now split|now apply IH].
      + intros H. inversion H as [|? ? [H1 H2] H3]; subst.
        split; [now split|now apply IH]. }
  rewrite H. tauto.
Qed.



(** One step of the parser on each leading code unit. *)

Lemma parse_value_quote (fuel : nat) (r : jsstring) :
  parse_value (S fuel) (ch_quote :: r) =
  match parse_chars r with
  | Some (t, rest) => Parsed (JStr t) rest
  | None => Invalid
  end.
Proof. reflexivity. Qed.

Lemma parse_value_lbracket (fuel : nat) (r : jsstring) :
  parse_value (S fuel) (ch_lbracket :: r) =
  match skip_ws r with
  | [] => Invalid
  | c1 :: r1 =>
      if (c1 =? ch_rbracket)%N then Parsed (JArr []) r1
      else
        match parse_value fuel (c1 :: r1) with
        | Parsed x rest =>
            match parse_more_items fuel rest with
            | Parsed xs rest' => Parsed (JArr (x :: xs)) rest'
            | Invalid => Invalid
            | OutOfFuel => OutOfFuel
            end
        | Invalid => Invalid
        | OutOfFuel => OutOfFuel
        end
  end.
Proof. reflexivity. Qed.

Lemma parse_value_lbrace (fuel : nat) (r : jsstring) :
  parse_value (S fuel) (ch_lbrace :: r) =
  match skip_ws r with
  | [] => Invalid
  | c1 :: r1 =>
      if (c1 =? ch_rbrace)%N then Parsed (JObj []) r1
      else
        match parse_member fuel (c1 :: r1) with
        | Parsed m rest =>
            match parse_more_members fuel rest with
            | Parsed ms rest' => Parsed (JObj (object_of_members (m :: ms))) rest'
            | Invalid => Invalid
            | OutOfFuel => OutOfFuel
            end
        | Invalid => Invalid
        | OutOfFuel => OutOfFuel
        end
  end.
Proof. reflexivity. Qed.

Lemma parse_more_items_comma (fuel : nat) (r : jsstring) :
  parse_more_items (S fuel) (ch_comma :: r) =
  match parse_value fuel r with
  | Parsed x rest =>
      match parse_more_items fuel rest with
      | Parsed xs rest' => Parsed (x :: xs) rest'
      | Invalid => Invalid
      | OutOfFuel => OutOfFuel
      end
  | Invalid => Invalid
  | OutOfFuel => OutOfFuel
  end.
Proof. reflexivity. Qed.

Lemma parse_more_members_comma (fuel : nat) (r : jsstring) :
  parse_more_members (S fuel) (ch_comma :: r) =
  match parse_member fuel r with
  | Parsed m rest =>
      match parse_more_members fuel rest with
      | Parsed ms rest' => Parsed (m :: ms) rest'
      | Invalid => Invalid
      | OutOfFuel => OutOfFuel
      end
  | Invalid => Invalid
  | OutOfFuel => OutOfFuel
  end.
Proof. reflexivity. Qed.

Lemma parse_member_quote (fuel : nat) (r : jsstring) :
  parse_member (S fuel) (ch_quote :: r) =
  match parse_chars r with
  | Some (k, rest) =>
      match skip_ws rest with
      | c1 :: r1 =>
          if (c1 =? ch_colon)%N then
            match parse_value fuel r1 with
            | Parsed x rest' => Parsed (k, x) rest'
            | Invalid => Invalid
            | OutOfFuel => OutOfFuel
            end
          else Invalid
      | [] => Invalid
      end
  | None => Invalid
  end.
Proof. reflexivity. Qed.

Lemma parse_value_items (fuel : nat) (v : json) (t : jsstring) :
  parse_value (S fuel) (ch_lbracket :: JSON_stringify v ++ t) =
  match parse_value fuel (JSON_stringify v ++ t) with
  | Parsed x rest =>
      match parse_more_items fuel rest with
      | Parsed xs rest' => Parsed (JArr (x :: xs)) rest'
      | Invalid => Invalid
      | OutOfFuel => OutOfFuel
      end
  | Invalid => Invalid
  | OutOfFuel => OutOfFuel
  end.
Proof.
  rewrite parse_value_lbracket, skip_ws_value.
  destruct (stringify_head v) as (c & r & E & H). rewrite E. simpl app.
  now destruct (starts_value_facts c H) as (_ & -> & _).
Qed.


Lemma parse_member_stringify (fuel : nat) (k : jsstring) (x : json) (t : jsstring) :
  string_ok k = true ->
  parse_member (S fuel) (stringify_member k x ++ t) =
  match parse_value fuel (JSON_stringify x ++ t) with
  | Parsed x' rest => Parsed (k, x') rest
  | Invalid => Invalid
  | OutOfFuel => OutOfFuel
  end.
Proof.
  intros Hk. unfold stringify_member, JSON_quote. simpl app.
  rewrite parse_member_quote. rewrite <- !app_assoc. simpl app.
  rewrite (parse_quote_chars k _ Hk). reflexivity.
Qed.

Lemma parse_value_props (fuel : nat) (k : jsstring) (x : json) (t : jsstring) :
  parse_value (S fuel) (ch_lbrace :: stringify_member k x ++ t) =
  match parse_member fuel (stringify_member k x ++ t) with
  | Parsed m rest =>
      match parse_more_members fuel rest with
      | Parsed ms rest' => Parsed (JObj (object_of_members (m :: ms))) rest'
      | Invalid => Invalid
      | OutOfFuel => OutOfFuel
      end
  | Invalid => Invalid
  | OutOfFuel => OutOfFuel
  end.
Proof. rewrite parse_value_lbrace. reflexivity. Qed.

Lemma ends_number_more_items (l : list json) (rest : jsstring) :
  ends_number (stringify_more_items l ++ rest) = true.
Proof. destruct l; reflexivity. Qed.

Lemma ends_number_more_props (l : list (jsstring * json)) (rest : jsstring) :
  ends_number (stringify_more_props l ++ rest) = true.
Proof. destruct l as [|[k x] l]; reflexivity. Qed.


Lemma parse_more_items_stringify (l : list json) :
  Forall parses_back l ->
  Forall (fun x => json_wf x = true) l ->
  forall fuel rest,
    length (stringify_more_items l ++ rest) < fuel ->
    parse_more_items fuel (stringify_more_items l ++ rest) = Parsed l rest.
Proof.
  induction l as [|y l IH]; intros Hback Hwf fuel rest Hfuel.
  - destruct fuel; [simpl in Hfuel; lia|]. reflexivity.
  - destruct fuel as [|fuel]; [simpl in Hfuel; lia|].
    inversion Hback as [|? ? Hy Hl]; subst.
    inversion Hwf as [|? ? Wy Wl]; subst.
    cbn [stringify_more_items] in *. simpl app in *.
    rewrite <- app_assoc in *. rewrite parse_more_items_comma.
    push_length Hfuel.
    rewrite (Hy Wy).
    + rewrite (IH Hl Wl); [reflexivity|solve_length].
    + solve_length.
    + apply ends_number_more_items.
Qed.

Lemma parse_more_members_stringify (l : list (jsstring * json)) :
  Forall (fun kv => parses_back (snd kv)) l ->
  props_wf l ->
  forall fuel rest,
    length (stringify_more_props l ++ rest) < fuel ->
    parse_more_members fuel (stringify_more_props l ++ rest) = Parsed l rest.
Proof.
  induction l as [|[k y] l IH]; intros Hback Hwf fuel rest Hfuel.
  - destruct fuel; [simpl in Hfuel; lia|]. reflexivity.
  - destruct fuel as [|fuel]; [simpl in Hfuel; lia|].
    inversion Hback as [|? ? Hy Hl]; subst.
    inversion Hwf as [|? ? [Wk Wy] Wl]; subst. simpl in Hy, Wk, Wy.
    cbn [stringify_more_props] in *.
    change (ch_comma :: JSON_quote k ++ ch_colon :: JSON_stringify y ++
            stringify_more_props l)
      with (ch_comma :: JSON_quote k ++ ch_colon :: JSON_stringify y ++
            stringify_more_props l) in *.
    assert (E : (ch_comma :: JSON_quote k ++ ch_colon :: JSON_stringify y ++
                 stringify_more_props l) ++ rest =
                ch_comma :: stringify_member k y ++
                (stringify_more_props l ++ rest)).
    { unfold stringify_member. simpl. rewrite <- !app_assoc. simpl.
      now rewrite <- !app_assoc. }
    rewrite E in *. rewrite parse_more_members_comma.
    unfold stringify_member, JSON_quote in Hfuel. push_length Hfuel.
    destruct fuel as [|fuel]; [lia|].
    rewrite (parse_member_stringify _ _ _ _ Wk).
    rewrite (Hy Wy).
    + rewrite (IH Hl Wl); [reflexivity|solve_length].
    + solve_length.
    + apply ends_number_more_props.
Qed.

Theorem parse_value_stringify (v : json) : parses_back v.
Proof.
  induction v as [| b | n | s | items IH | props IH] using json_ind;
    intros Hwf fuel rest Hfuel Hrest;
    (destruct fuel as [|fuel]; [simpl in Hfuel; lia|]).
  - reflexivity.
  - destruct b; reflexivity.
  - cbn [JSON_stringify].
    destruct (print_number_head n) as (c & r & E & H).
    pose proof (parse_print_number n rest Hrest) as Hp.
    rewrite E in *. simpl app in *.
    rewrite (parse_value_number _ _ _ H), Hp. reflexivity.
  - cbn [JSON_stringify]. unfold JSON_quote. simpl app.
    rewrite parse_value_quote, <- app_assoc. simpl app.
    rewrite (parse_quote_chars s rest Hwf). reflexivity.
  - destruct items as [|x items]; [reflexivity|].
    rewrite stringify_items in *. simpl app in *. rewrite <- app_assoc in *.
    apply json_wf_items in Hwf.
    inversion Hwf as [|? ? Wx Wl]; subst. inversion IH as [|? ? Hx Hl]; subst.
    rewrite parse_value_items. push_length Hfuel.
    rewrite (Hx Wx).
    + rewrite (parse_more_items_stringify items Hl Wl);
        [reflexivity|solve_length].
    + solve_length.
    + apply ends_number_more_items.
  - destruct props as [|[k x] props]; [reflexivity|].
    apply json_wf_props in Hwf. destruct Hwf as (Hord & Hdis & Wp).
    inversion Wp as [|? ? [Wk Wx] Wl]; subst. simpl in Wk, Wx.
    inversion IH as [|? ? Hx Hl]; subst. simpl in Hx.
    rewrite stringify_props in *.
    assert (E : (ch_lbrace :: JSON_quote k ++ ch_colon :: JSON_stringify x ++
                 stringify_more_props props) ++ rest =
                ch_lbrace :: stringify_member k x ++
                (stringify_more_props props ++ rest)).
    { unfold stringify_member. simpl. rewrite <- !app_assoc. simpl.
      now rewrite <- !app_assoc. }
    rewrite E in *. rewrite parse_value_props.
    unfold stringify_member, JSON_quote in Hfuel. push_length Hfuel.
    destruct fuel as [|fuel]; [lia|].
    rewrite (parse_member_stringify _ _ _ _ Wk).
    rewrite (Hx Wx).
    + rewrite (parse_more_members_stringify props Hl Wl); [|solve_length].
      now rewrite (object_of_members_ordered _ Hord Hdis).
    + solve_length.
    + apply ends_number_more_props.
Qed.

Theorem JSON_parse_stringify (v : json) :
  json_wf v = true -> JSON_parse (JSON_stringify v) = Normal v.
Proof.
  intros Hwf. unfold JSON_parse, parse_fuel.
  pose proof (parse_value_stringify v Hwf (S (length (JSON_stringify v))) []) as H.
  rewrite app_nil_r in H. rewrite H; [reflexivity|lia|reflexivity].
Qed.

(** ** The fuel of the parser

    Every recursive call of the parser follows a consumed code unit: a fuel
    above the length of the text is never used up. *)

Lemma skip_ws_length (s : jsstring) : length (skip_ws s) <= length s.
Proof.
  induction s as [|c s IH]; [reflexivity|]. cbn [skip_ws].
  destruct (is_ws c); simpl; lia.
Qed.

Lemma parse_chars_length_below (n : nat) :
  forall s t rest,
    length s <= n -> parse_chars s = Some (t, rest) -> length rest < length s.
Proof.
  induction n as [|n IH]; intros s t rest Hn H.
  - destruct s; [discriminate|simpl in Hn; lia].
  - destruct s as [|c r]; [discriminate|]. simpl in Hn.
    cbn [parse_chars] in H.
    destruct (c =? ch_quote)%N; [injection H as <- <-; simpl; lia|].
    destruct (c =? ch_backslash)%N.
    + destruct r as [|e r1]; [discriminate|].
      destruct (e =? 117)%N.
      * destruct r1 as [|h1 [|h2 [|h3 [|h4 r2]]]]; try discriminate.
        destruct (hex4 h1 h2 h3 h4); [|discriminate].
        destruct (parse_chars r2) as [[t' rest']|] eqn:E; [|discriminate].
        injection H as <- <-. apply IH in E; simpl in *; lia.
      * destruct (parse_chars r1) as [[t' rest']|] eqn:E.
        -- apply IH in E; [|simpl in *; lia].
           repeat match type of H with
                  | (if ?b then _ else _) = _ => destruct b
                  end; try discriminate; injection H as <- <-; simpl; lia.
        -- repeat match type of H with
                  | (if ?b then _ else _) = _ => destruct b
                  end; discriminate.
    + destruct (c <? 32)%N; [discriminate|].
      destruct (parse_chars r) as [[t' rest']|] eqn:E; [|discriminate].
      injection H as <- <-. apply IH in E; simpl in *; lia.
Qed.

Lemma parse_chars_length (s : jsstring) :
  forall t rest, parse_chars s = Some (t, rest) -> length rest < length s.
Proof.
  intros t rest. apply (parse_chars_length_below (length s)). lia.
Qed.

Lemma scan_uint_length (s : jsstring) :
  forall d rest, scan_uint s = (d, rest) ->
                 length rest <= length s /\ (d <> Nil -> length rest < length s).
Proof.
  induction s as [|c r IH]; intros d rest H; cbn [scan_uint] in H.
  - injection H as <- <-. split; [lia|congruence].
  - destruct (digit_of c) as [D|].
    + destruct (scan_uint r) as [d' rest'] eqn:E. injection H as <- <-.
      destruct (IH _ _ eq_refl). simpl. split; lia.
    + injection H as <- <-. split; [lia|congruence].
Qed.

Lemma parse_natural_length (s : jsstring) (n : N) (rest : jsstring) :
  parse_natural s = Some (n, rest) -> length rest < length s.
Proof.
  unfold parse_natural. destruct (scan_uint s) as [d rest'] eqn:E.
  destruct (scan_uint_length s d rest' E) as [_ Hlt].
  intros H.
  assert (Hd : d <> Nil) by (intros ->; discriminate).
  assert (Hr : rest = rest').
  { destruct d as [|u|u|u|u|u|u|u|u|u|u]; try discriminate;
      try (destruct (continues_number rest'); [discriminate|];
           now injection H as _ <-).
    destruct u; try discriminate.
    destruct (continues_number rest'); [discriminate|].
    now injection H as _ <-. }
  subst. now apply Hlt.
Qed.

Lemma parse_number_length (s : jsstring) (n : Z) (rest : jsstring) :
  parse_number s = Some (n, rest) -> length rest < length s.
Proof.
  unfold parse_number. destruct s as [|c r]; [discriminate|].
  destruct (c =? ch_minus)%N.
  - destruct (parse_natural r) as [[m rest']|] eqn:E; [|discriminate].
    intros [= _ <-]. apply parse_natural_length in E. simpl. lia.
  - destruct (parse_natural (c :: r)) as [[m rest']|] eqn:E; [|discriminate].
    intros [= _ <-]. now apply parse_natural_length in E.
Qed.

Lemma expect_literal_consumes (word : jsstring) (v : json) (s : jsstring) :
  word <> [] -> consumes s (expect_literal word v s).
Proof.
  intros Hw. unfold expect_literal.
  destruct (starts_with word s) eqn:E; [|exact I]. cbn [consumes].
  destruct word as [|a word]; [contradiction|].
  destruct s as [|c s]; [discriminate|]. cbn [length skipn].
  pose proof (length_skipn (length word) s). lia.
Qed.

Lemma consumes_shorter (A : Type) (s s' : jsstring) (r : parsed A) :
  length s <= length s' -> consumes s r -> consumes s' r.
Proof. destruct r; cbn; intros; auto; lia. Qed.

Theorem parser_consumes (fuel : nat) :
  (forall s, length s < fuel -> consumes s (parse_value fuel s)) /\
  (forall s, length s < fuel -> consumes s (parse_more_items fuel s)) /\
  (forall s, length s < fuel -> consumes s (parse_member fuel s)) /\
  (forall s, length s < fuel -> consumes s (parse_more_members fuel s)).
Proof.
  induction fuel as [|fuel (IHv & IHi & IHm & IHs)].
  - repeat split; intros s H; lia.
  - assert (Hv : forall s, length s < S fuel -> consumes s (parse_value (S fuel) s)).
    { intros s Hs. cbn [parse_value].
      pose proof (skip_ws_length s) as Hws.
      destruct (skip_ws s) as [|c r] eqn:E; [exact I|].
      apply (consumes_shorter _ (c :: r) s); [simpl in *; lia|].
      cbn [length] in Hws.
      destruct (c =? 110)%N; [apply expect_literal_consumes; discriminate|].
      destruct (c =? 116)%N; [apply expect_literal_consumes; discriminate|].
      destruct (c =? 102)%N; [apply expect_literal_consumes; discriminate|].
      destruct (c =? ch_quote)%N.
      { destruct (parse_chars r) as [[t rest]|] eqn:P; [|exact I].
        apply parse_chars_length in P. cbn. lia. }
      destruct (c =? ch_lbracket)%N.
      { pose proof (skip_ws_length r) as Hr.
        destruct (skip_ws r) as [|c1 r1] eqn:E1; [exact I|].
        cbn [length] in Hr.
        destruct (c1 =? ch_rbracket)%N; [cbn; lia|].
        pose proof (IHv (c1 :: r1) ltac:(simpl; lia)) as Hx.
        destruct (parse_value fuel (c1 :: r1)) as [x rest| |];
          cbn in Hx; try exact Hx.
        pose proof (IHi rest ltac:(lia)) as Hxs.
        destruct (parse_more_items fuel rest) as [xs rest'| |];
          cbn in Hxs; try exact Hxs. cbn. lia. }
      destruct (c =? ch_lbrace)%N.
      { pose proof (skip_ws_length r) as Hr.
        destruct (skip_ws r) as [|c1 r1] eqn:E1; [exact I|].
        cbn [length] in Hr.
        destruct (c1 =? ch_rbrace)%N; [cbn; lia|].
        pose proof (IHm (c1 :: r1) ltac:(simpl; lia)) as Hx.
        destruct (parse_member fuel (c1 :: r1)) as [x rest| |];
          cbn in Hx; try exact Hx.
        pose proof (IHs rest ltac:(lia)) as Hxs.
        destruct (parse_more_members fuel rest) as [xs rest'| |];
          cbn in Hxs; try exact Hxs. cbn. lia. }
      destruct ((c =? ch_minus)%N || is_digit c); [|exact I].
      destruct (parse_number (c :: r)) as [[n rest]|] eqn:P; [|exact I].
      apply parse_number_length in P. exact P. }
    assert (Hm : forall s, length s < S fuel ->
                           consumes s (parse_member (S fuel) s)).
    { intros s Hs. cbn [parse_member].
      pose proof (skip_ws_length s) as Hws.
      destruct (skip_ws s) as [|c r] eqn:E; [exact I|].
      apply (consumes_shorter _ (c :: r) s); [simpl in *; lia|].
      cbn [length] in Hws.
      destruct (c =? ch_quote)%N; [|exact I].
      destruct (parse_chars r) as [[k rest]|] eqn:P; [|exact I].
      apply parse_chars_length in P.
      pose proof (skip_ws_length rest) as Hr.
      destruct (skip_ws rest) as [|c1 r1] eqn:E1; [exact I|].
      cbn [length] in Hr.
      destruct (c1 =? ch_colon)%N; [|exact I].
      pose proof (IHv r1 ltac:(lia)) as Hx.
      destruct (parse_value fuel r1) as [x rest'| |]; cbn in Hx;
        try exact Hx. cbn. lia. }
    split; [exact Hv|]. split; [|split; [exact Hm|]].
    + intros s Hs. cbn [parse_more_items].
      pose proof (skip_ws_length s) as Hws.
      destruct (skip_ws s) as [|c r] eqn:E; [exact I|].
      apply (consumes_shorter _ (c :: r) s); [simpl in *; lia|].
      cbn [length] in Hws.
      destruct (c =? ch_rbracket)%N; [cbn; lia|].
      destruct (c =? ch_comma)%N; [|exact I].
      pose proof (IHv r ltac:(lia)) as Hx.
      destruct (parse_value fuel r) as [x rest| |]; cbn in Hx; try exact Hx.
      pose proof (IHi rest ltac:(lia)) as Hxs.
      destruct (parse_more_items fuel rest) as [xs rest'| |];
        cbn in Hxs; try exact Hxs. cbn. lia.
    + intros s Hs. cbn [parse_more_members].
      pose proof (skip_ws_length s) as Hws.
      destruct (skip_ws s) as [|c r] eqn:E; [exact I|].
      apply (consumes_shorter _ (c :: r) s); [simpl in *; lia|].
      cbn [length] in Hws.
      destruct (c =? ch_rbrace)%N; [cbn; lia|].
      destruct (c =? ch_comma)%N; [|exact I].
      pose proof (IHm r ltac:(lia)) as Hx.
      destruct (parse_member fuel r) as [x rest| |]; cbn in Hx; try exact Hx.
      pose proof (IHs rest ltac:(lia)) as Hxs.
      destruct (parse_more_members fuel rest) as [xs rest'| |];
        cbn in Hxs; try exact Hxs. cbn. lia.
Qed.

(** [JSON.parse] never runs out of fuel. *)
Theorem parse_value_fuel (s : jsstring) :
  parse_value (parse_fuel s) s <> OutOfFuel.
Proof.
  unfold parse_fuel.
  destruct (parser_consumes (S (length s))) as [H _].
  specialize (H s ltac:(lia)). intros E. rewrite E in H. exact H.
Qed.

(** ** Base64 *)

Lemma list_ind3 (A : Type) (P : list A -> Prop) :
  P [] -> (forall a, P [a]) -> (forall a b, P [a; b]) ->
  (forall a b c rest, P rest -> P (a :: b :: c :: rest)) ->
  forall l, P l.
Proof.
  intros H0 H1 H2 H3.
  assert (H : forall l, P l /\ (forall a, P (a :: l)) /\ (forall a b, P (a :: b :: l))).
  { induction l as [|x l (Ha & Hb & Hc)]; repeat split; auto. }
  intros l. apply H.
Qed.

Lemma check_pairs_sound (f : N -> N -> bool) :
  check_below 65536 (on_pair f) = true ->
  forall a b, (a <= 255)%N -> (b <= 255)%N -> f a b = true.
Proof.
  intros H a b Ha Hb.
  assert (Hp : (b + a * 256 < 65536)%N) by lia.
  pose proof (check_below_sound _ _ H _ Hp) as H1. unfold on_pair in H1.
  rewrite N.div_add, N.Div0.mod_add in H1 by lia.
  rewrite N.div_small, N.mod_small in H1 by lia. exact H1.
Qed.

Lemma group_head (a b : N) :
  (a <= 255)%N -> (b <= 255)%N -> group_head_ok a b = true.
Proof.
  apply check_pairs_sound. vm_compute. reflexivity.
Qed.

Lemma group_tail (b c : N) :
  (b <= 255)%N -> (c <= 255)%N -> group_tail_ok b c = true.
Proof.
  apply check_pairs_sound. vm_compute. reflexivity.
Qed.

Lemma alphabet_char (n : N) : (n < 64)%N -> alphabet_char_ok n = true.
Proof.
  apply check_below_sound. vm_compute. reflexivity.
Qed.

Lemma b64_encode_split (bytes : list N) :
  b64_encode bytes = map b64_char (b64_vals bytes) ++ b64_pad bytes.
Proof.
  induction bytes as [| a | a b | a b c rest IH] using list_ind3;
    try reflexivity.
  cbn [b64_encode b64_vals b64_pad]. rewrite IH, map_app, <- app_assoc.
  reflexivity.
Qed.

Lemma is_latin1_cons (c : code_unit) (s : jsstring) :
  is_latin1 (c :: s) = true <-> (c <= 255)%N /\ is_latin1 s = true.
Proof.
  unfold is_latin1. simpl. now rewrite andb_true_iff, N.leb_le.
Qed.

Lemma b64_vals_bound (bytes : list N) :
  is_latin1 bytes = true -> Forall (fun v => (v < 64)%N) (b64_vals bytes).
Proof.
  induction bytes as [| a | a b | a b c rest IH] using list_ind3; intros H.
  - constructor.
  - apply is_latin1_cons in H as [Ha _].
    pose proof (group_head a 0 Ha ltac:(lia)) as G. split_group G.
    cbn [b64_vals]. repeat constructor; assumption.
  - apply is_latin1_cons in H as [Ha H]. apply is_latin1_cons in H as [Hb _].
    pose proof (group_head a b Ha Hb) as G. split_group G.
    pose proof (group_tail b 0 Hb ltac:(lia)) as G'. split_group G'.
    cbn [b64_vals]. repeat constructor; assumption.
  - apply is_latin1_cons in H as [Ha H]. apply is_latin1_cons in H as [Hb H].
    apply is_latin1_cons in H as [Hc H].
    pose proof (group_head a b Ha Hb) as G. split_group G.
    pose proof (group_tail b c Hb Hc) as G'. split_group G'.
    cbn [b64_vals]. repeat (constructor; [assumption|]). now apply IH.
Qed.

Lemma b64_decode_vals (bytes : list N) :
  is_latin1 bytes = true -> b64_decode (b64_vals bytes) = bytes.
Proof.
  induction bytes as [| a | a b | a b c rest IH] using list_ind3; intros H.
  - reflexivity.
  - apply is_latin1_cons in H as [Ha _].
    pose proof (group_head a 0 Ha ltac:(lia)) as G. split_group G.
    cbn [b64_vals b64_decode]. congruence.
  - apply is_latin1_cons in H as [Ha H]. apply is_latin1_cons in H as [Hb _].
    pose proof (group_head a b Ha Hb) as G. split_group G.
    pose proof (group_tail b 0 Hb ltac:(lia)) as G'. split_group G'.
    cbn [b64_vals b64_decode]. congruence.
  - apply is_latin1_cons in H as [Ha H]. apply is_latin1_cons in H as [Hb H].
    apply is_latin1_cons in H as [Hc H].
    pose proof (group_head a b Ha Hb) as G. split_group G.
    pose proof (group_tail b c Hb Hc) as G'. split_group G'.
    cbn [b64_vals b64_decode app]. rewrite (IH H). congruence.
Qed.

Lemma sextets_chars (vals : list N) :
  Forall (fun v => (v < 64)%N) vals -> sextets (map b64_char vals) = Some vals.
Proof.
  induction 1 as [|v vals Hv _ IH]; [reflexivity|].
  pose proof (alphabet_char v Hv) as A. split_alphabet A.
  cbn [map sextets]. rewrite IH.
  destruct (b64_val (b64_char v)) as [m|]; [|discriminate].
  apply N.eqb_eq in A. now subst.
Qed.

Lemma filter_ws_chars (vals : list N) (k : nat) :
  Forall (fun v => (v < 64)%N) vals ->
  filter (fun c => negb (is_ascii_ws c))
         (map b64_char vals ++ repeat ch_equals k)
  = map b64_char vals ++ repeat ch_equals k.
Proof.
  induction 1 as [|v vals Hv _ IH].
  - induction k as [|k IHk]; [reflexivity|]. simpl in *. now rewrite IHk.
  - pose proof (alphabet_char v Hv) as A. split_alphabet A.
    cbn [map app filter]. rewrite IH.
    now replace (is_ascii_ws (b64_char v)) with false.
Qed.

Lemma b64_pad_repeat (bytes : list N) :
  b64_pad bytes = repeat ch_equals (length (b64_pad bytes)).
Proof.
  induction bytes as [| a | a b | a b c rest IH] using list_ind3;
    try reflexivity. exact IH.
Qed.

(** The rendering has [4 * groups] characters; its last group holds 0, 2 or 3
    characters before the padding. *)
Lemma b64_lengths (bytes : list N) :
  exists groups tail,
    length (b64_vals bytes) = tail + groups * 4 /\
    ((tail = 0 /\ length (b64_pad bytes) = 0) \/
     (tail = 2 /\ length (b64_pad bytes) = 2) \/
     (tail = 3 /\ length (b64_pad bytes) = 1)).
Proof.
  induction bytes as [| a | a b | a b c rest IH] using list_ind3.
  - exists 0, 0. simpl. auto.
  - exists 0, 2. simpl. auto.
  - exists 0, 3. simpl. auto.
  - destruct IH as (g & t & E & H). exists (S g), t.
    cbn [b64_vals b64_pad length app]. rewrite E. split; [lia|exact H].
Qed.

Lemma b64_pad_count (bytes : list N) :
  length (b64_pad bytes) = (4 - length (b64_vals bytes) mod 4) mod 4.
Proof.
  destruct (b64_lengths bytes) as (g & t & E & H). rewrite E.
  rewrite Nat.Div0.mod_add.
  destruct H as [[-> ->]|[[-> ->]|[-> ->]]]; reflexivity.
Qed.

Lemma b64_length_mod (bytes : list N) :
  length (b64_vals bytes) mod 4 <> 1 /\
  (length (b64_vals bytes) + length (b64_pad bytes)) mod 4 = 0.
Proof.
  destruct (b64_lengths bytes) as (g & t & E & H). rewrite E.
  destruct H as [[-> ->]|[[-> ->]|[-> ->]]].
  - rewrite Nat.add_0_r, Nat.Div0.mod_add. split; [discriminate|reflexivity].
  - replace (2 + g * 4 + 2) with (0 + (S g) * 4) by lia.
    rewrite !Nat.Div0.mod_add. split; [discriminate|reflexivity].
  - replace (3 + g * 4 + 1) with (0 + (S g) * 4) by lia.
    rewrite !Nat.Div0.mod_add. split; [discriminate|reflexivity].
Qed.

(** [remove_padding] takes the padding of a rendering away. *)
Lemma remove_padding_body (body : jsstring) (k : nat) :
  Forall (fun c => c <> ch_equals) body -> k <= 2 ->
  remove_padding (body ++ repeat ch_equals k) = body.
Proof.
  intros Hbody Hk. unfold remove_padding. rewrite rev_app_distr, rev_repeat.
  assert (Hrev : Forall (fun c => c <> ch_equals) (rev body)).
  { apply Forall_forall. intros c Hc. rewrite Forall_forall in Hbody.
    apply Hbody. now apply in_rev. }
  pose proof (rev_involutive body) as Hinv.
  destruct k as [|[|[|k]]]; [| | |lia]; cbn [repeat app].
  - rewrite <- (app_nil_r body) at 2. simpl.
    destruct (rev body) as [|c1 [|c2 r]]; try reflexivity.
    + inversion Hrev; subst. apply N.eqb_neq in H1. now rewrite H1, app_nil_r.
    + inversion Hrev; subst. apply N.eqb_neq in H1. now rewrite H1, app_nil_r.
  - destruct (rev body) as [|c2 r].
    + simpl in Hinv. subst. reflexivity.
    + inversion Hrev; subst. apply N.eqb_neq in H1.
      change (ch_equals =? ch_equals)%N with true. cbv iota.
      rewrite H1. reflexivity.
  - change (ch_equals =? ch_equals)%N with true. cbv iota. exact Hinv.
Qed.

Lemma chars_not_equals (vals : list N) :
  Forall (fun v => (v < 64)%N) vals ->
  Forall (fun c => c <> ch_equals) (map b64_char vals).
Proof.
  induction 1 as [|v vals Hv _ IH]; constructor; [|exact IH].
  pose proof (alphabet_char v Hv) as A. split_alphabet A.
  now apply N.eqb_neq.
Qed.

Theorem atob_btoa (s : jsstring) :
  is_latin1 s = true -> cbind (btoa s) atob = Normal s.
Proof.
  intros H. unfold btoa. rewrite H. cbn [cbind]. unfold atob.
  pose proof (b64_vals_bound s H) as Hb.
  destruct (b64_length_mod s) as [Hmod1 Hmod0].
  pose proof (b64_lengths s) as (g & t & _ & Hk).
  assert (Hk2 : length (b64_pad s) <= 2) by lia.
  rewrite b64_encode_split, b64_pad_repeat, (filter_ws_chars _ _ Hb).
  rewrite length_app, length_map, repeat_length, Hmod0. cbn [Nat.eqb].
  rewrite (remove_padding_body _ _ (chars_not_equals _ Hb) Hk2).
  rewrite length_map.
  destruct (Nat.eqb_spec (length (b64_vals s) mod 4) 1) as [E|_];
    [contradiction|].
  now rewrite (sextets_chars _ Hb), (b64_decode_vals _ H).
Qed.

(** ** The URL-safe spelling *)

Lemma replace_backward (s : jsstring) :
  replace_all ch_underscore ch_slash (replace_all ch_minus ch_plus s)
  = map url_backward s.
Proof. unfold replace_all. rewrite map_map. reflexivity. Qed.

Lemma replace_forward (s : jsstring) :
  replace_all ch_slash ch_underscore (replace_all ch_plus ch_minus s)
  = map url_forward s.
Proof. unfold replace_all. rewrite map_map. reflexivity. Qed.

Lemma map_repeat_equals (f : code_unit -> code_unit) (k : nat) :
  f ch_equals = ch_equals -> map f (repeat ch_equals k) = repeat ch_equals k.
Proof. intros H. induction k as [|k IH]; simpl; congruence. Qed.

Lemma backward_chars (vals : list N) :
  Forall (fun v => (v < 64)%N) vals ->
  map url_backward (map b64_char vals) = map b64_char vals /\
  map url_backward (map url_forward (map b64_char vals)) = map b64_char vals /\
  Forall (fun c => c <> ch_equals) (map url_forward (map b64_char vals)).
Proof.
  induction 1 as [|v vals Hv _ (IH1 & IH2 & IH3)].
  - repeat split; constructor.
  - pose proof (alphabet_char v Hv) as A. split_alphabet A.
    cbn [map]. rewrite IH1, IH2. repeat split; try congruence.
    constructor; [now apply N.eqb_neq|exact IH3].
Qed.

Lemma drop_equals_repeat (k : nat) (s : jsstring) :
  drop_equals (repeat ch_equals k ++ s) = drop_equals s.
Proof. induction k as [|k IH]; [reflexivity|]. simpl. exact IH. Qed.

Lemma strip_padding_body (body : jsstring) (k : nat) :
  Forall (fun c => c <> ch_equals) body ->
  strip_padding (body ++ repeat ch_equals k) = body.
Proof.
  intros Hbody. unfold strip_padding.
  rewrite rev_app_distr, rev_repeat, drop_equals_repeat.
  assert (Hrev : Forall (fun c => c <> ch_equals) (rev body)).
  { apply Forall_forall. intros c Hc. rewrite Forall_forall in Hbody.
    apply Hbody. now apply in_rev. }
  destruct (rev body) as [|c r] eqn:E.
  - rewrite <- (rev_involutive body), E. reflexivity.
  - inversion Hrev as [|? ? Hc _]; subst. apply N.eqb_neq in Hc.
    cbn [drop_equals]. rewrite Hc, <- E. apply rev_involutive.
Qed.

(** What [decodeSdp] hands to [atob], for either spelling of [btoa s]. *)
Lemma padded_standard (s : jsstring) :
  is_latin1 s = true -> decodeSdp_padded (b64_encode s) = b64_encode s.
Proof.
  intros H. unfold decodeSdp_padded. cbv zeta. rewrite replace_backward.
  pose proof (b64_vals_bound s H) as Hb.
  destruct (backward_chars _ Hb) as (B1 & _ & _).
  destruct (b64_length_mod s) as [_ Hmod0].
  rewrite b64_encode_split, b64_pad_repeat, map_app, B1.
  rewrite (map_repeat_equals url_backward _ eq_refl).
  rewrite length_app, length_map, repeat_length, Hmod0.
  unfold repeat_unit. simpl. apply app_nil_r.
Qed.

Lemma padded_url (s : jsstring) :
  is_latin1 s = true ->
  decodeSdp_padded (to_base64url (b64_encode s)) = b64_encode s.
Proof.
  intros H. unfold decodeSdp_padded. cbv zeta. unfold to_base64url.
  rewrite replace_backward, replace_forward.
  pose proof (b64_vals_bound s H) as Hb.
  destruct (backward_chars _ Hb) as (_ & B2 & B3).
  rewrite b64_encode_split, b64_pad_repeat, map_app.
  rewrite (map_repeat_equals url_forward _ eq_refl).
  rewrite (strip_padding_body _ _ B3), B2, length_map.
  unfold repeat_unit. now rewrite <- b64_pad_count.
Qed.

(** ** [decodeSdp] and [encodeSdp] *)

Lemma decodeSdp_of_padded (x : json) (s : jsstring) :
  json_wf x = true -> is_latin1 (JSON_stringify x) = true ->
  decodeSdp_padded s = b64_encode (JSON_stringify x) ->
  decodeSdp (JStr s) = Normal x.
Proof.
  intros Hwf Hlat Hpad. unfold decodeSdp, decodeSdp_try. rewrite Hpad.
  pose proof (atob_btoa _ Hlat) as Hatob. unfold btoa in Hatob.
  rewrite Hlat in Hatob. cbn [cbind] in Hatob. rewrite Hatob.
  cbn [cbind]. now rewrite (JSON_parse_stringify x Hwf).
Qed.

Lemma decodeSdp_never_throws (encoded : json) :
  exists v, decodeSdp encoded = Normal v.
Proof.
  unfold decodeSdp. destruct (decodeSdp_try encoded) as [v|e]; simpl; eauto.
Qed.

(** * Facts about the RelayClient *)

Lemma starts_with_app (p s : jsstring) : starts_with p (p ++ s) = true.
Proof.
  induction p as [|c p IH]; [reflexivity|]. simpl. now rewrite N.eqb_refl.
Qed.

Lemma decodeSdp_value_decoded (v : jsval) :
  decodeSdp_value v = Normal (decoded v).
Proof.
  unfold decoded. destruct v as [|j|a]; try reflexivity. simpl.
  destruct (decodeSdp_never_throws j) as [x ->]. reflexivity.
Qed.

(** *** Property access on data *)

Lemma array_get_data (items : list json) (k : jsstring) :
  forall i, is_function (array_get items i k) = false.
Proof.
  induction items as [|x items IH]; intros i; [reflexivity|].
  cbn [array_get]. destruct (jsstring_eqb k (print_N i)); [reflexivity|apply IH].
Qed.

Lemma string_get_data (s : jsstring) (k : jsstring) :
  forall i, is_function (string_get s i k) = false.
Proof.
  induction s as [|c s IH]; intros i; [reflexivity|].
  cbn [string_get]. destruct (jsstring_eqb k (print_N i)); [reflexivity|apply IH].
Qed.

Lemma lookup_prop_data (k : jsstring) (props : list (jsstring * json)) :
  is_function (lookup_prop k props) = false.
Proof.
  induction props as [|[k' v] props IH]; [reflexivity|].
  cbn [lookup_prop]. destruct (jsstring_eqb k k'); [reflexivity|exact IH].
Qed.

(** A property of a datum other than [null] is read without an error, and,
    unless it is [with], it is a datum or nothing. *)
Lemma get_data (j : json) (k : jsstring) :
  j <> JNull -> jsstring_eqb k key_with = false ->
  exists v, get (VData j) k = Normal v /\ is_function v = false.
Proof.
  intros Hj Hk. destruct j as [|b|n|s|items|props]; cbn [get];
    try contradiction; try (eexists; split; reflexivity).
  - eexists; split; [reflexivity|].
    destruct (jsstring_eqb k key_length); [reflexivity|apply string_get_data].
  - eexists; split; [reflexivity|]. rewrite Hk.
    destruct (jsstring_eqb k key_length); [reflexivity|apply array_get_data].
  - eexists; split; [reflexivity|]. apply lookup_prop_data.
Qed.

(** [candidateObj] always has its three fields. *)
Lemma candidateObj_fields (candidate : json) :
  candidate <> JNull ->
  candidateObj candidate =
  Normal (JObj [(lit "candidate", field_candidate candidate);
                (lit "sdpMLineIndex", field_sdpMLineIndex candidate);
                (lit "sdpMid", field_sdpMid candidate)]).
Proof.
  intros Hj. unfold candidateObj, field_candidate, field_sdpMLineIndex,
    field_sdpMid.
  destruct (get_data candidate (lit "candidate") Hj eq_refl) as (c & -> & Hc).
  destruct (get_data candidate (lit "sdpMLineIndex") Hj eq_refl)
    as (i & -> & Hi).
  destruct (get_data candidate (lit "sdpMid") Hj eq_refl) as (m & -> & Hm).
  cbn [cbind]. unfold js_or.
  destruct c as [|c|?]; [| |discriminate];
    destruct i as [|i|?]; try discriminate;
    destruct m as [|m|?]; try discriminate;
    try destruct (truthy (VData c)); try destruct (truthy (VData m));
    reflexivity.
Qed.

Section RelayFacts.

Variable encodeURIComponent : jsstring -> jsstring.

Lemma proxy_url_is_proxied (url : jsstring) :
  starts_with proxy_prefix (dweetProxyUrl encodeURIComponent url) = true.
Proof. apply starts_with_app. Qed.

(** The request goes to the relay and, when the relay is unreachable, once
    more through the proxy. *)
Lemma direct_then_proxy_run (mk : jsstring -> request) (url : jsstring)
  (w : world) :
  starts_with proxy_prefix (req_url (mk url)) = false ->
  starts_with proxy_prefix
    (req_url (mk (dweetProxyUrl encodeURIComponent url))) = true ->
  let req := mk url in
  let preq := mk (dweetProxyUrl encodeURIComponent url) in
  let w' := snd (direct_then_proxy encodeURIComponent mk url w) in
  fst (direct_then_proxy encodeURIComponent mk url w)
    = settle (effective w (served w) req preq) /\
  direct w' = direct w /\ proxied w' = proxied w /\
  served w' = S (served w) /\
  trace w' = trace w ++ fetches w (served w) req preq.
Proof.
  intros Hd Hp. cbv zeta.
  unfold direct_then_proxy, try_catch, fetch, effective, fetches.
  rewrite Hd.
  destruct (direct w (served w) (mk url)) as [|r]; cbn [settle].
  - rewrite Hp. cbn [fst snd count_served record served proxied direct trace
                     Nat.pred].
    rewrite <- app_assoc. repeat split; reflexivity.
  - cbn. repeat split; reflexivity.
Qed.

(** *** [storeSdpOnDweet] *)

Lemma storeSdpOnDweet_run (sessionId : jsstring) (sdp : json)
  (type : jsstring) (w : world) (enc : jsstring) :
  encodeSdp sdp = Normal enc ->
  let url := sdp_topic_url sessionId type in
  let body := sdp_body type enc (clock w) in
  let req := post_request url body in
  let preq := post_request (dweetProxyUrl encodeURIComponent url) body in
  let run := storeSdpOnDweet encodeURIComponent sessionId sdp type w in
  fst run =
    Normal match effective w (served w) req preq with
           | Responded r => ok r
           | Unreachable => false
           end /\
  trace (snd run) = trace w ++ fetches w (served w) req preq.
Proof.
  intros Henc. cbv zeta.
  unfold storeSdpOnDweet, bind, lift, Date_now, try_catch, ret, throw.
  rewrite Henc. cbv beta iota.
  pose proof (direct_then_proxy_run
                (fun u => post_request u (sdp_body type enc (clock w)))
                (sdp_topic_url sessionId type) w eq_refl
                (proxy_url_is_proxied _)) as H.
  cbv zeta in H. destruct H as (Hr & _ & _ & _ & Ht).
  destruct (direct_then_proxy _ _ _ w) as [r w'].
  cbn [fst snd] in Hr, Ht. rewrite Hr.
  destruct (effective _ _ _ _) as [|resp]; cbn [settle].
  - split; [reflexivity|exact Ht].
  - destruct (ok resp); cbn [negb fst snd]; split; try reflexivity; exact Ht.
Qed.

(** *** [storeIceCandidateOnDweet] *)

Lemma storeIceCandidateOnDweet_null (sessionId : jsstring) (isOfferer : bool)
  (w : world) :
  storeIceCandidateOnDweet encodeURIComponent sessionId JNull isOfferer w
  = (Normal false, w).
Proof. reflexivity. Qed.

Lemma storeIceCandidateOnDweet_run (sessionId : jsstring) (candidate : json)
  (isOfferer : bool) (w : world) :
  candidate <> JNull ->
  let url := ice_topic_url sessionId isOfferer in
  let obj := JObj [(lit "candidate", field_candidate candidate);
                   (lit "sdpMLineIndex", field_sdpMLineIndex candidate);
                   (lit "sdpMid", field_sdpMid candidate)] in
  let body := ice_body obj (clock w) in
  let req := post_request url body in
  let preq := post_request (dweetProxyUrl encodeURIComponent url) body in
  let run := storeIceCandidateOnDweet encodeURIComponent sessionId candidate
               isOfferer w in
  fst run =
    Normal match effective w (served w) req preq with
           | Responded r => ok r
           | Unreachable => false
           end /\
  trace (snd run) = trace w ++ fetches w (served w) req preq.
Proof.
  intros Hj. cbv zeta.
  unfold storeIceCandidateOnDweet, bind, lift, Date_now, try_catch, ret.
  rewrite (candidateObj_fields candidate Hj). cbv beta iota.
  assert (Hurl : starts_with proxy_prefix (ice_topic_url sessionId isOfferer)
                 = false) by reflexivity.
  pose proof (direct_then_proxy_run
                (fun u => post_request u
                   (ice_body
                      (JObj [(lit "candidate", field_candidate candidate);
                             (lit "sdpMLineIndex",
                              field_sdpMLineIndex candidate);
                             (lit "sdpMid", field_sdpMid candidate)])
                      (clock w)))
                (ice_topic_url sessionId isOfferer) w Hurl
                (proxy_url_is_proxied _)) as H.
  cbv zeta in H. destruct H as (Hr & _ & _ & _ & Ht).
  destruct (direct_then_proxy _ _ _ w) as [r w'].
  cbn [fst snd] in Hr, Ht. rewrite Hr.
  destruct (effective _ _ _ _) as [|resp]; cbn [settle fst snd];
    split; try reflexivity; exact Ht.
Qed.

(** *** One attempt of [retrieveSdpFromDweet] *)

Lemma retrieve_attempt_run (url : jsstring) (attempt maxRetries : nat)
  (w : world) :
  starts_with proxy_prefix url = false ->
  let req := get_request url in
  let preq := get_request (dweetProxyUrl encodeURIComponent url) in
  let result := classify (effective w (served w) req preq) in
  let run := retrieve_attempt encodeURIComponent url attempt maxRetries w in
  fst run = Normal (attempt_turn result attempt maxRetries) /\
  direct (snd run) = direct w /\ proxied (snd run) = proxied w /\
  served (snd run) = S (served w) /\
  trace (snd run) =
    trace w ++ fetches w (served w) req preq ++
    attempt_pause result attempt maxRetries.
Proof.
  intros Hurl. cbv zeta.
  unfold retrieve_attempt, bind, lift, try_catch, ret, throw, sleep.
  cbv beta iota.
  pose proof (direct_then_proxy_run get_request url w Hurl
                (proxy_url_is_proxied _)) as H.
  cbv zeta in H. destruct H as (Hr & Hd & Hp & Hs & Ht).
  destruct (direct_then_proxy _ _ _ w) as [r w'].
  cbn [fst snd] in Hr, Hd, Hp, Hs, Ht. rewrite Hr.
  unfold classify.
  destruct (effective _ _ _ _) as [|resp]; cbn [settle].
  - unfold attempt_turn, attempt_pause.
    destruct (attempt <? maxRetries); cbn;
      rewrite ?Ht, ?app_nil_r, <- ?app_assoc; auto.
  - destruct (ok resp); cbn [negb].
    + destruct (json_body resp) as [data|e].
      * destruct (sdp_of_answer data) as [v|e].
        -- destruct (truthy v).
           ++ rewrite decodeSdp_value_decoded. cbn.
              rewrite ?Ht, ?app_nil_r. auto.
           ++ cbn. rewrite ?Ht, ?app_nil_r. auto.
        -- unfold attempt_turn, attempt_pause.
           destruct (attempt <? maxRetries); cbn;
             rewrite ?Ht, ?app_nil_r, <- ?app_assoc; auto.
      * unfold attempt_turn, attempt_pause.
        destruct (attempt <? maxRetries); cbn;
          rewrite ?Ht, ?app_nil_r, <- ?app_assoc; auto.
    + unfold attempt_turn, attempt_pause.
      destruct (attempt <? maxRetries); cbn;
        rewrite ?Ht, ?app_nil_r, <- ?app_assoc; auto.
Qed.

Lemma effective_same_relay (w w' : world) (n : nat) (req preq : request) :
  direct w' = direct w -> proxied w' = proxied w ->
  effective w' n req preq = effective w n req preq /\
  fetches w' n req preq = fetches w n req preq.
Proof. unfold effective, fetches. now intros -> ->. Qed.

Lemma loop_events_same_relay (w w' : world) (req preq : request)
  (maxRetries count : nat) :
  direct w' = direct w -> proxied w' = proxied w ->
  forall attempt n,
    loop_events w' req preq maxRetries attempt n count =
    loop_events w req preq maxRetries attempt n count.
Proof.
  intros Hd Hp. induction count as [|count IH]; intros attempt n;
    [reflexivity|].
  cbn [loop_events]. destruct (effective_same_relay w w' n req preq Hd Hp)
    as [-> ->]. now rewrite IH.
Qed.

Lemma first_payload_same_relay (w w' : world) (req preq : request) :
  direct w' = direct w -> proxied w' = proxied w ->
  forall count n,
    first_payload (fun i => classify (effective w' i req preq)) n count =
    first_payload (fun i => classify (effective w i req preq)) n count.
Proof.
  intros Hd Hp. induction count as [|count IH]; intros n; [reflexivity|].
  cbn [first_payload]. destruct (effective_same_relay w w' n req preq Hd Hp)
    as [-> _]. now rewrite IH.
Qed.

Lemma first_payload_range (result : nat -> attempt_result) (count : nat) :
  forall n k enc,
    first_payload result n count = Some (k, enc) ->
    n <= k < n + count /\ result k = Payload enc.
Proof.
  induction count as [|count IH]; intros n k enc H; [discriminate|].
  cbn [first_payload] in H. destruct (result n) as [e| |] eqn:E.
  - injection H as <- <-. split; [lia|exact E].
  - destruct (IH _ _ _ H). split; [lia|assumption].
  - destruct (IH _ _ _ H). split; [lia|assumption].
Qed.

Lemma retrieve_loop_cons (url : jsstring) (maxRetries attempt : nat)
  (rest : list nat) (w : world) :
  retrieve_loop encodeURIComponent url maxRetries (attempt :: rest) w =
  match retrieve_attempt encodeURIComponent url attempt maxRetries w with
  | (Normal (Return v), w1) => (Normal v, w1)
  | (Normal Next, w1) =>
      retrieve_loop encodeURIComponent url maxRetries rest w1
  | (Throw e, w1) => (Throw e, w1)
  end.
Proof.
  cbn [retrieve_loop]. unfold bind.
  destruct (retrieve_attempt _ _ _ _ w) as [[[v|]|e] w1]; reflexivity.
Qed.

(** The loop over the attempts that are left. *)
Lemma retrieve_loop_run (url : jsstring) (maxRetries : nat) :
  starts_with proxy_prefix url = false ->
  let req := get_request url in
  let preq := get_request (dweetProxyUrl encodeURIComponent url) in
  forall count attempt w,
    attempt + count = S maxRetries ->
    let result := fun n => classify (effective w n req preq) in
    let run := retrieve_loop encodeURIComponent url maxRetries
                 (seq attempt count) w in
    match first_payload result (served w) count with
    | Some (k, enc) =>
        fst run = Normal (decoded enc) /\
        served (snd run) = S k /\
        trace (snd run) =
          trace w ++ loop_events w req preq maxRetries attempt (served w)
                       (S k - served w)
    | None =>
        fst run = Normal JNull /\
        served (snd run) = served w + count /\
        trace (snd run) =
          trace w ++ loop_events w req preq maxRetries attempt (served w) count
    end.
Proof.
  intros Hurl req preq. induction count as [|count IH]; intros attempt w Hsum.
  - cbn. rewrite app_nil_r, Nat.add_0_r. auto.
  - cbv zeta. cbn [seq first_payload]. cbv beta.
    rewrite retrieve_loop_cons.
    destruct (retrieve_attempt_run url attempt maxRetries w Hurl)
      as (Hr & Hd & Hp & Hs & Ht).
    fold req preq in Hr, Ht.
    destruct (retrieve_attempt encodeURIComponent url attempt maxRetries w)
      as [t w1].
    cbn [fst snd] in Hr, Hd, Hp, Hs, Ht. rewrite Hr. clear Hr.
    specialize (IH (S attempt) w1 ltac:(lia)). cbv zeta in IH.
    rewrite (first_payload_same_relay w w1 req preq Hd Hp) in IH.
    rewrite Hs in IH.
    destruct (classify (effective w (served w) req preq)) as [enc| |] eqn:E;
      cbn [attempt_turn attempt_pause] in *.
    + cbn [ret fst snd]. rewrite Hs, Ht.
      replace (S (served w) - served w) with 1 by lia.
      cbn [loop_events]. rewrite E. cbn [attempt_pause].
      rewrite !app_nil_r. auto.
    + destruct (first_payload _ (S (served w)) count) as [[k enc]|] eqn:F.
      * destruct IH as (I1 & I2 & I3). split; [exact I1|]. split; [exact I2|].
        apply first_payload_range in F as [F _].
        replace (S k - served w) with (S (S k - S (served w))) by lia.
        cbn [loop_events]. rewrite E. cbn [attempt_pause].
        rewrite I3, Ht, (loop_events_same_relay w w1 req preq _ _ Hd Hp).
        now rewrite !app_nil_r, <- !app_assoc.
      * destruct IH as (I1 & I2 & I3). split; [exact I1|]. split; [lia|].
        cbn [loop_events]. rewrite E. cbn [attempt_pause].
        rewrite I3, Ht, (loop_events_same_relay w w1 req preq _ _ Hd Hp).
        now rewrite !app_nil_r, <- !app_assoc.
    + destruct (Nat.ltb_spec attempt maxRetries) as [Hlt|Hge].
      * destruct (first_payload _ (S (served w)) count) as [[k enc]|] eqn:F.
        -- destruct IH as (I1 & I2 & I3). split; [exact I1|].
           split; [exact I2|].
           apply first_payload_range in F as [F _].
           replace (S k - served w) with (S (S k - S (served w))) by lia.
           cbn [loop_events]. rewrite E. cbn [attempt_pause].
           replace (attempt <? maxRetries) with true
             by (symmetry; now apply Nat.ltb_lt).
           rewrite I3, Ht, (loop_events_same_relay w w1 req preq _ _ Hd Hp).
           now rewrite <- !app_assoc.
        -- destruct IH as (I1 & I2 & I3). split; [exact I1|]. split; [lia|].
           cbn [loop_events]. rewrite E. cbn [attempt_pause].
           replace (attempt <? maxRetries) with true
             by (symmetry; now apply Nat.ltb_lt).
           rewrite I3, Ht, (loop_events_same_relay w w1 req preq _ _ Hd Hp).
           now rewrite <- !app_assoc.
      * assert (count = 0) by lia. subst count.
        cbn [first_payload ret fst snd loop_events]. rewrite E.
        cbn [attempt_pause].
        replace (attempt <? maxRetries) with false
          by (symmetry; now apply Nat.ltb_ge).
        rewrite Hs, Ht, !app_nil_r. split; [reflexivity|]. split; [lia|].
        reflexivity.
Qed.

(** *** [retrieveIceCandidatesFromDweet] *)

Variable string_gt_zero : jsstring -> bool.

Lemma retrieveIceCandidatesFromDweet_run (sessionId : jsstring)
  (isOfferer : bool) (w : world) :
  let url := ice_fetch_url sessionId isOfferer in
  let req := get_request url in
  let preq := get_request (dweetProxyUrl encodeURIComponent url) in
  let run := retrieveIceCandidatesFromDweet encodeURIComponent string_gt_zero
               sessionId isOfferer w in
  fst run = Normal (ice_result string_gt_zero
                      (effective w (served w) req preq)) /\
  trace (snd run) = trace w ++ fetches w (served w) req preq.
Proof.
  cbv zeta.
  unfold retrieveIceCandidatesFromDweet, bind, lift, try_catch, ret.
  assert (Hurl : starts_with proxy_prefix (ice_fetch_url sessionId isOfferer)
                 = false) by reflexivity.
  pose proof (direct_then_proxy_run get_request
                (ice_fetch_url sessionId isOfferer) w Hurl
                (proxy_url_is_proxied _)) as H.
  cbv zeta in H. destruct H as (Hr & _ & _ & _ & Ht).
  destruct (direct_then_proxy _ _ _ w) as [r w'].
  cbn [fst snd] in Hr, Ht. rewrite Hr. unfold ice_result.
  destruct (effective _ _ _ _) as [|resp]; cbn [settle fst snd].
  - split; [reflexivity|exact Ht].
  - destruct (ok resp); cbn [negb fst snd]; [|split; [reflexivity|exact Ht]].
    destruct (json_body resp) as [data|e]; cbn [fst snd];
      [|split; [reflexivity|exact Ht]].
    destruct (ice_of_answer string_gt_zero data) as [a|e]; cbn [fst snd];
      split; try reflexivity; exact Ht.
Qed.

(** The envelope of the relay is accepted. *)
Lemma ice_of_envelope (props : list (jsstring * json)) (created : json)
  (older : list json) (c : json) :
  lookup_prop (lit "candidate") props = VData c ->
  truthy (VData c) = true ->
  ice_of_answer string_gt_zero (envelope (JObj props) created older) =
  Normal (Some {| ice_candidate := VData c;
                  ice_timestamp :=
                    js_or (lookup_prop (lit "timestamp") props)
                          (VData created) |}).
Proof.
  intros Hc Ht. unfold ice_of_answer, envelope.
  cbn [get lookup_prop jsstring_eqb key_with lit map list_ascii_of_string
       N_of_ascii N.eqb Pos.eqb andb truthy cbind].
  change (jsstring_eqb key_length key_length) with true. cbv iota.
  cbn [gt_zero length cbind].
  replace (0 <? Z.of_nat (S (length older)))%Z with true
    by (symmetry; apply Z.ltb_lt; lia).
  cbv iota. cbn in Hc, Ht |- *. rewrite Hc. cbn. rewrite Ht.
  unfold js_or. destruct (truthy (lookup_prop _ props)); reflexivity.
Qed.


(** [retrieveSdpFromDweet] finds the description in either shape. *)
Lemma sdp_of_bare_object (props : list (jsstring * json)) :
  lookup_prop key_with props = VUndefined ->
  lookup_prop (lit "content") props = VUndefined ->
  sdp_of_answer (JObj props) =
  Normal (js_or (lookup_prop (lit "sdp") props)
                (lookup_prop (lit "offer") props)).
Proof.
  intros Hw Hc. unfold sdp_of_answer. cbn [get cbind]. rewrite Hw.
  cbn [truthy cbind get]. rewrite Hc. cbn [truthy cbind get].
  unfold js_or. destruct (truthy (lookup_prop (lit "sdp") props)); reflexivity.
Qed.

Lemma sdp_of_envelope (props : list (jsstring * json)) (created : json)
  (older : list json) :
  sdp_of_answer (envelope (JObj props) created older) =
  Normal (js_or (lookup_prop (lit "sdp") props)
                (lookup_prop (lit "offer") props)).
Proof.
  unfold sdp_of_answer, envelope. cbn. unfold js_or.
  destruct (truthy (lookup_prop _ props)); reflexivity.
Qed.



Lemma first_payload_none (result : nat -> attempt_result) (count : nat) :
  forall n,
    (forall i, n <= i < n + count -> forall enc, result i <> Payload enc) ->
    first_payload result n count = None.
Proof.
  induction count as [|count IH]; intros n H; [reflexivity|].
  cbn [first_payload]. destruct (result n) as [enc| |] eqn:E.
  - exfalso. apply (H n ltac:(lia) enc E).
  - apply IH. intros i Hi. apply H. lia.
  - apply IH. intros i Hi. apply H. lia.
Qed.


Lemma retrieveSdpFromDweet_first (sessionId type : jsstring)
  (maxRetries : nat) (w : world) (enc : jsval) :
  let url := sdp_fetch_url encodeURIComponent sessionId type in
  let req := get_request url in
  let preq := get_request (dweetProxyUrl encodeURIComponent url) in
  1 <= maxRetries ->
  classify (effective w (served w) req preq) = Payload enc ->
  fst (retrieveSdpFromDweet encodeURIComponent sessionId type maxRetries w)
  = decodeSdp_value enc.
Proof.
  cbv zeta. intros Hmax H. unfold retrieveSdpFromDweet.
  pose proof (retrieve_loop_run
                (sdp_fetch_url encodeURIComponent sessionId type) maxRetries
                eq_refl maxRetries 1 w eq_refl) as L.
  cbv zeta in L. destruct maxRetries as [|m]; [lia|].
  cbn [first_payload] in L. rewrite H in L.
  rewrite decodeSdp_value_decoded. apply L.
Qed.

End RelayFacts.

(** * Facts about the ConnectionCoordinator *)

(** ** The bounded wait *)

(** The description set and the script of the engine do not change while
    the loop runs. *)
Lemma next_task_keeps (st : waiting) :
  local (wait_pc (next_task st)) = local (wait_pc st) /\
  script (wait_pc (next_task st)) = script (wait_pc st) /\
  remoteDescription (wait_pc (next_task st)) = remoteDescription (wait_pc st) /\
  candidates (wait_pc (next_task st)) = candidates (wait_pc st).
Proof.
  unfold next_task, gathering_changes, timer_fires, on_gathering_change,
    resolve.
  destruct (upcoming (wait_pc st)) as [|[gap s] rest];
    destruct (wait_timer st) as [due|]; cbn;
    repeat match goal with
           | |- context [if ?b then _ else _] => destruct b; cbn
           | |- context [match wait_settled st with _ => _ end] =>
               destruct (wait_settled st); cbn
           end; auto.
Qed.

Lemma run_until_settled_keeps (fuel : nat) :
  forall st,
    local (wait_pc (run_until_settled fuel st)) = local (wait_pc st) /\
    script (wait_pc (run_until_settled fuel st)) = script (wait_pc st) /\
    remoteDescription (wait_pc (run_until_settled fuel st))
      = remoteDescription (wait_pc st) /\
    candidates (wait_pc (run_until_settled fuel st)) = candidates (wait_pc st).
Proof.
  induction fuel as [|fuel IH]; intros st; cbn [run_until_settled].
  - destruct (wait_settled st); auto.
  - destruct (wait_settled st); [auto|].
    destruct (IH (next_task st)) as (A & B & C & D).
    destruct (next_task_keeps st) as (A' & B' & C' & D').
    repeat split; congruence.
Qed.

(** The pending wait settles at the first change to [complete] or when the
    timer is due, whichever comes first. *)
Lemma run_until_settled_end (changes : list (nat * gathering_state)) :
  forall fuel st due,
    upcoming (wait_pc st) = changes ->
    wait_timer st = Some due ->
    wait_settled st = None ->
    wait_now st <= due ->
    length changes < fuel ->
    wait_settled (run_until_settled fuel st) =
    Some match first_complete (wait_now st) due changes with
         | Some t => t
         | None => due
         end.
Proof.
  induction changes as [|[gap s] rest IH];
    intros fuel st due Hup Htimer Hnone Hnow Hfuel;
    (destruct fuel as [|fuel]; [simpl in Hfuel; lia|]);
    cbn [run_until_settled first_complete]; rewrite Hnone;
    unfold next_task; rewrite Hup, Htimer.
  - unfold timer_fires, resolve. cbn. rewrite Hnone. cbn.
    destruct fuel; reflexivity.
  - destruct (Nat.ltb_spec (wait_now st + gap) due) as [Hlt|Hge].
    + unfold gathering_changes, on_gathering_change. cbn.
      destruct (is_complete s) eqn:Hs.
      * unfold resolve. cbn. rewrite Hnone. cbn. destruct fuel; reflexivity.
      * rewrite (IH fuel _ due); cbn; auto; try lia.
        simpl in Hfuel. lia.
    + unfold timer_fires, resolve. cbn. rewrite Hnone. cbn.
      destruct fuel; reflexivity.
Qed.

Lemma waitForIceGathering_end (p : RTCPeerConnection) (now : nat) :
  wait_settled (waitForIceGathering p now) = Some (wait_end p now) /\
  local (wait_pc (waitForIceGathering p now)) = local p /\
  script (wait_pc (waitForIceGathering p now)) = script p /\
  remoteDescription (wait_pc (waitForIceGathering p now))
    = remoteDescription p /\
  candidates (wait_pc (waitForIceGathering p now)) = candidates p.
Proof.
  unfold waitForIceGathering, wait_end.
  destruct (is_complete (iceGatheringState p)).
  - cbn. auto.
  - split.
    + apply run_until_settled_end; cbn; auto; lia.
    + apply (run_until_settled_keeps _
               {| wait_pc := p; wait_now := now;
                  wait_timer := Some (now + 5000); wait_settled := None |}).
Qed.

Lemma first_complete_range (changes : list (nat * gathering_state)) :
  forall now due t,
    first_complete now due changes = Some t -> now <= t < due.
Proof.
  induction changes as [|[gap s] rest IH]; intros now due t H; [discriminate|].
  cbn [first_complete] in H.
  destruct (Nat.ltb_spec (now + gap) due) as [Hlt|]; [|discriminate].
  destruct (is_complete s).
  - injection H as <-. lia.
  - apply IH in H. lia.
Qed.

Lemma first_complete_never (changes : list (nat * gathering_state)) :
  Forall (fun change => is_complete (snd change) = false) changes ->
  forall now due, first_complete now due changes = None.
Proof.
  induction 1 as [|[gap s] rest Hs _ IH]; intros now due; [reflexivity|].
  cbn [first_complete]. simpl in Hs. rewrite Hs.
  destruct (now + gap <? due); [apply IH|reflexivity].
Qed.

Lemma wait_end_bounds (p : RTCPeerConnection) (now : nat) :
  now <= wait_end p now <= now + 5000.
Proof.
  unfold wait_end. destruct (is_complete (iceGatheringState p)); [lia|].
  destruct (first_complete _ _ _) as [t|] eqn:E; [|lia].
  apply first_complete_range in E. lia.
Qed.

(** ** [initAsOfferer] and [initAsAnswerer] *)

Lemma commit_and_wait_run (c : WebRTCConnection) (p : RTCPeerConnection)
  (description : json) (now : nat) :
  accepts_local (script p) description = true ->
  exists p' s,
    pc_setLocalDescription description p = Normal p' /\
    commit_and_wait c p description now = Some s /\
    settled_at s = wait_end p' (now + engine_latency (script p)) /\
    completion_of s =
      Normal (Some (described (script p) description (settled_at s))) /\
    exists p'', pc (coordinator s) = Some p'' /\
                remoteDescription p'' = remoteDescription p /\
                candidates p'' = candidates p.
Proof.
  intros Hacc. unfold commit_and_wait, pc_setLocalDescription. rewrite Hacc.
  eexists. 
  match goal with
  | |- context [waitForIceGathering ?q ?t] =>
      destruct (waitForIceGathering_end q t) as (Hs & Hl & Hsc & Hr & Hc)
  end.
  rewrite Hs. eexists. split; [reflexivity|]. split; [reflexivity|].
  cbn [settled_at completion_of coordinator].
  split; [reflexivity|]. split.
  - unfold localDescription. rewrite Hl, Hsc. reflexivity.
  - eexists. split; [reflexivity|]. split; assumption.
Qed.

(** * SessionCodec *)




(** C8: for every input string [decodeSdp] returns and does not raise.  It
    returns [null] when the padded input is not base64 and when the decoded
    text is not JSON; otherwise it returns the parsed value. *)
Theorem decodeSdp_never_raises (s : jsstring) :
  (forall e, decodeSdp (JStr s) <> Throw e) /\
  (is_normal (atob (decodeSdp_padded s)) = false ->
   decodeSdp (JStr s) = Normal JNull) /\
  (forall t, atob (decodeSdp_padded s) = Normal t ->
             is_normal (JSON_parse t) = false ->
             decodeSdp (JStr s) = Normal JNull) /\
  (forall t v, atob (decodeSdp_padded s) = Normal t ->
               JSON_parse t = Normal v ->
               decodeSdp (JStr s) = Normal v).
Proof.
  unfold decodeSdp, decodeSdp_try.
  destruct (atob (decodeSdp_padded s)) as [t|e1] eqn:Ha; cbn [cbind].
  - destruct (JSON_parse t) as [v|e2] eqn:Hp; cbn [catch_with].
    + repeat split; try discriminate.
      * intros t' [= <-]. rewrite Hp. discriminate.
      * intros t' v' [= <-]. now rewrite Hp.
    + repeat split; try discriminate; try reflexivity.
      intros t' v' [= <-]. rewrite Hp. discriminate.
  - cbn [catch_with]. repeat split; try discriminate; reflexivity.
Qed.

(** [decodeSdp] on a datum that is not a string: the TypeError of
    [encoded.replace] is caught as well. *)
Lemma decodeSdp_not_a_string (encoded : json) :
  (forall s, encoded <> JStr s) -> decodeSdp encoded = Normal JNull.
Proof.
  intros H. destruct encoded; try reflexivity. now destruct (H s).
Qed.

Example decodeSdp_not_base64 : decodeSdp (JStr (lit "!!not base64!!")) = Normal JNull.
Proof. reflexivity. Qed.

(** [eyJ0eXBl] is the base64 of a truncated JSON text. *)
Example decodeSdp_not_json : decodeSdp (JStr (lit "eyJ0eXBl")) = Normal JNull.
Proof. reflexivity. Qed.

(** [eyJhIjoxfQ] is the unpadded base64 of an object with one property. *)
Example decodeSdp_unpadded :
  decodeSdp (JStr (lit "eyJhIjoxfQ")) = Normal (JObj [(lit "a", JNum 1)]).
Proof. reflexivity. Qed.

(** * SessionIdGenerator *)

Lemma upper_radix36_digit (d : N) :
  (d < 36)%N -> is_upper36 (upper_unit (radix36_digit d)) = true.
Proof.
  apply (check_below_sound 36
           (fun d => is_upper36 (upper_unit (radix36_digit d)))).
  vm_compute. reflexivity.
Qed.

(** The code is made of upper-case radix-36 characters and is never longer
    than six of them; it has six exactly when the random Number renders to at
    least six fraction digits. *)
Lemma generateSessionId_shape (random : random_source) :
  Forall (fun d => (d < 36)%N) random ->
  length (generateSessionId random) = Nat.min 6 (length random) /\
  forallb is_upper36 (generateSessionId random) = true.
Proof.
  intros Hd. unfold generateSessionId, toString36, toUpperCase, substring.
  destruct random as [|d ds]; [split; reflexivity|].
  cbn [skipn Nat.sub]. split.
  - now rewrite length_map, length_firstn, length_map.
  - apply forallb_forall. intros c Hc.
    apply in_map_iff in Hc as (c' & <- & Hc').
    apply (In_nth_error _ _) in Hc' as [i Hi].
    assert (Hin : In c' (map radix36_digit (d :: ds))).
    { apply nth_error_In with i. rewrite nth_error_firstn in Hi.
      destruct (i <? 6); [exact Hi|discriminate]. }
    apply in_map_iff in Hin as (x & <- & Hx).
    rewrite Forall_forall in Hd. now apply upper_radix36_digit, Hd.
Qed.

(** C7, at the failing input: when [Math.random()] returns one half, which
    renders to [0.i], [generateSessionId] returns the one-character code [I],
    not a code of six characters.  A random Number of zero gives the empty
    code. *)
Lemma generateSessionId_short :
  toString36 [18%N] = lit "0.i" /\
  generateSessionId [18%N] = lit "I" /\
  length (generateSessionId [18%N]) = 1 /\
  generateSessionId [] = [].
Proof. repeat split. Qed.

(** * RelayClient *)

Section RelayClaims.

Variable encodeURIComponent : jsstring -> jsstring.

(** C3 (amended): for every topic and every payload that [encodeSdp]
    encodes, [storeSdpOnDweet] sends one POST to the relay; if and only if
    that POST fails on the network level it sends exactly one further POST,
    with the same body, through the proxy URL that wraps the same URL; on a
    response whose status is not a success it does not retry and returns
    false; it returns true exactly when the request that was answered had a
    success status. *)
Theorem storeSdpOnDweet_posts (sessionId : jsstring) (sdp : json)
  (type : jsstring) (w : world) (enc : jsstring) :
  encodeSdp sdp = Normal enc ->
  let url := sdp_topic_url sessionId type in
  let body := sdp_body type enc (clock w) in
  let req := post_request url body in
  let preq := post_request (dweetProxyUrl encodeURIComponent url) body in
  let run := storeSdpOnDweet encodeURIComponent sessionId sdp type w in
  match direct w (served w) req with
  | Responded r =>
      trace (snd run) = trace w ++ [Fetched req] /\
      fst run = Normal (ok r)
  | Unreachable =>
      trace (snd run) = trace w ++ [Fetched req; Fetched preq] /\
      fst run = Normal match proxied w (served w) preq with
                       | Responded r => ok r
                       | Unreachable => false
                       end
  end.
Proof.
  intros Henc. cbv zeta.
  destruct (storeSdpOnDweet_run encodeURIComponent sessionId sdp type w enc
              Henc) as [Hr Ht].
  unfold effective, fetches in *.
  destruct (direct w (served w) _); split; assumption.
Qed.

(** C2 (amended): [retrieveSdpFromDweet] makes its attempts in turn, at most
    [maxRetries] of them (5 by default).  It returns what [decodeSdp] makes
    of the first answer that carries an encoded description, which is [null]
    when that description does not decode, and makes no attempt after it.
    After an attempt that failed on the network level, got a status that is
    not a success or an answer that cannot be read, it waits 1500 ms before
    the next attempt.  When no attempt finds an encoded description it
    returns [null] after exactly [maxRetries] attempts. *)
Theorem retrieveSdpFromDweet_retries (sessionId type : jsstring)
  (maxRetries : nat) (w : world) :
  let url := sdp_fetch_url encodeURIComponent sessionId type in
  let req := get_request url in
  let preq := get_request (dweetProxyUrl encodeURIComponent url) in
  let result := fun n => classify (effective w n req preq) in
  let run :=
    retrieveSdpFromDweet encodeURIComponent sessionId type maxRetries w in
  match first_payload result (served w) maxRetries with
  | Some (k, enc) =>
      fst run = Normal (decoded enc) /\
      served (snd run) = S k /\
      trace (snd run) =
        trace w ++ loop_events w req preq maxRetries 1 (served w)
                     (S k - served w)
  | None =>
      fst run = Normal JNull /\
      served (snd run) = served w + maxRetries /\
      trace (snd run) =
        trace w ++ loop_events w req preq maxRetries 1 (served w) maxRetries
  end.
Proof.
  cbv zeta. unfold retrieveSdpFromDweet.
  exact (retrieve_loop_run encodeURIComponent
           (sdp_fetch_url encodeURIComponent sessionId type) maxRetries
           eq_refl maxRetries 1 w eq_refl).
Qed.

(** C10: whatever the input candidate, the record [storeIceCandidateOnDweet]
    publishes has exactly the three fields [candidate], [sdpMLineIndex] and
    [sdpMid]; a [sdpMLineIndex] or [sdpMid] the input does not have is [null]
    in the record.  (On a [null] input the property access raises, the
    [catch] clause returns false and nothing is published.) *)
Theorem storeIceCandidateOnDweet_record (sessionId : jsstring)
  (candidate : json) (isOfferer : bool) (w : world) :
  let url := ice_topic_url sessionId isOfferer in
  let record := JObj [(lit "candidate", field_candidate candidate);
                      (lit "sdpMLineIndex", field_sdpMLineIndex candidate);
                      (lit "sdpMid", field_sdpMid candidate)] in
  let body :=
    JSON_stringify
      (JObj [(lit "candidate", record); (lit "timestamp", JNum (clock w))]) in
  let req := post_request url body in
  let preq := post_request (dweetProxyUrl encodeURIComponent url) body in
  let run := storeIceCandidateOnDweet encodeURIComponent sessionId candidate
               isOfferer w in
  (candidate = JNull /\ run = (Normal false, w) \/
   candidate <> JNull /\
   trace (snd run) = trace w ++ fetches w (served w) req preq) /\
  (get (VData candidate) (lit "sdpMLineIndex") = Normal VUndefined ->
   field_sdpMLineIndex candidate = JNull) /\
  (get (VData candidate) (lit "sdpMid") = Normal VUndefined ->
   field_sdpMid candidate = JNull) /\
  (forall x, get (VData candidate) (lit "sdpMLineIndex") = Normal (VData x) ->
             field_sdpMLineIndex candidate = x) /\
  (forall x, get (VData candidate) (lit "sdpMid") = Normal (VData x) ->
             truthy (VData x) = true -> field_sdpMid candidate = x).
Proof.
  cbv zeta. split; [|unfold field_sdpMLineIndex, field_sdpMid; repeat split].
  - destruct candidate as [|b|n|s|items|props];
      try (right; split; [discriminate|];
           apply storeIceCandidateOnDweet_run; discriminate).
    left. split; reflexivity.
  - now intros ->.
  - now intros ->.
  - now intros x ->.
  - intros x -> Hx. now rewrite Hx.
Qed.

Variable string_gt_zero : jsstring -> bool.


End RelayClaims.

(** C3, as the specification states it, fails: the body is encoded before
    the [try] block, so a payload that [btoa] refuses makes
    [storeSdpOnDweet] raise without a single POST. *)
Lemma storeSdpOnDweet_raises_beyond_latin1 :
  let w := answering (ok_json JNull) in
  let run := storeSdpOnDweet unreserved (lit "ABC123") euro (lit "offer") w in
  fst run = Throw InvalidCharacterError /\ trace (snd run) = [].
Proof. split; reflexivity. Qed.

Lemma storeSdpOnDweet_posts_witness :
  encodeSdp sample_offer = Normal sample_enc /\
  fst (storeSdpOnDweet unreserved (lit "ABC123") sample_offer (lit "offer")
         (answering (ok_json JNull))) = Normal true.
Proof.
  split; [reflexivity|].
  exact (proj2 (storeSdpOnDweet_posts unreserved (lit "ABC123") sample_offer
                  (lit "offer") (answering (ok_json JNull)) sample_enc
                  eq_refl)).
Defined.

(** C2, as the specification states it, fails: the relay answers the first
    attempt with a description that does not decode, and
    [retrieveSdpFromDweet] returns [null] after that one attempt of five. *)
Lemma retrieveSdpFromDweet_gives_up_early :
  let w := answering (ok_json corrupt_answer) in
  let run := retrieveSdpFromDweet unreserved (lit "ABC123") (lit "offer") 5 w in
  fst run = Normal JNull /\ served (snd run) = 1 /\
  trace (snd run) =
    [Fetched (get_request (sdp_fetch_url unreserved (lit "ABC123") (lit "offer")))].
Proof. repeat split; reflexivity. Qed.

(** Against a relay that never answers with a description (here: one that
    is unreachable, as is the proxy), five attempts are made, 1500 ms
    apart. *)
Example retrieveSdpFromDweet_unreachable :
  let w := answering Unreachable in
  let url := sdp_fetch_url unreserved (lit "ABC123") (lit "offer") in
  let attempt := [Fetched (get_request url);
                  Fetched (get_request (dweetProxyUrl unreserved url))] in
  let run := retrieveSdpFromDweet unreserved (lit "ABC123") (lit "offer") 5 w in
  fst run = Normal JNull /\ served (snd run) = 5 /\
  trace (snd run) =
    attempt ++ [Slept 1500] ++ attempt ++ [Slept 1500] ++ attempt ++
    [Slept 1500] ++ attempt ++ [Slept 1500] ++ attempt.
Proof. repeat split; reflexivity. Qed.

(** A candidate with nothing but its [candidate] line is published with
    [null] for the two fields it lacks. *)
Example storeIceCandidateOnDweet_sparse :
  let sparse := JObj [(lit "candidate", JStr (lit "candidate:1 1 udp"))] in
  let run := storeIceCandidateOnDweet unreserved (lit "ABC123") sparse true
               (answering (ok_json JNull)) in
  exists body,
    trace (snd run) =
      [Fetched (post_request (ice_topic_url (lit "ABC123") true) body)] /\
    JSON_parse body =
      Normal (JObj [(lit "candidate",
                     JObj [(lit "candidate", JStr (lit "candidate:1 1 udp"));
                           (lit "sdpMLineIndex", JNull);
                           (lit "sdpMid", JNull)]);
                    (lit "timestamp", JNum 1700000000000)]).
Proof. eexists. split; reflexivity. Qed.


(** * ConnectionCoordinator *)

(** C5: [sendMessage] returns false and writes nothing to the data channel
    when there is no channel or its state is not [open]; when the channel
    exists and is open it writes the JSON rendering of the payload, once, and
    returns true. *)
Theorem sendMessage_guard (c : WebRTCConnection) (data : json) :
  let r := fst (sendMessage c data) in
  let c' := snd (sendMessage c data) in
  match dataChannel c with
  | Some ch =>
      if is_open (readyState ch)
      then r = true /\
           channel_writes c' = channel_writes c ++ [JSON_stringify data]
      else r = false /\ channel_writes c' = channel_writes c
  | None => r = false /\ channel_writes c' = channel_writes c
  end.
Proof.
  cbv zeta. unfold sendMessage, channel_writes.
  destruct (dataChannel c) as [ch|] eqn:E; cbn [fst snd].
  - destruct (is_open (readyState ch)); cbn [fst snd dataChannel];
      rewrite ?E; split; reflexivity.
  - rewrite E. split; reflexivity.
Qed.



(** The wait itself, whatever the engine does. *)
Lemma waitForIceGathering_settles (p : RTCPeerConnection) (now : nat) :
  exists t,
    wait_settled (waitForIceGathering p now) = Some t /\
    now <= t <= now + 5000 /\
    (is_complete (iceGatheringState p) = true -> t = now) /\
    (is_complete (iceGatheringState p) = false ->
     Forall (fun change => is_complete (snd change) = false) (upcoming p) ->
     t = now + 5000).
Proof.
  exists (wait_end p now).
  split; [apply waitForIceGathering_end|]. split; [apply wait_end_bounds|].
  unfold wait_end. split.
  - now intros ->.
  - intros -> H. now rewrite first_complete_never.
Qed.

Example initAsOfferer_quick :
  exists s,
    initAsOfferer quick_engine constructor 0 = Some s /\ settled_at s = 390.
Proof. eexists. split; reflexivity. Qed.

Lemma app_one_neq (A : Type) (l : list A) (x : A) : l ++ [x] <> l.
Proof.
  intros H. apply (f_equal (@length A)) in H. rewrite length_app in H.
  simpl in H. lia.
Qed.

(** C4, as the specification states it, fails in two states of the
    coordinator.  Without an engine, [setRemoteDescription] does nothing and
    a candidate submitted after it is not forwarded.  On the answerer,
    [initAsAnswerer] commits the remote offer itself, and a candidate
    submitted before any call of [setRemoteDescription] is forwarded. *)
Lemma addIceCandidate_against_the_order :
  (let after := snd (setRemoteDescription constructor sample_offer) in
   fst (setRemoteDescription constructor sample_offer) = Normal tt /\
   snd (addIceCandidate after sample_candidate) = constructor /\
   engine_candidates (snd (addIceCandidate after sample_candidate)) = []) /\
  (exists s,
     initAsAnswerer stalling_engine constructor sample_offer 0 = Some s /\
     engine_candidates (snd (addIceCandidate (coordinator s) sample_candidate))
     = [sample_candidate]).
Proof.
  split; [repeat split|]. eexists. split; reflexivity.
Qed.

(** C4 (amended): [addIceCandidate] forwards the candidate to the engine
    exactly when an engine exists and a remote description has been committed
    on it.  On a coordinator without an engine or whose engine has no remote
    description, as a fresh coordinator and an offerer before
    [setRemoteDescription] are, the candidate never reaches the engine.
    After a [setRemoteDescription] that committed the description on an
    existing engine, it does. *)
Theorem addIceCandidate_guard (c : WebRTCConnection) (candidate : json) :
  let forwarded c0 :=
    engine_candidates (snd (addIceCandidate c0 candidate))
    = engine_candidates c0 ++ [candidate] in
  let dropped c0 := snd (addIceCandidate c0 candidate) = c0 in
  (forwarded c <->
   exists p d, pc c = Some p /\ remoteDescription p = Some d) /\
  (pc c = None \/ (exists p, pc c = Some p /\ remoteDescription p = None) ->
   dropped c) /\
  dropped constructor /\
  (forall e now s, initAsOfferer e constructor now = Some s ->
                   dropped (coordinator s)) /\
  (forall p sdp c1,
      pc c = Some p -> setRemoteDescription c sdp = (Normal tt, c1) ->
      forwarded c1).
Proof.
  cbv zeta. split; [|split; [|split; [|split]]].
  - unfold addIceCandidate, engine_candidates.
    destruct (pc c) as [p|] eqn:Hpc.
    + destruct (remoteDescription p) as [d|] eqn:Hrd; cbn; rewrite ?Hpc.
      * split; [eauto|reflexivity].
      * split.
        -- intros H. symmetry in H. now apply app_one_neq in H.
        -- intros (p' & d & [= <-] & H). congruence.
    + cbn. rewrite ?Hpc. split.
      * intros H. discriminate.
      * intros (p' & d & H & _). discriminate.
  - unfold addIceCandidate. intros [H|(p & Hp & Hr)].
    + now rewrite H.
    + now rewrite Hp, Hr.
  - reflexivity.
  - intros e now s Hs. unfold initAsOfferer in Hs.
    destruct (createOffer_result e) as [offer|err].
    + unfold commit_and_wait in Hs.
      destruct (pc_setLocalDescription offer (new_RTCPeerConnection e))
        as [p1|err] eqn:Hp1.
      * destruct (waitForIceGathering_end p1
                    (now + engine_latency e +
                     engine_latency (script (new_RTCPeerConnection e))))
          as (Hw & _ & _ & Hr & _).
        cbn [script new_RTCPeerConnection] in Hs, Hw.
        rewrite Hw in Hs. injection Hs as <-.
        cbn [script new_RTCPeerConnection] in Hw, Hr.
        unfold addIceCandidate. cbn [coordinator with_pc pc].
        rewrite Hr. unfold pc_setLocalDescription in Hp1.
        destruct (accepts_local _ _); [|discriminate].
        injection Hp1 as <-. reflexivity.
      * injection Hs as <-. reflexivity.
    + injection Hs as <-. reflexivity.
  - intros p sdp c1 Hp Hset. unfold setRemoteDescription in Hset.
    rewrite Hp in Hset. unfold pc_setRemoteDescription in Hset.
    destruct (accepts_remote (script p) sdp); [|discriminate].
    injection Hset as <-. reflexivity.
Qed.

(** * Further properties of the SessionCodec and the SessionIdGenerator *)

Lemma url_backward_forward (c : code_unit) :
  url_backward (url_forward c) = url_backward c.
Proof.
  unfold url_backward, url_forward. cbv zeta.
  destruct (N.eqb_spec c ch_plus) as [->|Hplus]; [reflexivity|].
  destruct (N.eqb_spec c ch_slash) as [->|Hslash]; reflexivity.
Qed.

(** X1: [decodeSdp] reads [-] as [+] and [_] as [/]: for every string, the
    URL-safe respelling decodes to the same result as the string itself. *)
Theorem decodeSdp_url_respelling (s : jsstring) :
  decodeSdp
    (JStr (replace_all ch_slash ch_underscore (replace_all ch_plus ch_minus s)))
  = decodeSdp (JStr s).
Proof.
  unfold decodeSdp, decodeSdp_try, decodeSdp_padded. cbv zeta.
  rewrite replace_forward, !replace_backward, map_map.
  rewrite (map_ext _ _ url_backward_forward). reflexivity.
Qed.



Lemma encodeSdp_decodes (x : json) (e : jsstring) :
  json_wf x = true -> encodeSdp x = Normal e -> decodeSdp (JStr e) = Normal x.
Proof.
  intros Hwf He. unfold encodeSdp, btoa in He.
  destruct (is_latin1 (JSON_stringify x)) eqn:Hlat; [|discriminate].
  injection He as <-.
  apply (decodeSdp_of_padded x _ Hwf Hlat), padded_standard, Hlat.
Qed.



(** X4: the code [generateSessionId] returns is the first six fraction
    digits of the radix-36 rendering of the random Number, in upper case: at
    most six characters, each a digit or a letter from [A] to [Z], and six
    of them whenever the rendering has six fraction digits or more. *)
Theorem generateSessionId_code (random : random_source) :
  Forall (fun d => (d < 36)%N) random ->
  generateSessionId random
    = map (fun d => upper_unit (radix36_digit d)) (firstn 6 random) /\
  length (generateSessionId random) <= 6 /\
  (6 <= length random -> length (generateSessionId random) = 6) /\
  forallb is_upper36 (generateSessionId random) = true.
Proof.
  intros Hd. destruct (generateSessionId_shape random Hd) as [Hlen Hall].
  split; [|split; [lia|split; [lia|exact Hall]]].
  unfold generateSessionId, toString36, toUpperCase, substring.
  destruct random as [|d ds]; [reflexivity|].
  cbn [skipn Nat.sub]. rewrite firstn_map, map_map. reflexivity.
Qed.

Lemma generateSessionId_code_witness :
  Forall (fun d => (d < 36)%N) [10; 1; 35; 0; 7; 20; 3; 9]%N /\
  generateSessionId [10; 1; 35; 0; 7; 20; 3; 9]%N = lit "A1Z07K".
Proof.
  assert (H : Forall (fun d => (d < 36)%N) [10; 1; 35; 0; 7; 20; 3; 9]%N)
    by (repeat (apply Forall_cons; [reflexivity|]); apply Forall_nil).
  split; [exact H|].
  destruct (generateSessionId_code _ H) as [E _]. rewrite E. reflexivity.
Defined.

(** * Further properties of the ConnectionCoordinator *)

Lemma commit_and_wait_refused (c : WebRTCConnection) (p : RTCPeerConnection)
  (description : json) (now : nat) :
  accepts_local (script p) description = false ->
  commit_and_wait c p description now =
  Some {| completion_of := Throw EngineError; coordinator := with_pc c p;
          settled_at := now + engine_latency (script p) |}.
Proof.
  intros H. unfold commit_and_wait, pc_setLocalDescription. now rewrite H.
Qed.

(** What [commit_and_wait] comes to for any engine. *)
Lemma commit_and_wait_settles (c : WebRTCConnection) (p : RTCPeerConnection)
  (description : json) (now : nat) :
  exists s,
    commit_and_wait c p description now = Some s /\
    now + engine_latency (script p) <= settled_at s
      <= now + engine_latency (script p) + 5000 /\
    isInitiator (coordinator s) = isInitiator c /\
    dataChannel (coordinator s) = dataChannel c /\
    is_normal (completion_of s) = accepts_local (script p) description /\
    exists p', pc (coordinator s) = Some p' /\
               remoteDescription p' = remoteDescription p /\
               candidates p' = candidates p.
Proof.
  destruct (accepts_local (script p) description) eqn:Hacc.
  - destruct (commit_and_wait_run c p description now Hacc)
      as (p1 & s & Hp & Hs & Hat & Hres & p2 & Hpc & Hrem & Hcand).
    exists s. split; [exact Hs|].
    unfold commit_and_wait in Hs. rewrite Hp in Hs.
    destruct (wait_settled (waitForIceGathering p1 _)) as [t|];
      [|discriminate].
    injection Hs as <-. cbn [settled_at coordinator completion_of] in *.
    pose proof (wait_end_bounds p1 (now + engine_latency (script p))) as B.
    split; [lia|]. repeat split; try reflexivity.
    exists p2. auto.
  - rewrite (commit_and_wait_refused c p description now Hacc).
    eexists. split; [reflexivity|].
    cbn [settled_at coordinator completion_of with_pc isInitiator dataChannel
         pc is_normal].
    split; [lia|]. repeat split; try reflexivity.
    exists p. auto.
Qed.

(** The channel of the coordinator after either initialisation. *)
Lemma initAsOfferer_channel (e : engine) (c : WebRTCConnection) (now : nat)
  (s : settled (option json)) :
  initAsOfferer e c now = Some s ->
  dataChannel (coordinator s) = Some createDataChannel.
Proof.
  unfold initAsOfferer. destruct (createOffer_result e) as [offer|err].
  - match goal with
    | |- commit_and_wait ?c1 ?p1 offer ?t = _ -> _ =>
        destruct (commit_and_wait_settles c1 p1 offer t)
          as (s' & Hs & _ & _ & Hd & _)
    end.
    rewrite Hs. now intros [= <-].
  - now intros [= <-].
Qed.

Lemma initAsAnswerer_channel (e : engine) (c : WebRTCConnection)
  (offerSdp : json) (now : nat) (s : settled (option json)) :
  initAsAnswerer e c offerSdp now = Some s ->
  dataChannel (coordinator s) = dataChannel c.
Proof.
  unfold initAsAnswerer.
  destruct (pc_setRemoteDescription offerSdp (new_RTCPeerConnection e))
    as [p1|err]; [|now intros [= <-]].
  destruct (createAnswer_result e) as [answer|err]; [|now intros [= <-]].
  match goal with
  | |- commit_and_wait ?c1 ?p1 answer ?t = _ -> _ =>
      destruct (commit_and_wait_settles c1 p1 answer t)
        as (s' & Hs & _ & _ & Hd & _)
  end.
  rewrite Hs. now intros [= <-].
Qed.

(** X5: whatever the engine does, [initAsOfferer] settles, no later than
    5000 ms after its two calls of the engine; it has made the coordinator
    the initiator and given it a data channel that is not open yet; and it
    raises exactly when the engine makes no offer or refuses the offer as
    its local description. *)
Theorem initAsOfferer_always_settles (e : engine) (c : WebRTCConnection)
  (now : nat) :
  exists s,
    initAsOfferer e c now = Some s /\
    now + engine_latency e <= settled_at s
      <= now + 2 * engine_latency e + 5000 /\
    isInitiator (coordinator s) = true /\
    dataChannel (coordinator s) = Some createDataChannel /\
    (is_normal (completion_of s) = true <->
     exists offer, createOffer_result e = Normal offer /\
                   accepts_local e offer = true).
Proof.
  unfold initAsOfferer. destruct (createOffer_result e) as [offer|err].
  - destruct (commit_and_wait_settles
                {| pc := Some (new_RTCPeerConnection e);
                   dataChannel := Some createDataChannel;
                   isInitiator := true |}
                (new_RTCPeerConnection e) offer (now + engine_latency e))
      as (s & Hs & Hat & Hi & Hd & Hn & _).
    cbn [script new_RTCPeerConnection isInitiator dataChannel] in *.
    exists s. split; [exact Hs|]. split; [lia|]. split; [exact Hi|].
    split; [exact Hd|]. rewrite Hn. split.
    + intros H. exists offer. auto.
    + intros (offer' & [= <-] & H). exact H.
  - eexists. split; [reflexivity|].
    cbn [settled_at coordinator completion_of isInitiator dataChannel
         is_normal].
    split; [lia|]. repeat split; try reflexivity; try discriminate.
    intros (offer & [=] & _).
Qed.

(** X6: whatever the engine does, [initAsAnswerer] settles, no later than
    5000 ms after its three calls of the engine; the coordinator is not the
    initiator and keeps the channel it had.  It resolves exactly when the
    engine takes the offer as its remote description, makes an answer and
    takes the answer as its local description; and whenever the engine took
    the offer, the offer is the remote description of the engine the
    coordinator is left with. *)
Theorem initAsAnswerer_always_settles (e : engine) (c : WebRTCConnection)
  (offerSdp : json) (now : nat) :
  exists s,
    initAsAnswerer e c offerSdp now = Some s /\
    now + engine_latency e <= settled_at s
      <= now + 3 * engine_latency e + 5000 /\
    isInitiator (coordinator s) = false /\
    dataChannel (coordinator s) = dataChannel c /\
    (is_normal (completion_of s) = true <->
     accepts_remote e offerSdp = true /\
     exists answer, createAnswer_result e = Normal answer /\
                    accepts_local e answer = true) /\
    exists p,
      pc (coordinator s) = Some p /\
      remoteDescription p =
        if accepts_remote e offerSdp then Some offerSdp else None.
Proof.
  unfold initAsAnswerer, pc_setRemoteDescription.
  cbn [script new_RTCPeerConnection].
  destruct (accepts_remote e offerSdp) eqn:Hrem.
  - destruct (createAnswer_result e) as [answer|err].
    + match goal with
      | |- context [commit_and_wait ?c1 ?p1 answer ?t] =>
          destruct (commit_and_wait_settles c1 p1 answer t)
            as (s & Hs & Hat & Hi & Hd & Hn & p' & Hpc & Hr & _)
      end.
      cbn [script isInitiator dataChannel remoteDescription] in *.
      exists s. split; [exact Hs|]. split; [lia|]. split; [exact Hi|].
      split; [exact Hd|]. split.
      * rewrite Hn. split.
        -- intros H. split; [reflexivity|]. exists answer. auto.
        -- intros (_ & answer' & [= <-] & H). exact H.
      * exists p'. auto.
    + eexists. split; [reflexivity|].
      cbn [settled_at coordinator completion_of isInitiator dataChannel
           is_normal with_pc pc].
      split; [lia|]. split; [reflexivity|]. split; [reflexivity|]. split.
      * split; [discriminate|]. intros (_ & answer & [=] & _).
      * eexists. split; reflexivity.
  - eexists. split; [reflexivity|].
    cbn [settled_at coordinator completion_of isInitiator dataChannel
         is_normal pc].
    split; [lia|]. split; [reflexivity|]. split; [reflexivity|]. split.
    + split; [discriminate|]. intros [[=] _].
    + eexists. split; reflexivity.
Qed.

(** X7: no message can be sent right after the initialisation.  The
    offerer has the channel it created, which is not open yet; the answerer
    that started without a channel has none until the engine delivers one:
    [sendMessage] returns false and writes nothing, and [isReady()] is
    [false] for the one and [null] for the other.  Once the engine has
    delivered an open channel to the answerer, [sendMessage] writes to
    it. *)
Theorem no_message_before_the_channel (e : engine) (offerSdp data : json)
  (now : nat) :
  (forall s,
     initAsOfferer e constructor now = Some s ->
     sendMessage (coordinator s) data = (false, coordinator s) /\
     isReady (coordinator s) = VData (JBool false)) /\
  (forall s,
     initAsAnswerer e constructor offerSdp now = Some s ->
     sendMessage (coordinator s) data = (false, coordinator s) /\
     isReady (coordinator s) = VData JNull /\
     forall channel,
       is_open (readyState channel) = true ->
       fst (sendMessage (ondatachannel (coordinator s) channel) data) = true /\
       channel_writes
         (snd (sendMessage (ondatachannel (coordinator s) channel) data))
       = sent channel ++ [JSON_stringify data]).
Proof.
  split; intros s Hs.
  - pose proof (initAsOfferer_channel e constructor now s Hs) as Hd.
    unfold sendMessage, isReady. rewrite Hd. split; reflexivity.
  - pose proof (initAsAnswerer_channel e constructor offerSdp now s Hs) as Hd.
    unfold sendMessage, isReady. rewrite Hd. cbn [dataChannel constructor].
    split; [reflexivity|]. split; [reflexivity|].
    intros channel Hopen. unfold ondatachannel, channel_writes.
    cbn [dataChannel]. rewrite Hopen. split; reflexivity.
Qed.

(** X8: [isReady()] is truthy exactly when [sendMessage] would write to the
    channel, and it is [null], not [false], on a coordinator without a
    channel. *)
Theorem isReady_sendMessage (c : WebRTCConnection) (data : json) :
  truthy (isReady c) = fst (sendMessage c data) /\
  (isReady c = VData JNull <-> dataChannel c = None).
Proof.
  unfold isReady, sendMessage.
  destruct (dataChannel c) as [ch|].
  - destruct (is_open (readyState ch)); split; try reflexivity;
      split; discriminate.
  - split; [reflexivity|]. split; reflexivity.
Qed.




(** X11: a refusal of the engine reaches the caller.  [addIceCandidate]
    raises exactly when it hands the candidate to the engine and the engine
    refuses it; [setRemoteDescription] raises exactly when there is an
    engine and it refuses the description, and then the coordinator is as
    it was. *)
Theorem engine_refusals (c : WebRTCConnection) (x : json) :
  (is_normal (fst (addIceCandidate c x)) = false <->
   exists p, pc c = Some p /\ remoteDescription p <> None /\
             accepts_candidate (script p) x = false) /\
  (is_normal (fst (setRemoteDescription c x)) = false <->
   exists p, pc c = Some p /\ accepts_remote (script p) x = false) /\
  (is_normal (fst (setRemoteDescription c x)) = false ->
   snd (setRemoteDescription c x) = c).
Proof.
  unfold addIceCandidate, setRemoteDescription, pc_addIceCandidate,
    pc_setRemoteDescription.
  destruct (pc c) as [p|].
  - split; [|split].
    + destruct (remoteDescription p) as [d|] eqn:Hd.
      * destruct (accepts_candidate (script p) x) eqn:Ha; cbn [fst is_normal].
        -- split; [discriminate|]. intros (p' & [= <-] & _ & H). congruence.
        -- split; [|reflexivity]. intros _. exists p.
           split; [reflexivity|]. split; [congruence|exact Ha].
      * cbn [fst is_normal]. split; [discriminate|].
        intros (p' & [= <-] & H & _). congruence.
    + destruct (accepts_remote (script p) x) eqn:Ha; cbn [fst is_normal].
      * split; [discriminate|]. intros (p' & [= <-] & H). congruence.
      * split; [|reflexivity]. intros _. exists p. auto.
    + destruct (accepts_remote (script p) x); cbn [fst snd is_normal];
        [discriminate|reflexivity].
  - cbn [fst snd is_normal]. split; [|split].
    + split; [discriminate|]. intros (p & [=] & _).
    + split; [discriminate|]. intros (p & [=] & _).
    + reflexivity.
Qed.

(** X12: [waitForIceGathering] always settles, between the time it is
    entered and 5000 ms later: at once when gathering is complete already,
    else at the first change of the gathering state to [complete] or when
    the timer is due.  It changes neither description of the engine nor the
    candidates the engine was handed. *)
Theorem waitForIceGathering_bounded (p : RTCPeerConnection) (now : nat) :
  let st := waitForIceGathering p now in
  wait_settled st = Some (wait_end p now) /\
  now <= wait_end p now <= now + 5000 /\
  (is_complete (iceGatheringState p) = true -> wait_end p now = now) /\
  local (wait_pc st) = local p /\
  remoteDescription (wait_pc st) = remoteDescription p /\
  candidates (wait_pc st) = candidates p.
Proof.
  cbv zeta.
  destruct (waitForIceGathering_end p now) as (Hs & Hl & _ & Hr & Hc).
  split; [exact Hs|]. split; [apply wait_end_bounds|].
  split; [|auto]. unfold wait_end. now intros ->.
Qed.

(** * Further properties of the RelayClient *)


Lemma b64_char_small (n : N) : (b64_char n < 128)%N.
Proof.
  unfold b64_char, ch_plus, ch_slash.
  destruct (N.ltb_spec n 26); [lia|].
  destruct (N.ltb_spec n 52); [lia|].
  destruct (N.ltb_spec n 62); [lia|].
  destruct (n =? 62)%N; lia.
Qed.

Lemma b64_encode_small (bytes : list N) :
  Forall (fun c => (c < 128)%N) (b64_encode bytes).
Proof.
  induction bytes as [| a | a b | a b c rest IH] using list_ind3;
    cbn [b64_encode app];
    repeat (apply Forall_cons;
            [first [apply b64_char_small | unfold ch_equals; lia]|]);
    try apply Forall_nil.
  exact IH.
Qed.

Lemma string_ok_b64 (bytes : list N) : string_ok (b64_encode bytes) = true.
Proof.
  unfold string_ok. apply forallb_forall. intros c Hc.
  pose proof (b64_encode_small bytes) as H. rewrite Forall_forall in H.
  apply N.ltb_lt. specialize (H c Hc). lia.
Qed.

Lemma b64_encode_not_empty (c : N) (r : list N) : b64_encode (c :: r) <> [].
Proof. destruct r as [|b [|d r]]; discriminate. Qed.

(** What [encodeSdp] returns: base64, never the empty string. *)
Lemma encodeSdp_value (sdp : json) (enc : jsstring) :
  encodeSdp sdp = Normal enc ->
  is_latin1 (JSON_stringify sdp) = true /\ string_ok enc = true /\
  truthy (VData (JStr enc)) = true.
Proof.
  unfold encodeSdp, btoa. intros H.
  destruct (is_latin1 (JSON_stringify sdp)); [|discriminate].
  injection H as <-. split; [reflexivity|]. split; [apply string_ok_b64|].
  destruct (stringify_head sdp) as (c & r & -> & _).
  pose proof (b64_encode_not_empty c r) as Hne.
  cbn [truthy].
  destruct (b64_encode (c :: r)) as [|x l] eqn:E; [now destruct Hne|reflexivity].
Qed.

(** The body [storeSdpOnDweet] posts is read back by [JSON.parse]. *)
Lemma sdp_body_parses (type enc : jsstring) (timestamp : Z) :
  string_ok type = true -> string_ok enc = true ->
  safe_integer timestamp = true ->
  JSON_parse (sdp_body type enc timestamp) =
  Normal (JObj [(lit "type", JStr type); (lit "sdp", JStr enc);
                (lit "timestamp", JNum timestamp)]).
Proof.
  intros Ht He Hn. unfold sdp_body. apply JSON_parse_stringify.
  apply json_wf_props. split; [reflexivity|]. split; [reflexivity|].
  unfold props_wf.
  repeat (apply Forall_cons; [split; [reflexivity|assumption]|]).
  apply Forall_nil.
Qed.

Lemma lookup_prop_wf (k : jsstring) (props : list (jsstring * json))
  (x : json) :
  json_wf (JObj props) = true -> lookup_prop k props = VData x ->
  json_wf x = true.
Proof.
  intros Hwf. apply json_wf_props in Hwf as (_ & _ & Hp).
  unfold props_wf in Hp. induction Hp as [|[k' v] props [_ Hv] _ IH];
    cbn [lookup_prop]; [discriminate|].
  destruct (jsstring_eqb k k'); [|exact IH].
  cbn [snd] in Hv. now intros [= <-].
Qed.

(** The record published for a candidate that is an object is made of
    parts of the candidate. *)
Lemma candidate_record_wf (props : list (jsstring * json)) :
  json_wf (JObj props) = true -> json_wf (candidate_record (JObj props)) = true.
Proof.
  intros Hwf. unfold candidate_record. apply json_wf_props.
  split; [reflexivity|]. split; [reflexivity|]. unfold props_wf.
  repeat (apply Forall_cons; [split; [reflexivity|]|]); try apply Forall_nil;
    cbn [snd];
    unfold field_candidate, field_sdpMLineIndex, field_sdpMid; cbn [get].
  - destruct (lookup_prop (lit "candidate") props) as [|x|a] eqn:E;
      try exact Hwf.
    destruct (truthy (VData x)); [|exact Hwf].
    exact (lookup_prop_wf _ _ _ Hwf E).
  - destruct (lookup_prop (lit "sdpMLineIndex") props) as [|x|a] eqn:E;
      try reflexivity.
    exact (lookup_prop_wf _ _ _ Hwf E).
  - destruct (lookup_prop (lit "sdpMid") props) as [|x|a] eqn:E;
      try reflexivity.
    destruct (truthy (VData x)); [|reflexivity].
    exact (lookup_prop_wf _ _ _ Hwf E).
Qed.

Lemma ice_body_parses (record : json) (timestamp : Z) :
  json_wf record = true -> safe_integer timestamp = true ->
  JSON_parse (ice_body record timestamp) =
  Normal (JObj [(lit "candidate", record); (lit "timestamp", JNum timestamp)]).
Proof.
  intros Hr Hn. unfold ice_body. apply JSON_parse_stringify.
  apply json_wf_props. split; [reflexivity|]. split; [reflexivity|].
  unfold props_wf.
  repeat (apply Forall_cons; [split; [reflexivity|assumption]|]).
  apply Forall_nil.
Qed.

(** The first new event of a request that goes to the relay and then,
    perhaps, through the proxy. *)
Lemma fetches_head (w : world) (n : nat) (req preq : request)
  (before : list event) :
  nth_error (before ++ fetches w n req preq) (length before)
  = Some (Fetched req).
Proof.
  rewrite nth_error_app2, Nat.sub_diag by lia. unfold fetches.
  destruct (direct w n req); reflexivity.
Qed.

Lemma fetches_count (w : world) (n : nat) (req preq : request) :
  1 <= count_fetches (fetches w n req preq) <= 2 /\
  total_sleep (fetches w n req preq) = 0.
Proof. unfold fetches. destruct (direct w n req); cbn; lia. Qed.

Lemma count_fetches_app (a b : list event) :
  count_fetches (a ++ b) = count_fetches a + count_fetches b.
Proof.
  induction a as [|[req|ms] a IH]; cbn [app count_fetches]; lia.
Qed.

Lemma total_sleep_app (a b : list event) :
  total_sleep (a ++ b) = total_sleep a + total_sleep b.
Proof.
  induction a as [|[req|ms] a IH]; cbn [app total_sleep]; lia.
Qed.

Lemma attempt_pause_count (result : attempt_result)
  (attempt maxRetries : nat) :
  count_fetches (attempt_pause result attempt maxRetries) = 0 /\
  total_sleep (attempt_pause result attempt maxRetries)
  <= (if attempt <? maxRetries then 1500 else 0).
Proof.
  unfold attempt_pause.
  destruct result; destruct (attempt <? maxRetries); cbn; lia.
Qed.

(** The requests and the sleep of the attempts of the loop. *)
Lemma loop_events_budget (w : world) (req preq : request) (maxRetries : nat)
  (count : nat) :
  forall attempt n,
    count_fetches (loop_events w req preq maxRetries attempt n count)
      <= 2 * count /\
    count <= count_fetches (loop_events w req preq maxRetries attempt n count) /\
    total_sleep (loop_events w req preq maxRetries attempt n count)
      <= 1500 * (maxRetries - attempt).
Proof.
  induction count as [|count IH]; intros attempt n; cbn [loop_events].
  - cbn. lia.
  - rewrite !count_fetches_app, !total_sleep_app.
    destruct (fetches_count w n req preq) as [F1 F2].
    destruct (attempt_pause_count (classify (effective w n req preq))
                attempt maxRetries) as [P1 P2].
    destruct (IH (S attempt) (S n)) as (I1 & I2 & I3).
    rewrite F2, P1.
    destruct (Nat.ltb_spec attempt maxRetries); lia.
Qed.

Section MoreRelay.

Variable encodeURIComponent : jsstring -> jsstring.


(** X14: a description goes through the relay unchanged.  The body
    [storeSdpOnDweet] posts for a description is JSON; when the relay later
    answers the first request of [retrieveSdpFromDweet] with that record,
    bare or in its envelope, [retrieveSdpFromDweet] returns the description
    that was stored. *)
Theorem storeSdpOnDweet_then_retrieve (sessionId type : jsstring) (sdp : json)
  (w w' : world) (maxRetries : nat) :
  json_wf sdp = true ->
  is_latin1 (JSON_stringify sdp) = true ->
  string_ok type = true ->
  safe_integer (clock w) = true ->
  1 <= maxRetries ->
  let stored := storeSdpOnDweet encodeURIComponent sessionId sdp type w in
  let url := sdp_fetch_url encodeURIComponent sessionId type in
  let answer_of w' :=
    effective w' (served w') (get_request url)
      (get_request (dweetProxyUrl encodeURIComponent url)) in
  exists body content,
    nth_error (trace (snd stored)) (length (trace w))
      = Some (Fetched (post_request (sdp_topic_url sessionId type) body)) /\
    JSON_parse body = Normal content /\
    forall created older,
      answer_of w' = ok_json content \/
      answer_of w' = ok_json (envelope content created older) ->
      fst (retrieveSdpFromDweet encodeURIComponent sessionId type maxRetries
             w')
      = Normal sdp.
Proof.
  intros Hwf Hlat Htype Hclock Hmax. cbv zeta.
  assert (Henc : encodeSdp sdp = Normal (b64_encode (JSON_stringify sdp)))
    by (unfold encodeSdp, btoa; now rewrite Hlat).
  destruct (encodeSdp_value sdp _ Henc) as (_ & Hok & Htrue).
  destruct (storeSdpOnDweet_run encodeURIComponent sessionId sdp type w _ Henc)
    as [_ Ht].
  eexists _, _. split; [rewrite Ht; apply fetches_head|].
  split; [exact (sdp_body_parses type _ (clock w) Htype Hok Hclock)|].
  intros created older Hanswer.
  rewrite <- (encodeSdp_decodes sdp _ Hwf Henc).
  apply (retrieveSdpFromDweet_first encodeURIComponent sessionId type
           maxRetries w' (VData (JStr (b64_encode (JSON_stringify sdp))))
           Hmax).
  destruct Hanswer as [-> | ->]; unfold classify, ok_json;
    cbn [ok json_body].
  - rewrite sdp_of_bare_object by reflexivity.
    unfold js_or.
    change (lookup_prop (lit "sdp") _)
      with (VData (JStr (b64_encode (JSON_stringify sdp)))).
    now rewrite Htrue, Htrue.
  - rewrite sdp_of_envelope.
    unfold js_or.
    change (lookup_prop (lit "sdp") _)
      with (VData (JStr (b64_encode (JSON_stringify sdp)))).
    now rewrite Htrue, Htrue.
Qed.

Variable string_gt_zero : jsstring -> bool.

(** X15: a candidate goes through the relay as the record of its three
    fields.  The body [storeIceCandidateOnDweet] posts for a candidate
    object is JSON; when the relay later answers
    [retrieveIceCandidatesFromDweet] of the peer with the envelope of that
    record, the peer gets the three-field record and the time it was
    published at. *)
Theorem storeIceCandidateOnDweet_then_retrieve (sessionId : jsstring)
  (props : list (jsstring * json)) (isOfferer : bool) (w w' : world) :
  json_wf (JObj props) = true ->
  safe_integer (clock w) = true ->
  clock w <> 0%Z ->
  let stored := storeIceCandidateOnDweet encodeURIComponent sessionId
                  (JObj props) isOfferer w in
  let url := ice_fetch_url sessionId (negb isOfferer) in
  let answer_of w' :=
    effective w' (served w') (get_request url)
      (get_request (dweetProxyUrl encodeURIComponent url)) in
  exists body content,
    nth_error (trace (snd stored)) (length (trace w))
      = Some (Fetched (post_request (ice_topic_url sessionId isOfferer) body))
    /\
    JSON_parse body = Normal content /\
    forall created older,
      answer_of w' = ok_json (envelope content created older) ->
      fst (retrieveIceCandidatesFromDweet encodeURIComponent string_gt_zero
             sessionId (negb isOfferer) w')
      = Normal (Some {| ice_candidate := VData (candidate_record (JObj props));
                        ice_timestamp := VData (JNum (clock w)) |}).
Proof.
  intros Hwf Hclock Hnow. cbv zeta.
  destruct (storeIceCandidateOnDweet_run encodeURIComponent sessionId
              (JObj props) isOfferer w ltac:(discriminate)) as [_ Ht].
  cbv zeta in Ht. fold (candidate_record (JObj props)) in Ht.
  eexists _, _. split; [rewrite Ht; apply fetches_head|].
  split; [exact (ice_body_parses _ (clock w) (candidate_record_wf props Hwf)
                   Hclock)|].
  intros created older Hanswer.
  destruct (retrieveIceCandidatesFromDweet_run encodeURIComponent
              string_gt_zero sessionId (negb isOfferer) w') as [Hr _].
  cbv zeta in Hr. rewrite Hr, Hanswer. unfold ice_result, ok_json.
  cbn [ok json_body].
  rewrite (ice_of_envelope string_gt_zero _ created older
             (candidate_record (JObj props))) by reflexivity.
  change (lookup_prop (lit "timestamp") _) with (VData (JNum (clock w))).
  unfold js_or. cbn [truthy].
  destruct (Z.eqb_spec (clock w) 0) as [E|_]; [contradiction|reflexivity].
Qed.

(** X16: [storeIceCandidateOnDweet] never raises.  For a [null] candidate
    it returns false without a request.  Otherwise it sends one POST to the
    relay and, exactly when that request fails on the network level, one
    more through the proxy; it returns whether the request that was answered
    had a success status, and false when neither was answered. *)
Theorem storeIceCandidateOnDweet_outcome (sessionId : jsstring)
  (candidate : json) (isOfferer : bool) (w : world) :
  let url := ice_topic_url sessionId isOfferer in
  let body := ice_body (candidate_record candidate) (clock w) in
  let req := post_request url body in
  let preq := post_request (dweetProxyUrl encodeURIComponent url) body in
  let run := storeIceCandidateOnDweet encodeURIComponent sessionId candidate
               isOfferer w in
  match candidate with
  | JNull => run = (Normal false, w)
  | _ =>
      match direct w (served w) req with
      | Responded r =>
          fst run = Normal (ok r) /\
          trace (snd run) = trace w ++ [Fetched req]
      | Unreachable =>
          fst run = Normal match proxied w (served w) preq with
                           | Responded r => ok r
                           | Unreachable => false
                           end /\
          trace (snd run) = trace w ++ [Fetched req; Fetched preq]
      end
  end.
Proof.
  cbv zeta.
  assert (H : candidate <> JNull ->
              match direct w (served w)
                      (post_request (ice_topic_url sessionId isOfferer)
                         (ice_body (candidate_record candidate) (clock w)))
              with
              | Responded r =>
                  fst (storeIceCandidateOnDweet encodeURIComponent sessionId
                         candidate isOfferer w) = Normal (ok r) /\
                  trace (snd (storeIceCandidateOnDweet encodeURIComponent
                                sessionId candidate isOfferer w))
                  = trace w ++
                    [Fetched (post_request (ice_topic_url sessionId isOfferer)
                                (ice_body (candidate_record candidate)
                                   (clock w)))]
              | Unreachable =>
                  fst (storeIceCandidateOnDweet encodeURIComponent sessionId
                         candidate isOfferer w)
                  = Normal
                      match
                        proxied w (served w)
                          (post_request
                             (dweetProxyUrl encodeURIComponent
                                (ice_topic_url sessionId isOfferer))
                             (ice_body (candidate_record candidate) (clock w)))
                      with
                      | Responded r => ok r
                      | Unreachable => false
                      end /\
                  trace (snd (storeIceCandidateOnDweet encodeURIComponent
                                sessionId candidate isOfferer w))
                  = trace w ++
                    [Fetched (post_request (ice_topic_url sessionId isOfferer)
                                (ice_body (candidate_record candidate)
                                   (clock w)));
                     Fetched (post_request
                                (dweetProxyUrl encodeURIComponent
                                   (ice_topic_url sessionId isOfferer))
                                (ice_body (candidate_record candidate)
                                   (clock w)))]
              end).
  { intros Hj.
    destruct (storeIceCandidateOnDweet_run encodeURIComponent sessionId
                candidate isOfferer w Hj) as [Hr Ht].
    cbv zeta in Hr, Ht. fold (candidate_record candidate) in Hr, Ht.
    unfold effective, fetches in Hr, Ht.
    destruct (direct w (served w) _); split; assumption. }
  destruct candidate; try (apply H; discriminate).
  apply storeIceCandidateOnDweet_null.
Qed.

(** X17: [retrieveSdpFromDweet] never raises, sends the relay at most
    [maxRetries] requests (each followed by at most one through the proxy),
    and sleeps at most [maxRetries - 1] times 1500 ms in all: it does not
    wait after its last attempt.  With [maxRetries] of zero it returns
    [null] and does nothing. *)
Theorem retrieveSdpFromDweet_budget (sessionId type : jsstring)
  (maxRetries : nat) (w : world) :
  let run :=
    retrieveSdpFromDweet encodeURIComponent sessionId type maxRetries w in
  exists v events,
    fst run = Normal v /\
    trace (snd run) = trace w ++ events /\
    served w <= served (snd run) <= served w + maxRetries /\
    served (snd run) - served w <= count_fetches events
      <= 2 * (served (snd run) - served w) /\
    total_sleep events <= 1500 * (maxRetries - 1) /\
    (maxRetries = 0 -> v = JNull /\ events = []).
Proof.
  cbv zeta. unfold retrieveSdpFromDweet.
  pose proof (retrieve_loop_run encodeURIComponent
                (sdp_fetch_url encodeURIComponent sessionId type) maxRetries
                eq_refl maxRetries 1 w eq_refl) as L.
  cbv zeta in L.
  destruct (first_payload _ (served w) maxRetries) as [[k enc]|] eqn:F.
  - destruct L as (L1 & L2 & L3).
    apply first_payload_range in F as F'.
    eexists _, _. split; [exact L1|]. split; [exact L3|].
    rewrite L2.
    match goal with
    | |- context [loop_events ?w0 ?req ?preq ?m ?a ?n ?c] =>
        destruct (loop_events_budget w0 req preq m c a n) as (B1 & B2 & B3)
    end.
    split; [lia|]. split; [lia|]. split; [exact B3|].
    intros ->. cbn in F. discriminate.
  - destruct L as (L1 & L2 & L3).
    eexists _, _. split; [exact L1|]. split; [exact L3|].
    rewrite L2.
    match goal with
    | |- context [loop_events ?w0 ?req ?preq ?m ?a ?n ?c] =>
        destruct (loop_events_budget w0 req preq m c a n) as (B1 & B2 & B3)
    end.
    split; [lia|]. split; [lia|]. split; [exact B3|].
    intros ->. split; reflexivity.
Qed.

(** X18: [retrieveIceCandidatesFromDweet] never raises and makes a single
    attempt: one GET to the relay and, exactly when that request fails on
    the network level, one more through the proxy; it never waits. *)
Theorem retrieveIceCandidatesFromDweet_single_attempt (sessionId : jsstring)
  (isOfferer : bool) (w : world) :
  let url := ice_fetch_url sessionId isOfferer in
  let req := get_request url in
  let preq := get_request (dweetProxyUrl encodeURIComponent url) in
  let run := retrieveIceCandidatesFromDweet encodeURIComponent string_gt_zero
               sessionId isOfferer w in
  exists found events,
    fst run = Normal found /\
    trace (snd run) = trace w ++ events /\
    total_sleep events = 0 /\
    events = match direct w (served w) req with
             | Responded _ => [Fetched req]
             | Unreachable => [Fetched req; Fetched preq]
             end.
Proof.
  cbv zeta.
  destruct (retrieveIceCandidatesFromDweet_run encodeURIComponent
              string_gt_zero sessionId isOfferer w) as [Hr Ht].
  cbv zeta in Hr, Ht.
  eexists _, _. split; [exact Hr|]. split; [exact Ht|].
  split; [apply fetches_count|].
  unfold fetches. destruct (direct w (served w) _); reflexivity.
Qed.

Variable sessionId type : jsstring.

(** X27: [retrieveSdpFromDweet] still reads the legacy field [offer].  When
    the record of the first answer has no [sdp], or an empty one, and holds
    an encoded description under [offer], the function returns what
    [decodeSdp] makes of it, for either shape of the answer. *)
Theorem retrieveSdpFromDweet_legacy_offer (maxRetries : nat) (w : world)
  (props : list (jsstring * json)) (created : json) (older : list json)
  (enc : json) :
  1 <= maxRetries ->
  truthy (lookup_prop (lit "sdp") props) = false ->
  lookup_prop (lit "offer") props = VData enc ->
  truthy (VData enc) = true ->
  let url := sdp_fetch_url encodeURIComponent sessionId type in
  let answer :=
    effective w (served w) (get_request url)
      (get_request (dweetProxyUrl encodeURIComponent url)) in
  let sdp :=
    fst (retrieveSdpFromDweet encodeURIComponent sessionId type maxRetries w)
  in
  (answer = ok_json (envelope (JObj props) created older) ->
   sdp = decodeSdp enc) /\
  (lookup_prop key_with props = VUndefined ->
   lookup_prop (lit "content") props = VUndefined ->
   answer = ok_json (JObj props) ->
   sdp = decodeSdp enc).
Proof.
  intros Hmax Hsdp Hoffer Htrue. cbv zeta.
  assert (Hor : js_or (lookup_prop (lit "sdp") props)
                  (lookup_prop (lit "offer") props) = VData enc)
    by (unfold js_or; now rewrite Hsdp).
  split.
  - intros H.
    apply (retrieveSdpFromDweet_first encodeURIComponent sessionId type
             maxRetries w (VData enc) Hmax).
    rewrite H. unfold classify, ok_json. cbn [ok json_body].
    now rewrite sdp_of_envelope, Hor, Htrue.
  - intros Hw Hc H.
    apply (retrieveSdpFromDweet_first encodeURIComponent sessionId type
             maxRetries w (VData enc) Hmax).
    rewrite H. unfold classify, ok_json. cbn [ok json_body].
    now rewrite (sdp_of_bare_object props Hw Hc), Hor, Htrue.
Qed.

(** The attempts of the loop do not pause when every answer is readable
    and holds no description. *)
Lemma loop_events_no_pause (w : world) (req preq : request) (maxRetries : nat)
  (count : nat) :
  (forall n, classify (effective w n req preq) = Empty) ->
  forall attempt n,
    total_sleep (loop_events w req preq maxRetries attempt n count) = 0.
Proof.
  intros H. induction count as [|count IH]; intros attempt n;
    cbn [loop_events]; [reflexivity|].
  rewrite !total_sleep_app, H, IH.
  destruct (fetches_count w n req preq) as [_ ->]. reflexivity.
Qed.

(** X28: [retrieveSdpFromDweet] does not wait between attempts that are
    answered without a description.  When every answer has a success
    status and a readable body in which no encoded description is found
    (an envelope with no record, say), the function makes all its
    [maxRetries] attempts without sleeping at all, and returns [null]. *)
Theorem retrieveSdpFromDweet_no_pause_on_empty (maxRetries : nat) (w : world) :
  let url := sdp_fetch_url encodeURIComponent sessionId type in
  let answer n :=
    effective w n (get_request url)
      (get_request (dweetProxyUrl encodeURIComponent url)) in
  let run :=
    retrieveSdpFromDweet encodeURIComponent sessionId type maxRetries w in
  (forall n, exists data found,
      answer n = ok_json data /\
      sdp_of_answer data = Normal found /\ truthy found = false) ->
  exists events,
    fst run = Normal JNull /\
    served (snd run) = served w + maxRetries /\
    trace (snd run) = trace w ++ events /\
    maxRetries <= count_fetches events /\
    total_sleep events = 0.
Proof.
  cbv zeta. intros H.
  assert (Hempty : forall n,
             classify
               (effective w n
                  (get_request (sdp_fetch_url encodeURIComponent sessionId
                                  type))
                  (get_request
                     (dweetProxyUrl encodeURIComponent
                        (sdp_fetch_url encodeURIComponent sessionId type))))
             = Empty).
  { intros n. destruct (H n) as (data & found & -> & Hfound & Hfalse).
    unfold classify, ok_json. cbn [ok json_body].
    now rewrite Hfound, Hfalse. }
  unfold retrieveSdpFromDweet.
  pose proof (retrieve_loop_run encodeURIComponent
                (sdp_fetch_url encodeURIComponent sessionId type) maxRetries
                eq_refl maxRetries 1 w eq_refl) as L.
  cbv zeta in L. rewrite first_payload_none in L.
  - destruct L as (L1 & L2 & L3). eexists. split; [exact L1|].
    split; [exact L2|]. split; [exact L3|]. split.
    + apply loop_events_budget.
    + now apply loop_events_no_pause.
  - intros i _ enc. rewrite Hempty. discriminate.
Qed.

End MoreRelay.

Lemma storeSdpOnDweet_then_retrieve_witness :
  let w := answering Unreachable in
  let content :=
    JObj [(lit "type", JStr (lit "offer")); (lit "sdp", JStr sample_enc);
          (lit "timestamp", JNum 1700000000000)] in
  let w' := answering (ok_json (envelope content JNull [])) in
  json_wf sample_offer = true /\
  is_latin1 (JSON_stringify sample_offer) = true /\
  string_ok (lit "offer") = true /\
  safe_integer (clock w) = true /\
  1 <= 5 /\
  fst (retrieveSdpFromDweet unreserved (lit "AB12CD") (lit "offer") 5 w')
  = Normal sample_offer.
Proof.
  cbv zeta. do 4 (split; [reflexivity|]). split; [lia|].
  destruct (storeSdpOnDweet_then_retrieve unreserved (lit "AB12CD")
              (lit "offer") sample_offer (answering Unreachable)
              (answering
                 (ok_json
                    (envelope
                       (JObj [(lit "type", JStr (lit "offer"));
                              (lit "sdp", JStr sample_enc);
                              (lit "timestamp", JNum 1700000000000)])
                       JNull [])))
              5 eq_refl eq_refl eq_refl eq_refl ltac:(lia))
    as (body & content & Hposted & Hparsed & Hback).
  apply (Hback JNull []). right.
  assert (Hbody : body = sdp_body (lit "offer") sample_enc 1700000000000).
  { vm_compute in Hposted. injection Hposted as <-. vm_compute. reflexivity. }
  subst body. vm_compute in Hparsed. injection Hparsed as <-.
  reflexivity.
Defined.

Lemma storeIceCandidateOnDweet_then_retrieve_witness :
  let w := answering Unreachable in
  let props :=
    [(lit "candidate", JStr (lit "candidate:1 1 udp 2122260223 192.0.2.1 54321 typ host"));
     (lit "sdpMLineIndex", JNum 0);
     (lit "sdpMid", JStr (lit "0"))] in
  let content :=
    JObj [(lit "candidate", candidate_record (JObj props));
          (lit "timestamp", JNum 1700000000000)] in
  let w' := answering (ok_json (envelope content JNull [])) in
  json_wf (JObj props) = true /\
  safe_integer (clock w) = true /\
  clock w <> 0%Z /\
  fst (retrieveIceCandidatesFromDweet unreserved never_positive
         (lit "AB12CD") false w')
  = Normal (Some {| ice_candidate := VData (candidate_record (JObj props));
                    ice_timestamp := VData (JNum 1700000000000) |}).
Proof.
  cbv zeta. do 2 (split; [reflexivity|]). split; [discriminate|].
  destruct (storeIceCandidateOnDweet_then_retrieve unreserved never_positive
              (lit "AB12CD")
              [(lit "candidate", JStr (lit "candidate:1 1 udp 2122260223 192.0.2.1 54321 typ host"));
               (lit "sdpMLineIndex", JNum 0);
               (lit "sdpMid", JStr (lit "0"))]
              true (answering Unreachable)
              (answering
                 (ok_json
                    (envelope
                       (JObj [(lit "candidate",
                               candidate_record
                                 (JObj [(lit "candidate", JStr (lit "candidate:1 1 udp 2122260223 192.0.2.1 54321 typ host"));
                                        (lit "sdpMLineIndex", JNum 0);
                                        (lit "sdpMid", JStr (lit "0"))]));
                              (lit "timestamp", JNum 1700000000000)])
                       JNull [])))
              eq_refl eq_refl ltac:(discriminate))
    as (body & content & Hposted & Hparsed & Hback).
  apply (Hback JNull []).
  vm_compute in Hposted. injection Hposted as <-.
  vm_compute in Hparsed. injection Hparsed as <-.
  reflexivity.
Defined.

Lemma retrieveSdpFromDweet_legacy_offer_witness :
  let props := [(lit "offer", JStr sample_enc)] in
  let w := answering (ok_json (envelope (JObj props) JNull [])) in
  1 <= 5 /\
  truthy (lookup_prop (lit "sdp") props) = false /\
  lookup_prop (lit "offer") props = VData (JStr sample_enc) /\
  truthy (VData (JStr sample_enc)) = true /\
  fst (retrieveSdpFromDweet unreserved (lit "AB12CD") (lit "offer") 5 w)
  = Normal sample_offer.
Proof.
  cbv zeta. split; [lia|]. do 3 (split; [reflexivity|]).
  destruct (retrieveSdpFromDweet_legacy_offer unreserved (lit "AB12CD")
              (lit "offer") 5
              (answering
                 (ok_json
                    (envelope (JObj [(lit "offer", JStr sample_enc)]) JNull
                       [])))
              [(lit "offer", JStr sample_enc)] JNull [] (JStr sample_enc)
              ltac:(lia) eq_refl eq_refl eq_refl) as [H _].
  rewrite (H eq_refl). vm_compute. reflexivity.
Defined.

Lemma retrieveSdpFromDweet_no_pause_on_empty_witness :
  let w := answering (ok_json (JObj [(lit "with", JArr [])])) in
  sdp_of_answer (JObj [(lit "with", JArr [])]) = Normal VUndefined /\
  exists events,
    fst (retrieveSdpFromDweet unreserved (lit "AB12CD") (lit "offer") 5 w)
    = Normal JNull /\
    trace (snd (retrieveSdpFromDweet unreserved (lit "AB12CD") (lit "offer")
                  5 w)) = events /\
    5 <= count_fetches events /\
    total_sleep events = 0.
Proof.
  cbv zeta. split; [reflexivity|].
  destruct (retrieveSdpFromDweet_no_pause_on_empty unreserved (lit "AB12CD")
              (lit "offer") 5
              (answering (ok_json (JObj [(lit "with", JArr [])]))))
    as (events & H1 & _ & H3 & H4 & H5).
  - intros n. exists (JObj [(lit "with", JArr [])]).
    eexists. split; [reflexivity|]. split; reflexivity.
  - exists events. split; [exact H1|]. split; [exact H3|].
    split; [exact H4|exact H5].
Defined.


(** * Properties of the session store: [storeSdp] and [retrieveSdp] *)

Lemma getItem_setItem_same (key value : jsstring) (store : Storage) :
  getItem key (setItem key value store) = Some value.
Proof.
  induction store as [|[k v] store IH]; cbn [setItem getItem].
  - now rewrite jsstring_eqb_refl.
  - destruct (jsstring_eqb key k) eqn:E; cbn [getItem]; rewrite E;
      [reflexivity|exact IH].
Qed.

Lemma getItem_setItem_other (key key' value : jsstring) (store : Storage) :
  key' <> key -> getItem key' (setItem key value store) = getItem key' store.
Proof.
  intros Hne. apply jsstring_eqb_neq in Hne.
  induction store as [|[k v] store IH]; cbn [setItem getItem].
  - now rewrite Hne.
  - destruct (jsstring_eqb key k) eqn:E; cbn [getItem].
    + apply jsstring_eqb_eq in E. subst k. now rewrite Hne.
    + now rewrite IH.
Qed.

Lemma time_key_neq (key : jsstring) : key <> time_key key.
Proof.
  unfold time_key. intros H. apply (f_equal (@length code_unit)) in H.
  rewrite length_app in H. cbn in H. lia.
Qed.

(** What [storeSdp] leaves in the store when [encodeSdp] succeeds. *)
Lemma storeSdp_run (sessionId type : jsstring) (sdp : json) (now : Z)
  (store : Storage) (enc : jsstring) :
  encodeSdp sdp = Normal enc ->
  let key := sdp_key sessionId type in
  let stored := storeSdp sessionId sdp type now store in
  fst stored = Normal tt /\
  getItem key (snd stored) = Some enc /\
  getItem (time_key key) (snd stored) = Some (print_number now) /\
  forall key', key' <> key -> key' <> time_key key ->
               getItem key' (snd stored) = getItem key' store.
Proof.
  intros Henc. cbv zeta. unfold storeSdp. rewrite Henc. cbn [fst snd].
  split; [reflexivity|]. split; [|split].
  - rewrite getItem_setItem_other by apply time_key_neq.
    apply getItem_setItem_same.
  - apply getItem_setItem_same.
  - intros key' H1 H2. now rewrite !getItem_setItem_other.
Qed.

(** X19: what [storeSdp] stores, [retrieveSdp] returns.  After
    [storeSdp(sessionId, sdp, type)], [retrieveSdp] called with a session id
    and a type that make the same key [sdp_<id>_<type>] (the same two, or
    two others that join to the same text) returns the description that was
    stored; and the entry [<key>_time] holds the time of the call. *)
Theorem storeSdp_then_retrieveSdp (sessionId type sessionId' type' : jsstring)
  (sdp : json) (now : Z) (store : Storage) :
  json_wf sdp = true ->
  is_latin1 (JSON_stringify sdp) = true ->
  sdp_key sessionId' type' = sdp_key sessionId type ->
  let stored := storeSdp sessionId sdp type now store in
  fst stored = Normal tt /\
  retrieveSdp sessionId' type' (snd stored) = Normal sdp /\
  getItem (time_key (sdp_key sessionId type)) (snd stored)
  = Some (print_number now).
Proof.
  intros Hwf Hlat Hkey. cbv zeta.
  assert (Henc : encodeSdp sdp = Normal (b64_encode (JSON_stringify sdp)))
    by (unfold encodeSdp, btoa; now rewrite Hlat).
  destruct (storeSdp_run sessionId type sdp now store _ Henc)
    as (H1 & H2 & H3 & _).
  split; [exact H1|]. split; [|exact H3].
  unfold retrieveSdp. rewrite Hkey, H2.
  destruct (encodeSdp_value sdp _ Henc) as (_ & _ & ->).
  exact (encodeSdp_decodes sdp _ Hwf Henc).
Qed.

Lemma storeSdp_then_retrieveSdp_witness :
  json_wf sample_offer = true /\
  is_latin1 (JSON_stringify sample_offer) = true /\
  sdp_key (lit "AB12CD") (lit "x_offer") = sdp_key (lit "AB12CD_x") (lit "offer") /\
  retrieveSdp (lit "AB12CD") (lit "x_offer")
    (snd (storeSdp (lit "AB12CD_x") sample_offer (lit "offer") 1700000000000 []))
  = Normal sample_offer.
Proof.
  do 3 (split; [reflexivity|]).
  apply (storeSdp_then_retrieveSdp (lit "AB12CD_x") (lit "offer")
           (lit "AB12CD") (lit "x_offer") sample_offer 1700000000000 []);
    reflexivity.
Defined.

(** X20: [storeSdp] raises exactly when [encodeSdp] refuses the
    description, which is when its JSON rendering is not Latin-1, and then
    the store is as it was.  In any case the entries of the store other
    than [sdp_<id>_<type>] and [sdp_<id>_<type>_time] are unchanged, and so
    is what [retrieveSdp] returns for any session id and type whose key is
    neither of the two. *)
Theorem storeSdp_frame (sessionId type : jsstring) (sdp : json) (now : Z)
  (store : Storage) :
  let key := sdp_key sessionId type in
  let stored := storeSdp sessionId sdp type now store in
  is_normal (fst stored) = is_latin1 (JSON_stringify sdp) /\
  (is_normal (fst stored) = false -> snd stored = store) /\
  (forall key', key' <> key -> key' <> time_key key ->
                getItem key' (snd stored) = getItem key' store) /\
  (forall sessionId' type',
      sdp_key sessionId' type' <> key ->
      sdp_key sessionId' type' <> time_key key ->
      retrieveSdp sessionId' type' (snd stored)
      = retrieveSdp sessionId' type' store).
Proof.
  cbv zeta.
  assert (Hframe : forall key',
             key' <> sdp_key sessionId type ->
             key' <> time_key (sdp_key sessionId type) ->
             getItem key' (snd (storeSdp sessionId sdp type now store))
             = getItem key' store).
  { intros key' H1 H2. unfold storeSdp.
    destruct (encodeSdp sdp) as [enc|e]; cbn [snd]; [|reflexivity].
    now rewrite !getItem_setItem_other. }
  split; [|split; [|split]].
  - unfold storeSdp, encodeSdp, btoa.
    now destruct (is_latin1 (JSON_stringify sdp)).
  - unfold storeSdp. destruct (encodeSdp sdp); [discriminate|reflexivity].
  - exact Hframe.
  - intros sessionId' type' H1 H2. unfold retrieveSdp.
    now rewrite (Hframe _ H1 H2).
Qed.

(** * Properties of the links *)

(** ** Strings *)

Lemma forallb_weaken (A : Type) (f g : A -> bool) (l : list A) :
  (forall x, f x = true -> g x = true) ->
  forallb f l = true -> forallb g l = true.
Proof.
  intros Hfg H. apply forallb_forall. intros x Hx.
  apply Hfg. now apply (proj1 (forallb_forall f l) H).
Qed.

Lemma endsWith_app_one (c : code_unit) (s : jsstring) :
  endsWith c (s ++ [c]) = true.
Proof. unfold endsWith. rewrite rev_app_distr. cbn. apply N.eqb_refl. Qed.

Lemma endsWith_last (c : code_unit) (s : jsstring) :
  endsWith c s = true -> exists a, s = a ++ [c].
Proof.
  unfold endsWith. destruct (rev s) as [|x r] eqn:E; [discriminate|].
  intros H. apply N.eqb_eq in H. subst x. exists (rev r).
  now rewrite <- (rev_involutive s), E.
Qed.

Lemma absent_app (c : code_unit) (a b : jsstring) :
  absent c (a ++ b) = absent c a && absent c b.
Proof. apply forallb_app. Qed.

Lemma absent_not_last (c : code_unit) (s : jsstring) :
  absent c s = true -> endsWith c s = false.
Proof.
  intros H. destruct (endsWith c s) eqn:E; [|reflexivity].
  apply endsWith_last in E as [a ->]. rewrite absent_app in H.
  apply andb_true_iff in H as [_ H]. cbn in H. now rewrite N.eqb_refl in H.
Qed.

Lemma lastIndexOf_from_absent (c : code_unit) (s : jsstring) :
  forall i found, absent c s = true -> lastIndexOf_from c s i found = found.
Proof.
  induction s as [|x s IH]; intros i found H; [reflexivity|].
  cbn in H. apply andb_true_iff in H as [Hx Hs]. apply negb_true_iff in Hx.
  cbn [lastIndexOf_from]. rewrite Hx. now apply IH.
Qed.

Lemma lastIndexOf_from_app (c : code_unit) (a b : jsstring) :
  forall i found,
    absent c b = true ->
    lastIndexOf_from c (a ++ c :: b) i found = (i + Z.of_nat (length a))%Z.
Proof.
  induction a as [|x a IH]; intros i found Hb.
  - cbn [app lastIndexOf_from length]. rewrite N.eqb_refl.
    rewrite lastIndexOf_from_absent by exact Hb. cbn. lia.
  - cbn [app lastIndexOf_from]. rewrite IH by exact Hb.
    cbn [length]. lia.
Qed.

(** A string either does not hold [c] or splits at the last [c]. *)
Lemma last_occurrence (c : code_unit) (s : jsstring) :
  absent c s = true \/
  exists a b, s = a ++ c :: b /\ absent c b = true.
Proof.
  induction s as [|x s IH]; [now left|].
  destruct IH as [H|(a & b & -> & Hb)].
  - destruct (N.eqb_spec x c) as [->|Hx].
    + right. exists [], s. split; [reflexivity|exact H].
    + left. unfold absent in *. cbn [forallb]. rewrite H.
      apply N.eqb_neq in Hx. now rewrite Hx.
  - right. exists (x :: a), b. split; [reflexivity|exact Hb].
Qed.

Lemma firstn_through (c : code_unit) (a b : jsstring) :
  firstn (S (length a)) (a ++ c :: b) = a ++ [c].
Proof.
  rewrite firstn_app, firstn_all2 by lia.
  replace (S (length a) - length a) with 1 by lia. reflexivity.
Qed.

(** X21: the directory of the page is the path up to and including its
    last [/]: what follows it holds no [/], and the directory is empty or
    ends with [/].  The test [pathname.endsWith('/')] changes nothing: the
    [substring] gives the same directory for every path. *)
Theorem page_directory_is_prefix (loc : Location) :
  exists file,
    pathname loc = page_directory loc ++ file /\
    absent ch_slash file = true /\
    (page_directory loc = [] \/ endsWith ch_slash (page_directory loc) = true)
    /\
    page_directory loc =
      substring 0 (Z.to_nat (lastIndexOf ch_slash (pathname loc) + 1))
        (pathname loc).
Proof.
  unfold page_directory, lastIndexOf, substring. cbn [skipn].
  destruct (last_occurrence ch_slash (pathname loc))
    as [H|(a & b & E & Hb)].
  - rewrite (absent_not_last _ _ H), lastIndexOf_from_absent by exact H.
    exists (pathname loc). cbn. auto.
  - rewrite E, lastIndexOf_from_app by exact Hb.
    replace (Z.to_nat (0 + Z.of_nat (length a) + 1) - 0) with (S (length a))
      by lia.
    rewrite firstn_through.
    assert (Hnil : endsWith ch_slash (a ++ ch_slash :: b) = true -> b = []).
    { intros Hend. destruct b as [|y b _] using rev_ind; [reflexivity|].
      apply endsWith_last in Hend as [a' Ha'].
      rewrite app_comm_cons, app_assoc in Ha'.
      apply app_inj_tail in Ha' as [_ ->].
      rewrite absent_app in Hb. apply andb_true_iff in Hb as [_ Hb].
      cbn in Hb. discriminate. }
    exists b. destruct (endsWith ch_slash (a ++ ch_slash :: b)) eqn:Hend.
    + rewrite (Hnil eq_refl) in *.
      split; [now rewrite app_nil_r|]. split; [reflexivity|].
      split; [right; apply endsWith_app_one|reflexivity].
    + split; [now rewrite <- app_assoc|]. split; [exact Hb|].
      split; [right; apply endsWith_app_one|reflexivity].
Qed.

Lemma cleanBase_ends (baseUrl : jsstring) :
  endsWith ch_slash (cleanBase baseUrl) = true.
Proof.
  unfold cleanBase. destruct (endsWith ch_slash baseUrl) eqn:E;
    [exact E|apply endsWith_app_one].
Qed.

(** X22: the link [generateShareableUrlWithSession] makes is a base that
    ends with [/], followed by [index.html?s=] and the session id as it is.
    The base is the base URL given, with a [/] added unless it ends with
    one, so a base URL names the same link with and without its final [/];
    a base URL of [null] or the empty string stands for the directory of
    the page. *)
Theorem generateShareableUrlWithSession_shape (loc : Location)
  (sessionId : jsstring) (baseUrl : option jsstring) :
  exists clean,
    generateShareableUrlWithSession loc sessionId baseUrl
    = clean ++ lit "index.html?s=" ++ sessionId /\
    endsWith ch_slash clean = true /\
    (forall b, baseUrl = Some b -> b <> [] ->
               clean = if endsWith ch_slash b then b else b ++ [ch_slash]) /\
    (baseUrl = None \/ baseUrl = Some [] ->
     clean = cleanBase (origin loc ++ page_directory loc)) /\
    (forall b, b <> [] -> endsWith ch_slash b = false ->
               generateShareableUrlWithSession loc sessionId
                 (Some (b ++ [ch_slash]))
               = generateShareableUrlWithSession loc sessionId (Some b)).
Proof.
  exists (cleanBase (base_or_page loc baseUrl)).
  split; [reflexivity|]. split; [apply cleanBase_ends|]. split; [|split].
  - intros b -> Hb. destruct b as [|c b]; [now destruct Hb|reflexivity].
  - intros [-> | ->]; reflexivity.
  - intros b Hb Hend. unfold generateShareableUrlWithSession. f_equal.
    destruct b as [|c b]; [now destruct Hb|].
    cbn [base_or_page app]. unfold cleanBase.
    change (c :: b ++ [ch_slash]) with ((c :: b) ++ [ch_slash]).
    now rewrite endsWith_app_one, Hend.
Qed.

(** ** The query of the page *)

Lemma plain_value_facts (c : code_unit) :
  plain_value_unit c = true ->
  ascii_unit c = true /\ (c =? ch_ampersand)%N = false /\
  (c =? ch_plus)%N = false /\ (c =? ch_percent)%N = false.
Proof.
  unfold plain_value_unit, ascii_unit. intros H.
  repeat (apply andb_true_iff in H; destruct H as [H ?]).
  repeat match goal with
         | H' : negb _ = true |- _ => apply negb_true_iff in H'
         end.
  auto.
Qed.

Lemma plain_name_facts (c : code_unit) :
  plain_name_unit c = true ->
  plain_value_unit c = true /\ (c =? ch_equals)%N = false.
Proof.
  unfold plain_name_unit. intros H. apply andb_true_iff in H as [H1 H2].
  apply negb_true_iff in H2. auto.
Qed.

Lemma ascii_not_surrogate (c : code_unit) :
  ascii_unit c = true ->
  is_high_surrogate c = false /\ is_low_surrogate c = false.
Proof.
  unfold ascii_unit, is_high_surrogate, is_low_surrogate. intros H.
  apply N.ltb_lt in H.
  destruct (N.leb_spec 55296 c); [lia|].
  destruct (N.leb_spec 56320 c); [lia|]. split; reflexivity.
Qed.

Lemma scalar_values_ascii (s : jsstring) :
  forallb ascii_unit s = true -> scalar_values s = s.
Proof.
  induction s as [|c s IH]; [reflexivity|]. cbn [forallb]. intros H.
  apply andb_true_iff in H as [Hc Hs].
  destruct (ascii_not_surrogate c Hc) as [Hh Hl].
  cbn [scalar_values]. rewrite Hh, Hl. now rewrite IH.
Qed.

Lemma utf8_encode_ascii (s : jsstring) :
  forallb ascii_unit s = true -> utf8_encode s = s.
Proof.
  intros H. unfold utf8_encode. rewrite (scalar_values_ascii s H).
  induction s as [|c s IH]; [reflexivity|]. cbn [forallb] in H.
  apply andb_true_iff in H as [Hc Hs]. cbn [flat_map].
  unfold utf8_bytes at 1. unfold ascii_unit in Hc. rewrite Hc.
  cbn [app]. now rewrite IH.
Qed.

Lemma utf8_lead_ascii (c : code_unit) :
  ascii_unit c = true -> utf8_lead c = ([c], None).
Proof.
  unfold ascii_unit, utf8_lead. intros H. apply N.ltb_lt in H.
  destruct (N.leb_spec c 127); [reflexivity|lia].
Qed.

Lemma utf8_decode_ascii (s : jsstring) :
  forallb ascii_unit s = true -> utf8_decode s = s.
Proof.
  unfold utf8_decode. induction s as [|c s IH]; [reflexivity|].
  cbn [forallb]. intros H. apply andb_true_iff in H as [Hc Hs].
  cbn [utf8_decode_from]. rewrite (utf8_lead_ascii c Hc).
  cbn [app flat_map]. unfold code_units at 1.
  unfold ascii_unit in Hc. apply N.ltb_lt in Hc.
  destruct (N.ltb_spec c 65536); [|lia]. cbn [app]. now rewrite IH.
Qed.

Lemma replace_all_absent (x y : code_unit) (s : jsstring) :
  absent x s = true -> replace_all x y s = s.
Proof.
  unfold absent, replace_all. induction s as [|c s IH]; [reflexivity|].
  cbn [forallb map]. intros H. apply andb_true_iff in H as [Hc Hs].
  apply negb_true_iff in Hc. rewrite Hc. now rewrite IH.
Qed.

Lemma percent_decode_absent (s : jsstring) :
  absent ch_percent s = true -> percent_decode s = s.
Proof.
  unfold absent. induction s as [|c s IH]; [reflexivity|].
  cbn [forallb]. intros H. apply andb_true_iff in H as [Hc Hs].
  apply negb_true_iff in Hc. cbn [percent_decode]. rewrite Hc.
  now rewrite IH.
Qed.

(** A value of plain characters is read as it is written. *)
Lemma urlencoded_string_plain (s : jsstring) :
  forallb plain_value_unit s = true -> urlencoded_string s = s.
Proof.
  intros H. unfold urlencoded_string.
  rewrite replace_all_absent, percent_decode_absent, utf8_decode_ascii.
  - reflexivity.
  - revert H. apply forallb_weaken. intros c Hc.
    now destruct (plain_value_facts c Hc).
  - revert H. apply forallb_weaken. intros c Hc.
    destruct (plain_value_facts c Hc) as (_ & _ & _ & ->). reflexivity.
  - revert H. apply forallb_weaken. intros c Hc.
    destruct (plain_value_facts c Hc) as (_ & _ & -> & _). reflexivity.
Qed.

Lemma split_first_at (sep : N) (name value : list N) :
  absent sep name = true ->
  split_first sep (name ++ sep :: value) = Some (name, value).
Proof.
  unfold absent. induction name as [|c name IH]; cbn [forallb app split_first].
  - now rewrite N.eqb_refl.
  - intros H. apply andb_true_iff in H as [Hc Hs]. apply negb_true_iff in Hc.
    rewrite Hc. now rewrite IH.
Qed.

Lemma split_on_absent (sep : N) (piece : list N) :
  absent sep piece = true -> split_on sep piece = [piece].
Proof.
  unfold absent. induction piece as [|c piece IH]; [reflexivity|].
  cbn [forallb split_on]. intros H. apply andb_true_iff in H as [Hc Hs].
  apply negb_true_iff in Hc. rewrite Hc. now rewrite IH.
Qed.

Lemma split_on_at (sep : N) (piece rest : list N) :
  absent sep piece = true ->
  split_on sep (piece ++ sep :: rest) = piece :: split_on sep rest.
Proof.
  unfold absent. induction piece as [|c piece IH]; cbn [forallb app split_on].
  - now rewrite N.eqb_refl.
  - intros H. apply andb_true_iff in H as [Hc Hs]. apply negb_true_iff in Hc.
    rewrite Hc. now rewrite IH.
Qed.

Lemma plain_pair_facts (name value : jsstring) :
  plain_pair (name, value) = true ->
  forallb plain_value_unit name = true /\
  forallb plain_value_unit value = true /\
  absent ch_equals name = true /\
  absent ch_ampersand (name ++ ch_equals :: value) = true /\
  forallb ascii_unit (name ++ ch_equals :: value) = true.
Proof.
  unfold plain_pair. cbn [fst snd]. intros H.
  apply andb_true_iff in H as [Hn Hv].
  assert (Hn' : forallb plain_value_unit name = true).
  { revert Hn. apply forallb_weaken. intros c Hc.
    now destruct (plain_name_facts c Hc). }
  split; [exact Hn'|]. split; [exact Hv|]. split; [|split].
  - revert Hn. apply forallb_weaken. intros c Hc.
    destruct (plain_name_facts c Hc) as [_ ->]. reflexivity.
  - unfold absent. rewrite forallb_app. cbn [forallb].
    apply andb_true_iff. split; [|apply andb_true_iff; split; [reflexivity|]].
    + revert Hn'. apply forallb_weaken. intros c Hc.
      destruct (plain_value_facts c Hc) as (_ & -> & _). reflexivity.
    + revert Hv. apply forallb_weaken. intros c Hc.
      destruct (plain_value_facts c Hc) as (_ & -> & _). reflexivity.
  - rewrite forallb_app. cbn [forallb].
    apply andb_true_iff. split; [|apply andb_true_iff; split; [reflexivity|]].
    + revert Hn'. apply forallb_weaken. intros c Hc.
      now destruct (plain_value_facts c Hc).
    + revert Hv. apply forallb_weaken. intros c Hc.
      now destruct (plain_value_facts c Hc).
Qed.

Lemma urlencoded_pair_plain (name value : jsstring) :
  plain_pair (name, value) = true ->
  urlencoded_pair (name ++ ch_equals :: value) = (name, value).
Proof.
  intros H. destruct (plain_pair_facts name value H) as (Hn & Hv & He & _).
  unfold urlencoded_pair. rewrite (split_first_at _ _ _ He).
  now rewrite !urlencoded_string_plain.
Qed.

Lemma not_empty_pair (name value : jsstring) :
  not_empty (name ++ ch_equals :: value) = true.
Proof. now destruct name. Qed.

Lemma query_of_cons (name value : jsstring) (pair : jsstring * jsstring)
  (rest : list (jsstring * jsstring)) :
  query_of ((name, value) :: pair :: rest)
  = (name ++ ch_equals :: value) ++ ch_ampersand :: query_of (pair :: rest).
Proof. cbn [query_of]. now rewrite <- app_assoc. Qed.

Lemma urlencoded_parse_plain (pairs : list (jsstring * jsstring)) :
  forallb plain_pair pairs = true ->
  urlencoded_parse (query_of pairs) = pairs /\
  forallb ascii_unit (query_of pairs) = true.
Proof.
  induction pairs as [|[name value] pairs IH]; [split; reflexivity|].
  cbn [forallb]. intros H. apply andb_true_iff in H as [Hp Hrest].
  destruct (plain_pair_facts name value Hp) as (_ & _ & _ & Hamp & Hascii).
  destruct pairs as [|pair rest].
  - cbn [query_of]. split; [|exact Hascii].
    unfold urlencoded_parse. rewrite (split_on_absent _ _ Hamp).
    cbn [filter]. rewrite not_empty_pair. cbn [map].
    now rewrite (urlencoded_pair_plain name value Hp).
  - destruct (IH Hrest) as [IH1 IH2]. rewrite query_of_cons. split.
    + unfold urlencoded_parse in *. rewrite (split_on_at _ _ _ Hamp).
      cbn [filter]. rewrite not_empty_pair. cbn [map].
      now rewrite (urlencoded_pair_plain name value Hp), IH1.
    + rewrite forallb_app, Hascii. cbn [forallb andb]. exact IH2.
Qed.

(** The pairs of a query that spells plain names and values are those
    names and values. *)
Lemma URLSearchParams_plain (pairs : list (jsstring * jsstring)) :
  forallb plain_pair pairs = true ->
  URLSearchParams (ch_question :: query_of pairs) = pairs.
Proof.
  intros H. destruct (urlencoded_parse_plain pairs H) as [Hp Ha].
  unfold URLSearchParams. rewrite N.eqb_refl.
  now rewrite (utf8_encode_ascii _ Ha).
Qed.

Lemma upper36_is_plain (c : code_unit) :
  is_upper36 c = true -> plain_name_unit c = true.
Proof.
  intros H.
  assert (Hc : (c < 91)%N).
  { unfold is_upper36 in H. apply orb_true_iff in H as [H|H];
      apply andb_true_iff in H as [_ H]; apply N.leb_le in H; lia. }
  pose proof (check_below_sound 91 upper36_plain) as S.
  specialize (S ltac:(vm_compute; reflexivity) c Hc).
  unfold upper36_plain in S. now rewrite H in S.
Qed.

Lemma upper36_plain_string (s : jsstring) :
  forallb is_upper36 s = true -> forallb plain_name_unit s = true.
Proof. apply forallb_weaken, upper36_is_plain. Qed.

Lemma plain_name_value (s : jsstring) :
  forallb plain_name_unit s = true -> forallb plain_value_unit s = true.
Proof.
  apply forallb_weaken. intros c Hc. now destruct (plain_name_facts c Hc).
Qed.

(** What [extractSessionFromUrl] makes of a page whose query is [?s=]
    and a session id of plain characters. *)
Lemma extractSessionFromUrl_s (page : Location) (sessionId : jsstring) :
  forallb plain_value_unit sessionId = true ->
  search page = lit "?s=" ++ sessionId ->
  extractSessionFromUrl page =
  match sessionId with
  | [] => None
  | _ :: _ => Some {| info_sessionId := VData (JStr sessionId);
                      info_type := VData (JStr (lit "offer")) |}
  end.
Proof.
  intros Hplain Hsearch. unfold extractSessionFromUrl. rewrite Hsearch.
  change (lit "?s=" ++ sessionId)
    with (ch_question :: query_of [(lit "s", sessionId)]).
  rewrite URLSearchParams_plain
    by (cbn [forallb]; unfold plain_pair; cbn [fst snd]; now rewrite Hplain).
  change (params_get (lit "s") [(lit "s", sessionId)])
    with (VData (JStr sessionId)).
  change (params_get (lit "type") [(lit "s", sessionId)]) with (VData JNull).
  now destruct sessionId.
Qed.

(** X23: the link that [generateShareableUrl] makes carries the session id
    it returns: the link ends with the query [?s=] and the id, and on a
    page with that query [extractSessionFromUrl] finds the id, with the
    role [offer].  When the random Number renders to no fraction digit the
    id is empty, and [extractSessionFromUrl] finds no session in the
    link. *)
Theorem generateShareableUrl_read_back (random : random_source)
  (loc : Location) (sdp : json) (baseUrl : option jsstring) :
  Forall (fun d => (d < 36)%N) random ->
  let made := generateShareableUrl random loc sdp baseUrl in
  link_sessionId made = generateSessionId random /\
  exists address,
    link_url made = address ++ lit "?s=" ++ link_sessionId made /\
    forall page,
      search page = lit "?s=" ++ link_sessionId made ->
      extractSessionFromUrl page =
      match random with
      | [] => None
      | _ :: _ =>
          Some {| info_sessionId := VData (JStr (link_sessionId made));
                  info_type := VData (JStr (lit "offer")) |}
      end.
Proof.
  intros Hd. cbv zeta. split; [reflexivity|].
  exists (cleanBase (base_or_page loc baseUrl) ++ lit "index.html").
  split.
  - unfold generateShareableUrl, page_link. cbn [link_url link_sessionId].
    now rewrite <- app_assoc.
  - intros page Hsearch. cbn [generateShareableUrl link_sessionId] in *.
    destruct (generateSessionId_shape random Hd) as [Hlen Hall].
    rewrite (extractSessionFromUrl_s page (generateSessionId random)
               (plain_name_value _ (upper36_plain_string _ Hall)) Hsearch).
    destruct random as [|d ds]; [reflexivity|].
    destruct (generateSessionId (d :: ds)); [discriminate|reflexivity].
Qed.

Lemma generateShareableUrl_read_back_witness :
  Forall (fun d => (d < 36)%N) [10; 1; 35; 0; 7; 20; 3; 9]%N /\
  extractSessionFromUrl (page_at (lit "?s=A1Z07K"))
  = Some {| info_sessionId := VData (JStr (lit "A1Z07K"));
            info_type := VData (JStr (lit "offer")) |}.
Proof.
  assert (H : Forall (fun d => (d < 36)%N) [10; 1; 35; 0; 7; 20; 3; 9]%N)
    by (repeat (apply Forall_cons; [reflexivity|]); apply Forall_nil).
  split; [exact H|].
  destruct (generateShareableUrl_read_back [10; 1; 35; 0; 7; 20; 3; 9]%N
              (page_at []) JNull None H) as (_ & address & _ & Hback).
  exact (Hback (page_at (lit "?s=A1Z07K")) eq_refl).
Defined.



(** X25: how [extractSessionFromUrl] reads the query, for session ids and
    roles of plain characters: [session] names the session when there is no
    [s]; [s] wins over [session], also when it comes second; an empty [s]
    gives way to [session]; the role is [type], and [offer] when [type] is
    missing or empty; and a query without a session id gives [null]. *)
Theorem extractSessionFromUrl_parameters (a b t : jsstring) (page : Location) :
  forallb plain_value_unit a = true ->
  forallb plain_value_unit b = true ->
  forallb plain_value_unit t = true ->
  a <> [] -> b <> [] ->
  let found id role :=
    Some {| info_sessionId := VData (JStr id);
            info_type := VData (JStr role) |} in
  (search page = lit "?session=" ++ a ->
   extractSessionFromUrl page = found a (lit "offer")) /\
  (search page = lit "?session=" ++ a ++ lit "&s=" ++ b ->
   extractSessionFromUrl page = found b (lit "offer")) /\
  (search page = lit "?s=&session=" ++ a ->
   extractSessionFromUrl page = found a (lit "offer")) /\
  (search page = lit "?s=" ++ a ++ lit "&type=" ++ t ->
   extractSessionFromUrl page
   = found a match t with [] => lit "offer" | _ :: _ => t end) /\
  (search page = lit "?type=" ++ t -> extractSessionFromUrl page = None) /\
  (search page = [] -> extractSessionFromUrl page = None).
Proof.
  intros Ha Hb Ht Hna Hnb. cbv zeta.
  assert (Hpair : forall k v, forallb plain_name_unit k = true ->
                              forallb plain_value_unit v = true ->
                              plain_pair (k, v) = true).
  { intros k v Hk Hv. unfold plain_pair. cbn [fst snd]. now rewrite Hk, Hv. }
  unfold extractSessionFromUrl.
  split; [|split; [|split; [|split; [|split]]]]; intros ->.
  - change (lit "?session=" ++ a)
      with (ch_question :: query_of [(lit "session", a)]).
    rewrite URLSearchParams_plain
      by (cbn [forallb]; now rewrite Hpair).
    destruct a; [now destruct Hna|reflexivity].
  - change (lit "?session=" ++ a ++ lit "&s=" ++ b)
      with (ch_question :: query_of [(lit "session", a); (lit "s", b)]).
    rewrite URLSearchParams_plain
      by (cbn [forallb]; now rewrite !Hpair).
    destruct b; [now destruct Hnb|reflexivity].
  - change (lit "?s=&session=" ++ a)
      with (ch_question :: query_of [(lit "s", []); (lit "session", a)]).
    rewrite URLSearchParams_plain
      by (cbn [forallb]; now rewrite !Hpair).
    destruct a; [now destruct Hna|reflexivity].
  - change (lit "?s=" ++ a ++ lit "&type=" ++ t)
      with (ch_question :: query_of [(lit "s", a); (lit "type", t)]).
    rewrite URLSearchParams_plain
      by (cbn [forallb]; now rewrite !Hpair).
    destruct a; [now destruct Hna|]. destruct t; reflexivity.
  - change (lit "?type=" ++ t)
      with (ch_question :: query_of [(lit "type", t)]).
    rewrite URLSearchParams_plain
      by (cbn [forallb]; now rewrite Hpair).
    reflexivity.
  - reflexivity.
Qed.

Lemma extractSessionFromUrl_parameters_witness :
  forallb plain_value_unit (lit "OLD123") = true /\
  forallb plain_value_unit (lit "A1Z07K") = true /\
  forallb plain_value_unit (lit "answer") = true /\
  lit "OLD123" <> [] /\ lit "A1Z07K" <> [] /\
  extractSessionFromUrl (page_at (lit "?session=OLD123&s=A1Z07K"))
  = Some {| info_sessionId := VData (JStr (lit "A1Z07K"));
            info_type := VData (JStr (lit "offer")) |}.
Proof.
  do 3 (split; [reflexivity|]). do 2 (split; [discriminate|]).
  destruct (extractSessionFromUrl_parameters (lit "OLD123") (lit "A1Z07K")
              (lit "answer") (page_at (lit "?session=OLD123&s=A1Z07K"))
              eq_refl eq_refl eq_refl ltac:(discriminate) ltac:(discriminate))
    as (_ & H & _).
  exact (H eq_refl).
Defined.

(** ** Descriptions carried in the query *)

Lemma b64_encode_forall (P : code_unit -> Prop) (bytes : list N) :
  (forall n, P (b64_char n)) -> P ch_equals -> Forall P (b64_encode bytes).
Proof.
  intros Hchar Hpad.
  induction bytes as [| a | a b | a b c rest IH] using list_ind3;
    cbn [b64_encode app];
    repeat (apply Forall_cons; [first [apply Hchar | exact Hpad]|]);
    try apply Forall_nil.
  exact IH.
Qed.

Lemma b64_char_in_query (n : N) :
  (b64_char n < 128)%N /\ b64_char n <> ch_ampersand /\
  b64_char n <> ch_percent.
Proof.
  unfold b64_char, ch_plus, ch_slash, ch_ampersand, ch_percent.
  destruct (N.ltb_spec n 26); [lia|].
  destruct (N.ltb_spec n 52); [lia|].
  destruct (N.ltb_spec n 62); [lia|].
  destruct (n =? 62)%N; lia.
Qed.

(** Base64 without [+] is made of plain characters. *)
Lemma b64_encode_plain (bytes : list N) :
  absent ch_plus (b64_encode bytes) = true ->
  forallb plain_value_unit (b64_encode bytes) = true.
Proof.
  intros Hplus. apply forallb_forall. intros c Hc.
  pose proof (b64_encode_forall
                (fun c => (c < 128)%N /\ c <> ch_ampersand /\ c <> ch_percent)
                bytes b64_char_in_query
                ltac:(unfold ch_equals, ch_ampersand, ch_percent; lia)) as H.
  rewrite Forall_forall in H. destruct (H c Hc) as (H1 & H2 & H3).
  unfold absent in Hplus. rewrite forallb_forall in Hplus.
  specialize (Hplus c Hc). unfold plain_value_unit.
  rewrite Hplus. apply N.ltb_lt in H1. apply N.eqb_neq in H2, H3.
  now rewrite H1, H2, H3.
Qed.

Lemma url_safe_char (n : N) : (n < 64)%N -> url_safe_char_ok n = true.
Proof. apply check_below_sound. vm_compute. reflexivity. Qed.

(** The URL-safe spelling of base64: its characters, all plain. *)
Lemma to_base64url_chars (s : jsstring) :
  is_latin1 s = true ->
  to_base64url (b64_encode s) = map url_forward (map b64_char (b64_vals s)) /\
  forallb plain_value_unit (to_base64url (b64_encode s)) = true.
Proof.
  intros H. pose proof (b64_vals_bound s H) as Hb.
  destruct (backward_chars _ Hb) as (_ & _ & B3).
  assert (E : to_base64url (b64_encode s)
              = map url_forward (map b64_char (b64_vals s))).
  { unfold to_base64url. rewrite replace_forward.
    rewrite b64_encode_split, b64_pad_repeat, map_app.
    rewrite (map_repeat_equals url_forward _ eq_refl).
    apply (strip_padding_body _ _ B3). }
  split; [exact E|]. rewrite E, map_map. apply forallb_forall.
  intros c Hc. apply in_map_iff in Hc as (v & <- & Hv).
  rewrite Forall_forall in Hb. exact (url_safe_char v (Hb v Hv)).
Qed.

Lemma b64_vals_not_empty (c : N) (r : list N) : b64_vals (c :: r) <> [].
Proof. destruct r as [|b [|d r]]; discriminate. Qed.

(** What [extractSdpFromUrl] makes of a query that holds one plain value
    under [offer] or [answer]. *)
Lemma extractSdpFromUrl_value (page : Location) (answer : bool)
  (c : code_unit) (value : jsstring) :
  forallb plain_value_unit (c :: value) = true ->
  search page = (if answer then lit "?answer=" else lit "?offer=")
                ++ c :: value ->
  extractSdpFromUrl page =
  cbind (decodeSdp (JStr (c :: value))) (fun sdp =>
  Normal (Some {| sdp_type := if answer then lit "answer" else lit "offer";
                  sdp_value := sdp |})).
Proof.
  intros Hplain Hsearch. unfold extractSdpFromUrl. rewrite Hsearch.
  destruct answer.
  - change (lit "?answer=" ++ c :: value)
      with (ch_question :: query_of [(lit "answer", c :: value)]).
    rewrite URLSearchParams_plain
      by (cbn [forallb]; unfold plain_pair; cbn [fst snd]; now rewrite Hplain).
    reflexivity.
  - change (lit "?offer=" ++ c :: value)
      with (ch_question :: query_of [(lit "offer", c :: value)]).
    rewrite URLSearchParams_plain
      by (cbn [forallb]; unfold plain_pair; cbn [fst snd]; now rewrite Hplain).
    reflexivity.
Qed.

(** X26: a description carried in the query is read back.  On a page
    whose query is [offer=] or [answer=] followed by the URL-safe spelling
    of [encodeSdp(x)], [extractSdpFromUrl] returns [x] with that role; the
    same holds for the encoding as [encodeSdp] gives it, provided it holds
    no [+] (which a query reads as a space). *)
Theorem extractSdpFromUrl_read_back (x : json) (e : jsstring) (answer : bool)
  (page : Location) :
  json_wf x = true ->
  encodeSdp x = Normal e ->
  let name := if answer then lit "?answer=" else lit "?offer=" in
  let found :=
    Normal (Some {| sdp_type := if answer then lit "answer" else lit "offer";
                    sdp_value := x |}) in
  (search page = name ++ to_base64url e -> extractSdpFromUrl page = found) /\
  (absent ch_plus e = true -> search page = name ++ e ->
   extractSdpFromUrl page = found).
Proof.
  intros Hwf He. cbv zeta.
  pose proof (encodeSdp_decodes x e Hwf He) as Hdec.
  unfold encodeSdp, btoa in He.
  destruct (is_latin1 (JSON_stringify x)) eqn:Hlat; [|discriminate].
  injection He as <-.
  destruct (to_base64url_chars _ Hlat) as [Hurl Hplain].
  destruct (stringify_head x) as (c & r & Hhead & _).
  split.
  - intros Hsearch.
    destruct (to_base64url (b64_encode (JSON_stringify x)))
      as [|u url] eqn:Eurl.
    + rewrite Hhead in Hurl. symmetry in Hurl.
      apply map_eq_nil, map_eq_nil in Hurl.
      now destruct (b64_vals_not_empty c r).
    + rewrite (extractSdpFromUrl_value page answer u url Hplain Hsearch).
      rewrite <- Eurl.
      rewrite (decodeSdp_of_padded x _ Hwf Hlat (padded_url _ Hlat)).
      reflexivity.
  - intros Hplus Hsearch.
    pose proof (b64_encode_plain _ Hplus) as Hp.
    destruct (b64_encode (JSON_stringify x)) as [|u enc] eqn:Eenc.
    + rewrite Hhead in Eenc. now destruct (b64_encode_not_empty c r).
    + rewrite (extractSdpFromUrl_value page answer u enc Hp Hsearch).
      now rewrite Hdec.
Qed.

Lemma extractSdpFromUrl_read_back_witness :
  json_wf sample_offer = true /\
  encodeSdp sample_offer = Normal sample_enc /\
  extractSdpFromUrl (page_at (lit "?answer=" ++ to_base64url sample_enc))
  = Normal (Some {| sdp_type := lit "answer"; sdp_value := sample_offer |}).
Proof.
  split; [reflexivity|]. split; [vm_compute; reflexivity|].
  destruct (extractSdpFromUrl_read_back sample_offer sample_enc true
              (page_at (lit "?answer=" ++ to_base64url sample_enc))
              eq_refl ltac:(vm_compute; reflexivity)) as [H _].
  exact (H eq_refl).
Defined.

(** A [+] in the encoding does not survive the query: the base64 of the
    JSON string [~~~] is [In5+fiI=], which the query hands over with a space
    in it, and the description is lost. *)
Example extractSdpFromUrl_plus_is_lost :
  encodeSdp (JStr (lit "~~~")) = Normal (lit "In5+fiI=") /\
  extractSdpFromUrl (page_at (lit "?offer=In5+fiI="))
  = Normal (Some {| sdp_type := lit "offer"; sdp_value := JNull |}) /\
  extractSdpFromUrl (page_at (lit "?offer=In5-fiI"))
  = Normal (Some {| sdp_type := lit "offer"; sdp_value := JStr (lit "~~~") |}).
Proof. repeat split; vm_compute; reflexivity. Qed.
